(** * blog4go: the buffered, leveled log writer [BLog]

    A shallow embedding of [blog4go.go] (package [blog4go]) and the
    verification of its formatting-and-buffered-delivery engine:
    [write], [writef], [flush], [Close] and [resetFile].

    Layout of the development:
    - Go strings, runes and the [for i, v := range format] iteration;
    - the destination ([io.Writer]) as a recording, fault-injecting sink
      living in a store of destinations;
    - [bufio.Writer] (the Go standard library's buffered writer);
    - the methods of [BLog], in a small state-and-panic monad;
    - the tokenised reading of a format string used by the statements;
    - the theorems. *)

From Stdlib Require Import ZArith Ascii String List Lia.
From stdpp Require Import base tactics option list functions strings pretty.

Set Default Proof Using "Type".
Local Open Scope Z_scope.
Local Open Scope nat_scope.

(** ** Go strings and runes *)

(** A Go [string] is an immutable sequence of bytes. *)
Abbreviation gostring := (list ascii).

Definition str (s : string) : gostring := list_ascii_of_string s.

(** [s[a:b]] for [a <= b <= len(s)]. *)
Definition slice (s : gostring) (a b : nat) : gostring := take (b - a) (drop a s).

(** [s[a:]]. *)
Definition slice_from (s : gostring) (a : nat) : gostring := drop a s.

Definition byteZ (c : ascii) : Z := Z.of_N (N_of_ascii c).

(** [const ( EOL = '\n'; ESCAPE = '\\'; PLACEHOLDER = '%' )] *)
Definition EOL : ascii := "010"%char.
Definition ESCAPE : ascii := "\"%char.
Definition PLACEHOLDER : ascii := "%"%char.

(** Go's [int] on a 64-bit platform: two's complement wrap-around. *)
Definition int_wrap (z : Z) : Z := ((z + 2 ^ 63) mod 2 ^ 64 - 2 ^ 63)%Z.

Definition len (s : gostring) : Z := Z.of_nat (length s).

(** *** UTF-8 decoding, as performed by [range] over a string

    [utf8.DecodeRuneInString]: the rune starting at the head of [s] and its
    width in bytes; an invalid or truncated encoding yields
    [(RuneError, 1)]. *)
Definition RuneError : Z := 65533%Z.

Definition in_range (lo hi b : Z) : bool := ((lo <=? b) && (b <=? hi))%Z.

(** The [first] table of package [utf8]: for a leading byte, the size of the
    encoding and the accepted range of the second byte. *)
Definition utf8_first (s0 : Z) : option (nat * Z * Z) :=
  if in_range 0xC2 0xDF s0 then Some (2, 0x80%Z, 0xBF%Z)
  else if (s0 =? 0xE0)%Z then Some (3, 0xA0%Z, 0xBF%Z)
  else if in_range 0xE1 0xEC s0 then Some (3, 0x80%Z, 0xBF%Z)
  else if (s0 =? 0xED)%Z then Some (3, 0x80%Z, 0x9F%Z)
  else if in_range 0xEE 0xEF s0 then Some (3, 0x80%Z, 0xBF%Z)
  else if (s0 =? 0xF0)%Z then Some (4, 0x90%Z, 0xBF%Z)
  else if in_range 0xF1 0xF3 s0 then Some (4, 0x80%Z, 0xBF%Z)
  else if (s0 =? 0xF4)%Z then Some (4, 0x80%Z, 0x8F%Z)
  else None.

Definition cont_bits (b : Z) : Z := Z.land b 0x3F.

Definition DecodeRuneInString (s : gostring) : Z * nat :=
  match s with
  | [] => (RuneError, 0)
  | c0 :: t =>
    let s0 := byteZ c0 in
    if (s0 <? 0x80)%Z then (s0, 1)
    else
      match utf8_first s0 with
      | None => (RuneError, 1)
      | Some (sz, lo, hi) =>
        match t with
        | [] => (RuneError, 1)
        | c1 :: t1 =>
          let s1 := byteZ c1 in
          if negb (in_range lo hi s1) then (RuneError, 1)
          else if sz =? 2 then
            (Z.lor (Z.shiftl (Z.land s0 0x1F) 6) (cont_bits s1), 2)
          else
            match t1 with
            | [] => (RuneError, 1)
            | c2 :: t2 =>
              let s2 := byteZ c2 in
              if negb (in_range 0x80 0xBF s2) then (RuneError, 1)
              else if sz =? 3 then
                (Z.lor (Z.lor (Z.shiftl (Z.land s0 0x0F) 12)
                              (Z.shiftl (cont_bits s1) 6))
                       (cont_bits s2), 3)
              else
                match t2 with
                | [] => (RuneError, 1)
                | c3 :: _ =>
                  let s3 := byteZ c3 in
                  if negb (in_range 0x80 0xBF s3) then (RuneError, 1)
                  else
                    (Z.lor (Z.lor (Z.lor (Z.shiftl (Z.land s0 0x07) 18)
                                         (Z.shiftl (cont_bits s1) 12))
                                  (Z.shiftl (cont_bits s2) 6))
                           (cont_bits s3), 4)
                end
            end
        end
      end
  end.

(** [for i, v := range s]: the pairs (byte offset, rune) visited, in order.
    [skip] counts the continuation bytes of the rune being stepped over. *)
Fixpoint range_from (skip i : nat) (s : gostring) : list (nat * Z) :=
  match s with
  | [] => []
  | _ :: t =>
    match skip with
    | S k => range_from k (S i) t
    | O => let '(v, w) := DecodeRuneInString s in
           (i, v) :: range_from (w - 1) (S i) t
    end
  end.

Definition range (s : gostring) : list (nat * Z) := range_from 0 0 s.

(** What [range] meets at a byte that is not ASCII: a rune of at least
    0x80, whose remaining bytes are not ASCII either. *)
Definition stepped_over (t : gostring) (v : Z) (w : nat) : Prop :=
  (0x80 <= v)%Z /\ exists skipped rest,
    t = skipped ++ rest /\ S (length skipped) = w /\
    Forall (fun c => (0x80 <= byteZ c)%Z) skipped.

(** ** Destinations ([io.Writer])

    A destination is any [io.Writer]. It is modelled by a recording sink with
    fault injection: [received] is what the destination has accepted so far,
    [calls] counts the invocations of its [Write] method, and [script] fixes
    the outcome of the coming calls, one entry per call: [None] accepts the
    whole slice, [Some (k, e)] accepts at most [k] bytes and fails with [e].
    Once the script is exhausted every call succeeds. The sink honours the
    [io.Writer] contract: it returns a non-nil error whenever it accepts
    fewer bytes than it was given. *)
Inductive go_error := ErrShortWrite | ErrIO (code : nat).

Global Instance go_error_eq_dec : EqDecision go_error.
Proof. solve_decision. Defined.

Record Sink := mkSink {
  received : gostring;
  calls : nat;
  script : list (option (nat * go_error))
}.

Definition io_Write (d : Sink) (p : gostring) : Sink * (nat * option go_error) :=
  match script d with
  | [] => (mkSink (received d ++ p) (S (calls d)) [], (length p, None))
  | None :: rest => (mkSink (received d ++ p) (S (calls d)) rest, (length p, None))
  | Some (k, e) :: rest =>
    let n := min k (length p) in
    (mkSink (received d ++ take n p) (S (calls d)) rest, (n, Some e))
  end.

(** Destinations are reference values: they live in a store, and the writer
    holds their addresses. *)
Abbreviation loc := nat (only parsing).
Abbreviation store := (loc -> Sink) (only parsing).

(** ** [bufio.Writer]

    The buffered writer of Go's standard library, after its source:
    [buf] holds the buffered bytes [b.buf[0:b.n]], [size] is [len(b.buf)],
    [err] is the sticky error and [wr] the underlying destination. The
    destination offers [Write] only: it is not itself a [*bufio.Writer]
    and has no [WriteString] of its own. *)
Module bufio.

Record Writer := mkWriter {
  err : option go_error;
  buf : gostring;
  size : nat;
  wr : loc
}.

Definition defaultBufSize : nat := 4096.

(** [NewWriterSize(w, size)]: a non-positive size selects the default. *)
Definition NewWriterSize (w : loc) (sz : Z) : Writer :=
  mkWriter None [] (if (sz <=? 0)%Z then defaultBufSize else Z.to_nat sz) w.

Definition Available (b : Writer) : nat := size b - length (buf b).
Definition Buffered (b : Writer) : nat := length (buf b).

Definition no_err (b : Writer) : bool :=
  match err b with None => true | Some _ => false end.

(** [Reset] discards any unflushed data, clears the error and rebinds the
    writer to [w]; the buffer itself (and so its size) is kept. *)
Definition Reset (w : loc) (b : Writer) : Writer := mkWriter None [] (size b) w.

(** [Flush]: hand the buffered bytes to the destination, once. *)
Definition Flush (b : Writer) (h : store) : option go_error * Writer * store :=
  match err b with
  | Some e => (Some e, b, h)
  | None =>
    if Buffered b =? 0 then (None, b, h)
    else
      let '(d, (n, e)) := io_Write (h (wr b)) (buf b) in
      let e := match e with
               | None => if n <? Buffered b then Some ErrShortWrite else None
               | Some x => Some x
               end in
      match e with
      | Some x => (Some x, mkWriter (Some x) (drop n (buf b)) (size b) (wr b),
                   <[wr b := d]> h)
      | None => (None, mkWriter None [] (size b) (wr b), <[wr b := d]> h)
      end
  end.

(** [n := copy(b.buf[b.n:], p); b.n += n] *)
Definition copy_in (p : gostring) (b : Writer) : nat * Writer :=
  let n := min (Available b) (length p) in
  (n, mkWriter (err b) (buf b ++ take n p) (size b) (wr b)).

(** The exit of [Write] and [WriteString] after their loop. *)
Definition finish (p : gostring) (nn : nat) (b : Writer) (h : store)
  : (nat * option go_error) * Writer * store :=
  match err b with
  | Some e => ((nn, Some e), b, h)
  | None => let '(n, b') := copy_in p b in ((nn + n, None), b', h)
  end.

(** One round of the loops below:
    [n = copy(b.buf[b.n:], p); b.n += n; b.Flush()]. *)
Definition fill_flush (p : gostring) (b : Writer) (h : store)
  : nat * Writer * store :=
  let '(n, b1) := copy_in p b in
  let '(_, b2, h2) := Flush b1 h in
  (n, b2, h2).

(** The loop of [WriteString]: while the string does not fit and no error
    occurred, fill the buffer and flush it. *)
Fixpoint WriteString_loop (fuel : nat) (s : gostring) (nn : nat)
    (b : Writer) (h : store) : gostring * nat * Writer * store :=
  match fuel with
  | O => (s, nn, b, h)
  | S fuel' =>
    if (Available b <? length s) && no_err b then
      let '(n, b2, h2) := fill_flush s b h in
      WriteString_loop fuel' (drop n s) (nn + n) b2 h2
    else (s, nn, b, h)
  end.

Definition WriteString (s : gostring) (b : Writer) (h : store)
  : (nat * option go_error) * Writer * store :=
  let '(s', nn, b', h') := WriteString_loop (length s + 2) s 0 b h in
  finish s' nn b' h'.

(** The loop of [Write]: as [WriteString], except that a large write into
    an empty buffer goes to the destination directly. *)
Fixpoint Write_loop (fuel : nat) (p : gostring) (nn : nat)
    (b : Writer) (h : store) : gostring * nat * Writer * store :=
  match fuel with
  | O => (p, nn, b, h)
  | S fuel' =>
    if (Available b <? length p) && no_err b then
      if Buffered b =? 0 then
        let '(d, (n, e)) := io_Write (h (wr b)) p in
        Write_loop fuel' (drop n p) (nn + n)
                   (mkWriter e (buf b) (size b) (wr b)) (<[wr b := d]> h)
      else
        let '(n, b2, h2) := fill_flush p b h in
        Write_loop fuel' (drop n p) (nn + n) b2 h2
    else (p, nn, b, h)
  end.

Definition Write (p : gostring) (b : Writer) (h : store)
  : (nat * option go_error) * Writer * store :=
  let '(p', nn, b', h') := Write_loop (length p + 2) p 0 b h in
  finish p' nn b' h'.

Definition WriteByte (c : ascii) (b : Writer) (h : store)
  : option go_error * Writer * store :=
  match err b with
  | Some e => (Some e, b, h)
  | None =>
    if Available b <=? 0 then
      let '(e, b1, h1) := Flush b h in
      match e with
      | Some x => (err b1, b1, h1)
      | None => (None, mkWriter (err b1) (buf b1 ++ [c]) (size b1) (wr b1), h1)
      end
    else (None, mkWriter (err b) (buf b ++ [c]) (size b) (wr b), h)
  end.

End bufio.

(** ** The buffered stream of a sound writer

    A writer is [sound] when it carries no sticky error, its buffer is within
    its capacity, and its destination accepts every write. The buffered
    stream is then what the destination has received followed by what is
    still buffered. *)
Definition sound (b : bufio.Writer) (h : store) : Prop :=
  bufio.err b = None /\ length (bufio.buf b) <= bufio.size b /\
  0 < bufio.size b /\ script (h (bufio.wr b)) = [].

Definition stream_of (b : bufio.Writer) (h : store) : gostring :=
  received (h (bufio.wr b)) ++ bufio.buf b.

(** [appends out b h b' h']: the step from [(b, h)] to [(b', h')] appended
    exactly [out] to the buffered stream and touched nothing else. *)
Definition appends (out : gostring) (b : bufio.Writer) (h : store)
    (b' : bufio.Writer) (h' : store) : Prop :=
  sound b' h' /\ stream_of b' h' = stream_of b h ++ out /\
  bufio.size b' = bufio.size b /\ bufio.wr b' = bufio.wr b /\
  forall l, l <> bufio.wr b -> h' l = h l.

(** The measure and the condition of the loops of [WriteString] and
    [Write]. *)
Definition loop_measure (s : gostring) (b : bufio.Writer) : nat :=
  length s + (if bufio.Available b =? 0 then 1 else 0).

Definition loop_goes_on (s : gostring) (b : bufio.Writer) : bool :=
  (bufio.Available b <? length s) && bufio.no_err b.

(** ** The local variables of [writef] *)
Module Vars.
Record t := mk {
  tag : bool;      (* inside a placeholder *)
  tagPos : nat;    (* where it began *)
  escape : bool;   (* escape pending *)
  n : nat;         (* index of the next argument *)
  last : nat;      (* first byte not yet written *)
  s : Z;
  size : Z
}.
End Vars.

(** [int] addition. *)
Definition int_add (a b : Z) : Z := int_wrap (a + b).

(** The verbs of the [switch] in [writef]. *)
Definition verbs : list ascii :=
  ["d"; "f"; "v"; "b"; "o"; "x"; "X"; "c"; "p"; "t"; "s"; "T"; "q"; "U";
   "e"; "E"; "g"; "G"]%char.

Definition is_verb (v : Z) : bool := existsb (Z.eqb v) (byteZ <$> verbs).

(** Run-time panics of the Go runtime met in this package. *)
Inductive panic := NilDereference | IndexOutOfRange.

(** ** The reading of a format string

    A format string is a sequence of literal runs interleaved with
    placeholders. A literal run extends to the next [%]; a placeholder
    begins at [%] and extends to the first verb after it; a [%] that no
    verb follows opens a placeholder left dangling at the end of the
    string. *)
Inductive token :=
| Lit (run : gostring)
| Hole (text : gostring)
| Dangling (text : gostring).

Fixpoint tokenize_run (run s : gostring) : list token :=
  match s with
  | [] => [Lit run]
  | c :: s' =>
    if bool_decide (PLACEHOLDER = c) then Lit run :: tokenize_hole [c] s'
    else tokenize_run (run ++ [c]) s'
  end
with tokenize_hole (text s : gostring) : list token :=
  match s with
  | [] => [Dangling text]
  | c :: s' =>
    if is_verb (byteZ c) then Hole (text ++ [c]) :: tokenize_run [] s'
    else tokenize_hole (text ++ [c]) s'
  end.

Definition tokenize (format : gostring) : list token := tokenize_run [] format.

Definition is_hole (t : token) : bool :=
  match t with Hole _ => true | _ => false end.

Definition is_dangling (t : token) : bool :=
  match t with Dangling _ => true | _ => false end.

(** The number of complete placeholders. *)
Definition holes (toks : list token) : nat := length (filter is_hole toks).
Definition placeholders (format : gostring) : nat := holes (tokenize format).

Definition no_dangling (toks : list token) : bool :=
  forallb (fun t => negb (is_dangling t)) toks.

(** The format does not end inside a placeholder. *)
Definition terminated (format : gostring) : Prop :=
  no_dangling (tokenize format) = true.


(** The escape bytes written while a placeholder is scanned: the flag
    [escape] flips at each escape character, and every second one is
    written out. *)
Fixpoint esc_out (esc : bool) (s : gostring) : gostring :=
  match s with
  | [] => []
  | c :: s' =>
    if bool_decide (ESCAPE = c)
    then (if esc then [ESCAPE] else []) ++ esc_out (negb esc) s'
    else esc_out esc s'
  end.

Fixpoint esc_flag (esc : bool) (s : gostring) : bool :=
  match s with
  | [] => esc
  | c :: s' => esc_flag (if bool_decide (ESCAPE = c) then negb esc else esc) s'
  end.

(** One escape byte for every pair of escape characters in [text]. *)
Definition escapes (text : gostring) : gostring :=
  replicate (length (filter (eq ESCAPE) text) / 2) ESCAPE.

(** The offsets and bytes of a string, one iteration per byte. *)
Fixpoint positions (i : nat) (s : gostring) : list (nat * Z) :=
  match s with
  | [] => []
  | c :: t => (i, byteZ c) :: positions (S i) t
  end.

Section BLog.

(** Declared elsewhere in the package and taken as parameters: the type
    [Level] with its constant [DEBUG] and method [Prefix], the pre-rendered
    timestamp [timeCache.format], and the variable [DefaultBufferSize]
    (set to [os.Getpagesize()] by [init]). [Value] stands for the dynamic
    values passed as [interface{}], and [Sprintf] for [fmt.Sprintf] applied
    to a format and one argument. *)
Context {Level : Type} (DEBUG : Level) (Prefix : Level -> gostring).
Context (timeCache_format : gostring).
Context (DefaultBufferSize : Z).
Context {Value : Type} (Sprintf : gostring -> Value -> gostring).

(** [type BLog struct]; a [nil] [writer] is [None], and [lock] tells whether
    the mutex [*blog.lock] is held (a [BLog] is made by [NewBLog], which
    allocates the mutex: the pointer [blog.lock] is never nil). *)
Record BLog := mkBLog {
  level : Level;
  in_ : loc;
  writer : option bufio.Writer;
  lock : bool
}.

Definition set_level (lvl : Level) (b : BLog) : BLog :=
  mkBLog lvl (in_ b) (writer b) (lock b).
Definition set_in (i : loc) (b : BLog) : BLog :=
  mkBLog (level b) i (writer b) (lock b).
Definition set_writer (o : option bufio.Writer) (b : BLog) : BLog :=
  mkBLog (level b) (in_ b) o (lock b).
Definition set_lock (held : bool) (b : BLog) : BLog :=
  mkBLog (level b) (in_ b) (writer b) held.

(** The state a method runs in: the destinations and the receiver. *)
Record world := mkWorld {
  dests : store;
  blog : BLog
}.

(** A call returns, panics, or waits for ever for a mutex that is held (in
    a sequential run nobody is there to release it). *)
Inductive outcome (A : Type) :=
| Returns (a : A) (w : world)
| Panics (p : panic) (w : world)
| Blocks (w : world).
Global Arguments Returns {A} a w.
Global Arguments Panics {A} p w.
Global Arguments Blocks {A} w.

Definition M (A : Type) : Type := world -> outcome A.

Global Instance M_ret : MRet M := fun A a w => Returns a w.
Global Instance M_bind : MBind M := fun A B f m w =>
  match m w with
  | Returns a w' => f a w'
  | Panics p w' => Panics p w'
  | Blocks w' => Blocks w'
  end.

Definition throw {A} (p : panic) : M A := fun w => Panics p w.

(** The world an outcome leaves behind. *)
Definition final {A} (o : outcome A) : world :=
  match o with Returns _ w => w | Panics _ w => w | Blocks w => w end.

Fixpoint foldM {A B} (f : A -> B -> M A) (a : A) (l : list B) : M A :=
  match l with
  | [] => mret a
  | b :: l' => a' ← f a b; foldM f a' l'
  end.

(** An assignment to a field of the receiver. *)
Definition assign (f : BLog -> BLog) : M unit :=
  fun w => Returns tt (mkWorld (dests w) (f (blog w))).

(** A method call [blog.writer.m(...)] on the [*bufio.Writer] field. *)
Definition on_writer {A}
    (m : bufio.Writer -> store -> A * bufio.Writer * store) : M A :=
  fun w =>
    match writer (blog w) with
    | None => Panics NilDereference w
    | Some b =>
      let '(a, b', h') := m b (dests w) in
      Returns a (mkWorld h' (set_writer (Some b') (blog w)))
    end.

(** [blog.lock.Lock()] *)
Definition Lock : M unit :=
  fun w =>
    if lock (blog w) then Blocks w
    else Returns tt (mkWorld (dests w) (set_lock true (blog w))).

(** [blog.lock.Unlock()]; every method calls it with the mutex held. *)
Definition Unlock : M unit := assign (set_lock false).

(** [defer d]: [d] runs when the rest of the function has returned, and
    when it has panicked. *)
Definition defer {A} (d : M unit) (rest : M A) : M A :=
  fun w =>
    match rest w with
    | Returns a w' => (_ ← d; mret a) w'
    | Panics p w' => (_ ← d; throw p) w'
    | Blocks w' => Blocks w'
    end.

(** [NewBLog] *)
Definition NewBLog (in0 : loc) : BLog :=
  mkBLog DEBUG in0 (Some (bufio.NewWriterSize in0 DefaultBufferSize)) false.

(** [write] *)
Definition write (lvl : Level) (format : gostring) : M Z :=
  _ ← Lock;
  defer Unlock (
    _ ← on_writer (bufio.Write timeCache_format);
    _ ← on_writer (bufio.WriteString (Prefix lvl));
    _ ← on_writer (bufio.WriteString format);
    _ ← on_writer (bufio.WriteByte EOL);
    mret (int_add (int_add (int_add (len timeCache_format) (len (Prefix lvl)))
                           (len format)) 1)).

(** One iteration of the loop of [writef], at offset [i] and rune [v]. *)
Definition writef_iter (format : gostring) (args : list Value)
    (x : Vars.t) (iv : nat * Z) : M Vars.t :=
  let '(i, v) := iv in
  let '(Vars.mk tag tagPos escape n last s size) := x in
  if tag then
    if is_verb v then
      let escape := if escape then false else escape in
      match args !! n with
      | None => throw IndexOutOfRange
      | Some a =>
        r ← on_writer (bufio.WriteString
                         (Sprintf (slice format tagPos (i + 1)) a));
        let s := Z.of_nat r.1 in
        mret (Vars.mk false tagPos escape (n + 1) (i + 1) s (int_add size s))
      end
    else if (v =? byteZ ESCAPE)%Z then
      size ← (if escape
              then _ ← on_writer (bufio.WriteByte ESCAPE); mret (int_add size 1)
              else mret size);
      mret (Vars.mk tag tagPos (negb escape) n last s size)
    else mret x
  else
    match format !! i with
    | None => throw IndexOutOfRange
    | Some c =>
      if bool_decide (PLACEHOLDER = c) && negb escape then
        r ← on_writer (bufio.WriteString (slice format last i));
        let s := Z.of_nat r.1 in
        mret (Vars.mk true i false n last s (int_add size s))
      else mret x
    end.

(** [writef] *)
Definition writef (lvl : Level) (format : gostring) (args : list Value) : M Z :=
  _ ← Lock;
  defer Unlock (
    _ ← on_writer (bufio.Write timeCache_format);
    _ ← on_writer (bufio.WriteString (Prefix lvl));
    let size := int_add 0 (int_add (len timeCache_format) (len (Prefix lvl))) in
    x ← foldM (writef_iter format args)
              (Vars.mk false 0 false 0 0 0 size) (range format);
    _ ← on_writer (bufio.WriteString (slice_from format (Vars.last x)));
    _ ← on_writer (bufio.WriteByte EOL);
    mret (int_add (Vars.size x)
                  (int_add (len (slice_from format (Vars.last x))) 1))).

(** [flush] *)
Definition flush : M unit :=
  _ ← Lock;
  defer Unlock (
    _ ← on_writer bufio.Flush;
    mret tt).

(** [Close] *)
Definition Close : M unit :=
  _ ← Lock;
  defer Unlock (
    _ ← on_writer bufio.Flush;
    assign (set_writer None)).

(** [In] (the name [In] is left to the membership predicate of lists) *)
Definition get_In : M loc := fun w => Returns (in_ (blog w)) w.

(** [Level] (the name is that of the type) *)
Definition get_Level : M Level := fun w => Returns (level (blog w)) w.

(** [SetLevel]; the receiver it returns is the one of the world. *)
Definition SetLevel (lvl : Level) : M unit := assign (set_level lvl).

(** [resetFile]; its result [err] is never assigned, so [nil] is returned. *)
Definition resetFile (in1 : loc) : M (option go_error) :=
  _ ← Lock;
  defer Unlock (
    _ ← on_writer bufio.Flush;
    _ ← assign (set_in in1);
    _ ← on_writer (fun b h => (tt, bufio.Reset in1 b, h));
    mret None).

(** ** The buffered stream of the writer *)

(** The writer is open, without a pending error, over a destination that
    accepts what it is given. *)
Definition ready (w : world) : Prop :=
  exists b, writer (blog w) = Some b /\ sound b (dests w).

(** Moreover no call is under way: the mutex is free. *)
Definition healthy (w : world) : Prop :=
  lock (blog w) = false /\ ready w.

(** What has been written through the writer and not been dropped: the
    bytes its destination received, then the bytes still buffered. *)
Definition stream (w : world) : gostring :=
  match writer (blog w) with
  | Some b => stream_of b (dests w)
  | None => []
  end.

(** The destination the buffered stream is bound to, and its capacity. *)
Definition bound (w : world) : option loc := bufio.wr <$> writer (blog w).
Definition capacity (w : world) : option nat := bufio.size <$> writer (blog w).

(** [extends out w w']: from [w] to [w'] exactly [out] was appended to the
    buffered stream; the writer stays ready, bound to the same
    destination with the same capacity, and no other destination, nor the
    level, nor [in] changed. *)
Definition extends (out : gostring) (w w' : world) : Prop :=
  exists b b', writer (blog w) = Some b /\ writer (blog w') = Some b' /\
    appends out b (dests w) b' (dests w') /\
    level (blog w') = level (blog w) /\ in_ (blog w') = in_ (blog w).

(** ** What [writef] renders *)

Inductive rendering :=
| Done (body : gostring)       (* the scan completes *)
| Fault (partial : gostring).  (* [args[n]] is out of range *)

Definition prepend (p : gostring) (r : rendering) : rendering :=
  match r with
  | Done b => Done (p ++ b)
  | Fault b => Fault (p ++ b)
  end.

(** The state reached by the loop of [writef] from variables [x] and world
    [w], for a rendering [r] of what remains to scan: [pfx] is the part of
    [r] already in the stream, [k] the number of placeholders left, and
    the unwritten tail [format[last:]] completes the body. *)
Definition scanned (format : gostring) (pfx : gostring) (r : rendering)
    (k : nat) (x : Vars.t) (w : world) (o : outcome Vars.t) : Prop :=
  match r with
  | Done body =>
    exists x' w' out, o = Returns x' w' /\ extends out w w' /\
      pfx ++ out ++ slice_from format (Vars.last x') = body /\
      int_wrap (Vars.size x') = int_wrap (Vars.size x + len out) /\
      Vars.n x' = Vars.n x + k
  | Fault part =>
    exists w' out, o = Panics IndexOutOfRange w' /\ extends out w w' /\
      pfx ++ out = part
  end.

(** The bytes [writef] emits for the tokens of a format: a literal run as
    it is; a placeholder as its escape bytes, then [Sprintf] of its text and
    the next argument; and a dangling placeholder as its escape bytes, then
    the run before it once more, then its own text. [prev] is the literal
    run just emitted. *)
Fixpoint emitted (prev : gostring) (toks : list token) (args : list Value)
  : rendering :=
  match toks with
  | [] => Done []
  | Lit r :: toks' => prepend r (emitted r toks' args)
  | Hole t :: toks' =>
    match args with
    | [] => Fault (escapes t)
    | a :: args' => prepend (escapes t ++ Sprintf t a) (emitted [] toks' args')
    end
  | Dangling t :: toks' =>
    prepend (escapes t ++ prev ++ t) (emitted [] toks' args)
  end.

(** The body of a line, read off the tokens: every literal run unchanged,
    every placeholder as [lead] of its text followed by [Sprintf] of its
    text and the corresponding argument. *)
Fixpoint render (lead : gostring -> gostring) (toks : list token)
    (args : list Value) : gostring :=
  match toks with
  | [] => []
  | Lit r :: toks' => r ++ render lead toks' args
  | Hole t :: toks' =>
    match args with
    | [] => []
    | a :: args' => lead t ++ Sprintf t a ++ render lead toks' args'
    end
  | Dangling t :: toks' => t ++ render lead toks' args
  end.

(** Placeholders rendered by their verb alone. *)
Definition rendered (format : gostring) (args : list Value) : gostring :=
  render (fun _ => []) (tokenize format) args.

(** Placeholders rendered with their escape bytes in front. *)
Definition rendered_escaped (format : gostring) (args : list Value) : gostring :=
  render escapes (tokenize format) args.

(** ** Sequences of writes *)
Inductive call :=
| Cwrite (lvl : Level) (m : gostring)
| Cwritef (lvl : Level) (format : gostring) (args : list Value).

Definition do_call (c : call) : M Z :=
  match c with
  | Cwrite lvl m => write lvl m
  | Cwritef lvl format args => writef lvl format args
  end.

Fixpoint do_calls (cs : list call) : M unit :=
  match cs with
  | [] => mret tt
  | c :: cs' => _ ← do_call c; do_calls cs'
  end.

(** The line a call writes, when its arguments suffice. *)
Definition line (c : call) : option gostring :=
  match c with
  | Cwrite lvl m => Some (timeCache_format ++ Prefix lvl ++ m ++ [EOL])
  | Cwritef lvl format args =>
    match emitted [] (tokenize format) args with
    | Done body => Some (timeCache_format ++ Prefix lvl ++ body ++ [EOL])
    | Fault _ => None
    end
  end.

Definition lines (cs : list call) : gostring := concat (omap line cs).

(** ** Every method, as an operation on the writer *)
Inductive op :=
| Owrite (lvl : Level) (m : gostring)
| Owritef (lvl : Level) (format : gostring) (args : list Value)
| Oflush
| OClose
| OresetFile (in1 : loc)
| OSetLevel (lvl : Level)
| OIn
| OLevel.

Definition run_op (o : op) : M unit :=
  match o with
  | Owrite lvl m => _ ← write lvl m; mret tt
  | Owritef lvl format args => _ ← writef lvl format args; mret tt
  | Oflush => flush
  | OClose => Close
  | OresetFile in1 => _ ← resetFile in1; mret tt
  | OSetLevel lvl => SetLevel lvl
  | OIn => _ ← get_In; mret tt
  | OLevel => _ ← get_Level; mret tt
  end.

Fixpoint run_ops (os : list op) : M unit :=
  match os with
  | [] => mret tt
  | o :: os' => _ ← run_op o; run_ops os'
  end.

(** The threshold and [blog.in] after a sequence of operations: those of
    the last [SetLevel] and of the last [resetFile]. *)
Definition threshold_after (os : list op) (l : Level) : Level :=
  fold_left (fun l o => match o with OSetLevel l' => l' | _ => l end) os l.

Definition in_after (os : list op) (i : loc) : loc :=
  fold_left (fun i o => match o with OresetFile i' => i' | _ => i end) os i.

(** How a call ended. *)
Inductive verdict := Returned | Panicked (p : panic) | Blocked.

Definition verdict_of {A} (o : outcome A) : verdict :=
  match o with
  | Returns _ _ => Returned
  | Panics p _ => Panicked p
  | Blocks _ => Blocked
  end.

(** ** The state of a writer between calls

    The buffer of a [bufio.Writer] stays within its capacity, which is
    positive. *)
Definition bounded (b : bufio.Writer) : Prop :=
  length (bufio.buf b) <= bufio.size b /\ 0 < bufio.size b.

(** Between calls the mutex is free, and an open writer is bound to the
    destination in [blog.in]. *)
Definition well_formed (w : world) : Prop :=
  lock (blog w) = false /\
  forall b, writer (blog w) = Some b ->
    bufio.wr b = in_ (blog w) /\ bounded b.

(** [steady b h b' h']: a step of the buffered writer, whatever its
    destination does, keeps the binding and the capacity of the writer, the
    bound on its buffer, and every other destination. *)
Definition steady (b : bufio.Writer) (h : store)
    (b' : bufio.Writer) (h' : store) : Prop :=
  bufio.wr b' = bufio.wr b /\ bufio.size b' = bufio.size b /\
  (bounded b -> bounded b') /\
  forall l, l <> bufio.wr b -> h' l = h l.

(** The same for the receiver: the writer stays open, and neither the level
    nor [in] changes. *)
Definition evolves (w w' : world) : Prop :=
  level (blog w') = level (blog w) /\ in_ (blog w') = in_ (blog w) /\
  exists b b', writer (blog w) = Some b /\ writer (blog w') = Some b' /\
    steady b (dests w) b' (dests w').

(** The control variables of the loop of [writef]: all but the counts. *)
Definition same_control (x y : Vars.t) : Prop :=
  Vars.tag x = Vars.tag y /\ Vars.tagPos x = Vars.tagPos y /\
  Vars.escape x = Vars.escape y /\ Vars.n x = Vars.n y /\
  Vars.last x = Vars.last y.

(** The receiver with another threshold, and an outcome with its world
    changed. *)
Definition with_level (l : Level) (w : world) : world :=
  mkWorld (dests w) (set_level l (blog w)).

Definition outcome_map {A} (f : world -> world) (o : outcome A) : outcome A :=
  match o with
  | Returns a w => Returns a (f w)
  | Panics p w => Panics p (f w)
  | Blocks w => Blocks (f w)
  end.

(** A computation that does not consult the threshold. *)
Definition level_blind {A} (m : M A) : Prop :=
  forall l w, m (with_level l w) = outcome_map (with_level l) (m w).

End BLog.

(** ** A concrete setting, for the examples *)
Module Sample.

(** Modelled from the spec: the severities of the level catalog, in their
    order (debug < trace < info < warn < error < critical). The spec does
    not give the prefix texts; the ones below stand in for them. *)
Inductive Level := DEBUG | TRACE | INFO | WARN | ERROR | CRITICAL.

Definition Prefix (l : Level) : gostring :=
  str match l with
      | DEBUG => " [DEBUG] "
      | TRACE => " [TRACE] "
      | INFO => " [INFO] "
      | WARN => " [WARN] "
      | ERROR => " [ERROR] "
      | CRITICAL => " [CRITICAL] "
      end.

Definition timeCache_format : gostring := str "2015-08-02 10:00:00".

Definition DefaultBufferSize : Z := 4096.

(** Arguments: integers and strings. *)
Inductive Value := VInt (z : Z) | VString (s : gostring).

Definition plain (v : Value) : gostring :=
  match v with
  | VInt z => str (pretty z)
  | VString s => s
  end.

Definition type_name (v : Value) : gostring :=
  str match v with VInt _ => "int" | VString _ => "string" end.

(** The report of [fmt] for a verb that does not apply:
    [%!verb(type=value)]. *)
Definition bad_verb (c : ascii) (v : Value) : gostring :=
  str "%!" ++ [c] ++ str "(" ++ type_name v ++ str "=" ++ plain v ++ str ")".

(** The characters [fmt] gives a meaning to after [%]: its verbs, the
    flags, width and precision, the argument index and [%] itself. *)
Definition known : gostring := str "bcdeEfFgGoOpqstTUvxX+-# 0123456789.*[%".

(** A fragment of [fmt.Sprintf], for one directive and one argument:
    [%v] on any value, [%d] on an integer, [%s] on a string, [%d] and [%s]
    on a value of the other kind (a bad verb), and a character without
    meaning right after [%] (a bad verb as well, the text after it being
    literal). Every other directive is outside the fragment and renders as
    the empty string; no example depends on it. *)
Definition Sprintf (f : gostring) (v : Value) : gostring :=
  match f with
  | p :: c :: rest =>
    if negb (bool_decide (p = PLACEHOLDER)) then []
    else if bool_decide (c ∈ known) then
      match rest with
      | [] =>
        if bool_decide (c = "v"%char) then plain v
        else if bool_decide (c = "d"%char) then
          match v with VInt _ => plain v | VString _ => bad_verb c v end
        else if bool_decide (c = "s"%char) then
          match v with VString _ => plain v | VInt _ => bad_verb c v end
        else []
      | _ :: _ => []
      end
    else if bool_decide (PLACEHOLDER ∈ rest) then []
    else bad_verb c v ++ rest
  | _ => []
  end.

(** Destinations that accept everything, and a writer made by [NewBLog]
    over destination 0. *)
Definition sink : Sink := mkSink [] 0 [].
Definition dests : store := fun _ => sink.
Definition start : world :=
  mkWorld dests (NewBLog DEBUG DefaultBufferSize 0).

(** The same, over a destination whose next [Write] fails without
    accepting a byte. *)
Definition failing : Sink := mkSink [] 0 [Some (0, ErrIO 5)].
Definition dests_failing : store := <[0 := failing]> dests.
Definition start_failing : world :=
  mkWorld dests_failing (NewBLog DEBUG DefaultBufferSize 0).

(** The line of [write(INFO, "boot")], and the writer holding it. *)
Definition boot_line : gostring :=
  timeCache_format ++ Prefix INFO ++ str "boot" ++ [EOL].
Definition pending_writer : bufio.Writer :=
  bufio.mkWriter None boot_line 4096 0.
Definition pending : world :=
  mkWorld dests_failing (mkBLog DEBUG 0 (Some pending_writer) false).

(** The same writer and destinations after a flush that failed. *)
Definition failed_writer : bufio.Writer :=
  bufio.mkWriter (Some (ErrIO 5)) boot_line 4096 0.
Definition dests_failed : store := <[0 := mkSink [] 1 []]> dests_failing.
Definition failed : world :=
  mkWorld dests_failed (mkBLog DEBUG 0 (Some failed_writer) false).

(** The methods, in this setting. *)
Definition write := write Prefix timeCache_format.
Definition writef := writef Prefix timeCache_format Sprintf.
Definition writef_iter := writef_iter (Level:=Level) Sprintf.
Definition do_calls := do_calls Prefix timeCache_format Sprintf.
Definition line := line Prefix timeCache_format Sprintf.
Definition lines := lines Prefix timeCache_format Sprintf.
Definition run_op := run_op Prefix timeCache_format Sprintf.
Definition run_ops := run_ops Prefix timeCache_format Sprintf.

(** The greeting of the specification, and the world after it is written. *)
Definition greeting : gostring := str "hello %s, you are %d".
Definition greeting_args : list Value := [VString (str "world"); VInt 3].
Definition greeted : world :=
  mkWorld dests
    (mkBLog DEBUG 0
       (Some (bufio.mkWriter None
                (timeCache_format ++ Prefix INFO ++
                 str "hello world, you are 3" ++ [EOL]) 4096 0))
       false).

(** The writer after [Close]. *)
Definition closed : world := mkWorld dests (mkBLog DEBUG 0 None false).

(** A session of two calls, and a routine over all the methods. *)
Definition session : list (@call Level Value) :=
  [Cwrite INFO (str "before"); Cwritef INFO greeting greeting_args].

Definition routine : list (@op Level Value) :=
  [OSetLevel WARN; Owrite INFO (str "boot"); OresetFile 1; OSetLevel ERROR;
   Owritef INFO (str "late %d") []; OIn].

(** The writer after a swap to destination 1 whose flush has failed. *)
Definition swapped : world :=
  mkWorld dests_failed
    (mkBLog DEBUG 1 (Some (bufio.mkWriter None [] 4096 1)) false).

End Sample.

(** ** Arithmetic of [int] *)
Section int_facts.
Local Open Scope Z_scope.

Lemma int_wrap_add_l a b : int_wrap (int_wrap a + b) = int_wrap (a + b).
Proof.
  unfold int_wrap. f_equal.
  replace ((a + 2 ^ 63) mod 2 ^ 64 - 2 ^ 63 + b + 2 ^ 63)
    with ((a + 2 ^ 63) mod 2 ^ 64 + b) by lia.
  rewrite Z.add_mod_idemp_l by lia. f_equal. lia.
Qed.

Lemma int_wrap_add_r a b : int_wrap (a + int_wrap b) = int_wrap (a + b).
Proof. by rewrite Z.add_comm, int_wrap_add_l, Z.add_comm. Qed.

Lemma int_wrap_add_m a b c :
  int_wrap (a + (int_wrap b + c)) = int_wrap (a + (b + c)).
Proof.
  replace (a + (int_wrap b + c)) with (int_wrap b + (a + c)) by lia.
  rewrite int_wrap_add_l. f_equal. lia.
Qed.

Lemma int_wrap_idem a : int_wrap (int_wrap a) = int_wrap a.
Proof.
  rewrite <- (Z.add_0_r (int_wrap a)) at 1. by rewrite int_wrap_add_l, Z.add_0_r.
Qed.

Lemma int_wrap_small z : - 2 ^ 63 <= z < 2 ^ 63 -> int_wrap z = z.
Proof. intros H. unfold int_wrap. rewrite Z.mod_small; lia. Qed.

Lemma int_wrap_eq_add a a' b :
  int_wrap a = int_wrap a' -> int_wrap (a + b) = int_wrap (a' + b).
Proof. intros H. by rewrite <- int_wrap_add_l, H, int_wrap_add_l. Qed.

Lemma len_app s t : len (s ++ t) = len s + len t.
Proof. unfold len. rewrite length_app. lia. Qed.

Lemma len_nonneg s : 0 <= len s.
Proof. unfold len. lia. Qed.

End int_facts.

(** Push every inner wrap-around to the outermost one. *)
Ltac int_norm :=
  unfold int_add;
  repeat first [rewrite int_wrap_add_l | rewrite int_wrap_add_r
               | rewrite int_wrap_add_m | rewrite <- Z.add_assoc];
  rewrite ?len_app.

Ltac int_solve :=
  int_norm; f_equal; try (unfold len; simpl; lia).

(** ** Soundness of the buffered writer over an accepting destination *)

Lemma appends_refl b h : sound b h -> appends [] b h b h.
Proof. intros H. repeat split; try apply H; auto. by rewrite app_nil_r. Qed.

Lemma appends_trans o1 o2 b h b1 h1 b2 h2 :
  appends o1 b h b1 h1 -> appends o2 b1 h1 b2 h2 ->
  appends (o1 ++ o2) b h b2 h2.
Proof.
  intros (S1 & E1 & Z1 & W1 & F1) (S2 & E2 & Z2 & W2 & F2).
  repeat split; try apply S2.
  - by rewrite E2, E1, app_assoc.
  - congruence.
  - congruence.
  - intros l Hl. rewrite F2 by congruence. by apply F1.
Qed.

Lemma io_Write_accepting d p :
  script d = [] ->
  io_Write d p = (mkSink (received d ++ p) (S (calls d)) [], (length p, None)).
Proof. intros H. unfold io_Write. by rewrite H. Qed.

Lemma Flush_sound b h :
  sound b h ->
  exists b' h', bufio.Flush b h = (None, b', h') /\ appends [] b h b' h' /\
                bufio.buf b' = [].
Proof.
  intros (He & Hl & Hz & Hs). unfold bufio.Flush. rewrite He.
  destruct (bufio.Buffered b =? 0) eqn:E.
  - apply Nat.eqb_eq in E. unfold bufio.Buffered in E.
    exists b, h. split; [done|]. split.
    + apply appends_refl. by repeat split.
    + by destruct (bufio.buf b).
  - rewrite io_Write_accepting by done. unfold bufio.Buffered.
    rewrite Nat.ltb_irrefl. eexists _, _. split; [reflexivity|]. split; [|done].
    unfold appends, sound, stream_of; simpl. rewrite !fn_lookup_insert.
    simpl. rewrite !app_nil_r. repeat split; auto with lia.
    intros l Hne. by rewrite fn_lookup_insert_ne.
Qed.

Lemma copy_in_sound p b h :
  sound b h -> length p <= bufio.Available b ->
  appends p b h (bufio.copy_in p b).2 h /\ (bufio.copy_in p b).1 = length p.
Proof.
  intros (He & Hl & Hz & Hs) Hp. unfold bufio.copy_in, bufio.Available in *.
  simpl. rewrite Nat.min_r by done. rewrite firstn_all. split; [|done].
  unfold appends, sound, stream_of; simpl. rewrite length_app.
  repeat split; auto with lia. by rewrite app_assoc.
Qed.

Lemma finish_sound p nn b h :
  sound b h -> length p <= bufio.Available b ->
  exists b', bufio.finish p nn b h = ((nn + length p, None), b', h) /\
             appends p b h b' h.
Proof.
  intros Hs Hp. unfold bufio.finish. destruct Hs as (He & Hs). rewrite He.
  destruct (copy_in_sound p b h) as [Ha Hn]; [by split|done|].
  destruct (bufio.copy_in p b) as [n b']. simpl in *. subst n. eauto.
Qed.

(** One round of the loops: fill the buffer, flush it. *)
Lemma fill_flush_sound p b h :
  sound b h -> bufio.Available b < length p ->
  exists b' h',
    bufio.fill_flush p b h = (bufio.Available b, b', h') /\
    appends (take (bufio.Available b) p) b h b' h' /\ bufio.buf b' = [].
Proof.
  intros Hs Hp. unfold bufio.fill_flush, bufio.copy_in.
  rewrite Nat.min_l by lia.
  set (b1 := bufio.mkWriter _ _ _ _).
  assert (Ha : appends (take (bufio.Available b) p) b h b1 h).
  { destruct Hs as (He & Hl & Hz & Hs).
    unfold appends, sound, stream_of, b1, bufio.Available in *; simpl.
    rewrite length_app, length_take. repeat split; auto with lia.
    by rewrite app_assoc. }
  destruct (Flush_sound _ _ (proj1 Ha)) as (b' & h' & EF & Ha' & Hb).
  rewrite EF. exists b', h'. split; [done|]. split; [|done].
  rewrite <- (app_nil_r (take _ p)). eapply appends_trans; eauto.
Qed.

Lemma sound_no_err b h : sound b h -> bufio.no_err b = true.
Proof. intros (He & _). unfold bufio.no_err. by rewrite He. Qed.

Lemma WriteString_loop_sound fuel : forall s nn b h,
  sound b h ->
  length s + (if bufio.Available b =? 0 then 1 else 0) < fuel ->
  exists s' o b' h',
    bufio.WriteString_loop fuel s nn b h = (s', nn + length o, b', h') /\
    appends o b h b' h' /\ s = o ++ s' /\ length s' <= bufio.Available b'.
Proof.
  induction fuel as [|fuel IH]; intros s nn b h Hs Hf; [lia|].
  simpl. rewrite (sound_no_err _ _ Hs), andb_true_r.
  destruct (bufio.Available b <? length s) eqn:E.
  - apply Nat.ltb_lt in E.
    destruct (fill_flush_sound s b h Hs E) as (b1 & h1 & EF & Ha & Hb).
    rewrite EF.
    assert (Hav : bufio.Available b1 = bufio.size b).
    { unfold bufio.Available. rewrite Hb. simpl.
      destruct Ha as (_ & _ & -> & _). lia. }
    destruct (IH (drop (bufio.Available b) s) (nn + bufio.Available b) b1 h1)
      as (s' & o & b' & h' & EL & Ha' & Es & Hl).
    { apply Ha. }
    { rewrite Hav, length_drop.
      destruct Hs as (_ & _ & Hz & _).
      destruct (Nat.eqb_spec (bufio.size b) 0); [lia|].
      destruct (Nat.eqb_spec (bufio.Available b) 0); lia. }
    exists s', (take (bufio.Available b) s ++ o), b', h'.
    rewrite EL, length_app, length_take, Nat.min_l by lia.
    split; [do 3 f_equal; lia|]. split; [|split; [|done]].
    + eapply appends_trans; eauto.
    + by rewrite <- app_assoc, <- Es, take_drop.
  - apply Nat.ltb_ge in E. exists s, [], b, h. simpl.
    rewrite Nat.add_0_r. auto using appends_refl.
Qed.

Lemma WriteString_sound s b h :
  sound b h ->
  exists b' h', bufio.WriteString s b h = ((length s, None), b', h') /\
                appends s b h b' h'.
Proof.
  intros Hs. unfold bufio.WriteString.
  destruct (WriteString_loop_sound (length s + 2) s 0 b h Hs)
    as (s' & o & b1 & h1 & EL & Ha & Es & Hl).
  { destruct (bufio.Available b =? 0); lia. }
  rewrite EL.
  destruct (finish_sound s' (0 + length o) b1 h1 (proj1 Ha) Hl)
    as (b' & EF & Ha').
  rewrite EF. exists b', h1. subst s. rewrite length_app. split; [done|].
  eapply appends_trans; eauto.
Qed.

Lemma direct_write_sound p b h :
  sound b h -> bufio.Buffered b = 0 ->
  exists d, io_Write (h (bufio.wr b)) p = (d, (length p, None)) /\
    appends p b h (bufio.mkWriter None (bufio.buf b) (bufio.size b) (bufio.wr b))
            (<[bufio.wr b := d]> h).
Proof.
  intros (He & Hl & Hz & Hs) Hb. rewrite io_Write_accepting by done.
  eexists. split; [done|]. unfold bufio.Buffered in Hb.
  apply nil_length_inv in Hb.
  unfold appends, sound, stream_of. simpl. rewrite !fn_lookup_insert, Hb.
  simpl. rewrite !app_nil_r. repeat split; auto with lia.
  intros l Hne. by rewrite fn_lookup_insert_ne.
Qed.

Lemma Write_loop_sound fuel : forall p nn b h,
  sound b h ->
  length p + (if bufio.Available b =? 0 then 1 else 0) < fuel ->
  exists p' o b' h',
    bufio.Write_loop fuel p nn b h = (p', nn + length o, b', h') /\
    appends o b h b' h' /\ p = o ++ p' /\ length p' <= bufio.Available b'.
Proof.
  induction fuel as [|fuel IH]; intros p nn b h Hs Hf; [lia|].
  simpl. rewrite (sound_no_err _ _ Hs), andb_true_r.
  destruct (bufio.Available b <? length p) eqn:E.
  - apply Nat.ltb_lt in E.
    assert (Hz : 0 < bufio.size b) by apply Hs.
    destruct (Nat.eqb_spec (bufio.Buffered b) 0) as [Hb|Hb].
    + destruct (direct_write_sound p b h Hs Hb) as (d & EW & Ha).
      rewrite EW. set (b1 := bufio.mkWriter _ _ _ _) in *.
      assert (Hav : bufio.Available b1 = bufio.size b).
      { unfold bufio.Available, bufio.Buffered in *. simpl. lia. }
      destruct (IH (drop (length p) p) (nn + length p) b1 (<[bufio.wr b := d]> h))
        as (p' & o & b' & h' & EL & Ha' & Es & Hl).
      { apply Ha. }
      { rewrite Hav, length_drop.
        destruct (Nat.eqb_spec (bufio.size b) 0); [lia|].
        unfold bufio.Available, bufio.Buffered in *. lia. }
      exists p', (p ++ o), b', h'. rewrite EL, length_app.
      split; [do 3 f_equal; lia|]. split; [|split; [|done]].
      * eapply appends_trans; eauto.
      * rewrite <- app_assoc, <- Es. by rewrite drop_all, app_nil_r.
    + destruct (fill_flush_sound p b h Hs E) as (b1 & h1 & EF & Ha & Hb1).
      rewrite EF.
      assert (Hav : bufio.Available b1 = bufio.size b).
      { unfold bufio.Available. rewrite Hb1. simpl.
        destruct Ha as (_ & _ & -> & _). lia. }
      destruct (IH (drop (bufio.Available b) p) (nn + bufio.Available b) b1 h1)
        as (p' & o & b' & h' & EL & Ha' & Es & Hl).
      { apply Ha. }
      { rewrite Hav, length_drop.
        destruct (Nat.eqb_spec (bufio.size b) 0); [lia|].
        destruct (Nat.eqb_spec (bufio.Available b) 0); lia. }
      exists p', (take (bufio.Available b) p ++ o), b', h'.
      rewrite EL, length_app, length_take, Nat.min_l by lia.
      split; [do 3 f_equal; lia|]. split; [|split; [|done]].
      * eapply appends_trans; eauto.
      * by rewrite <- app_assoc, <- Es, take_drop.
  - apply Nat.ltb_ge in E. exists p, [], b, h. simpl.
    rewrite Nat.add_0_r. auto using appends_refl.
Qed.

Lemma Write_sound p b h :
  sound b h ->
  exists b' h', bufio.Write p b h = ((length p, None), b', h') /\
                appends p b h b' h'.
Proof.
  intros Hs. unfold bufio.Write.
  destruct (Write_loop_sound (length p + 2) p 0 b h Hs)
    as (p' & o & b1 & h1 & EL & Ha & Es & Hl).
  { destruct (bufio.Available b =? 0); lia. }
  rewrite EL.
  destruct (finish_sound p' (0 + length o) b1 h1 (proj1 Ha) Hl)
    as (b' & EF & Ha').
  rewrite EF. exists b', h1. subst p. rewrite length_app. split; [done|].
  eapply appends_trans; eauto.
Qed.

Lemma WriteByte_sound c b h :
  sound b h ->
  exists b' h', bufio.WriteByte c b h = (None, b', h') /\
                appends [c] b h b' h'.
Proof.
  intros Hs. unfold bufio.WriteByte.
  assert (Hpush : forall b0 h0, sound b0 h0 -> 0 < bufio.Available b0 ->
    appends [c] b0 h0
      (bufio.mkWriter (bufio.err b0) (bufio.buf b0 ++ [c]) (bufio.size b0)
                      (bufio.wr b0)) h0).
  { intros b0 h0 (He & Hl & Hz & Hsc) Hav.
    unfold appends, sound, stream_of, bufio.Available in *. simpl.
    rewrite length_app. simpl. repeat split; auto with lia.
    by rewrite app_assoc. }
  destruct Hs as (He & Hs). rewrite He.
  assert (Hs' : sound b h) by by split.
  destruct (Nat.leb_spec (bufio.Available b) 0) as [Hav|Hav].
  - destruct (Flush_sound b h Hs') as (b1 & h1 & EF & Ha & Hb).
    rewrite EF. eexists _, _. split; [done|].
    rewrite <- (app_nil_l [c]). eapply appends_trans; [exact Ha|].
    apply Hpush; [apply Ha|]. unfold bufio.Available. rewrite Hb. simpl.
    destruct Ha as ((_ & _ & Hz & _) & _). lia.
  - eexists _, _. split; [done|].
    specialize (Hpush b h Hs' Hav). by rewrite He in Hpush.
Qed.

(** ** The loops of [bufio] terminate

    Whatever the destination does, the loops of [WriteString] and [Write]
    leave by their own condition, not for lack of fuel: each round either
    records an error or empties the buffer and consumes part of the input. *)
Lemma Flush_outcome b h e b' h' :
  bufio.Flush b h = (e, b', h') ->
  bufio.size b' = bufio.size b /\ (bufio.err b' = None -> bufio.buf b' = []).
Proof.
  unfold bufio.Flush. destruct (bufio.err b) as [x|] eqn:He.
  { intros [= <- <- <-]. split; [done|congruence]. }
  destruct (Nat.eqb_spec (bufio.Buffered b) 0) as [Hb|Hb].
  { intros [= <- <- <-]. split; [done|]. intros _.
    by apply nil_length_inv. }
  destruct (io_Write (h (bufio.wr b)) (bufio.buf b)) as [d [n [x|]]].
  - by intros [= <- <- <-].
  - by destruct (n <? bufio.Buffered b); intros [= <- <- <-].
Qed.

Lemma fill_flush_outcome s b h n b' h' :
  bufio.fill_flush s b h = (n, b', h') ->
  n = min (bufio.Available b) (length s) /\
  bufio.size b' = bufio.size b /\ (bufio.err b' = None -> bufio.buf b' = []).
Proof.
  unfold bufio.fill_flush, bufio.copy_in.
  destruct (bufio.Flush _ h) as [[e b2] h2] eqn:EF.
  intros [= <- <- <-]. by destruct (Flush_outcome _ _ _ _ _ EF).
Qed.

Lemma io_Write_contract d p d' n :
  io_Write d p = (d', (n, None)) -> n = length p.
Proof.
  unfold io_Write. destruct (script d) as [|[[k e]|] rest]; congruence.
Qed.

Lemma next_round_measure s b b' n fuel :
  0 < bufio.size b -> bufio.Available b < length s ->
  n = min (bufio.Available b) (length s) ->
  bufio.size b' = bufio.size b -> bufio.buf b' = [] ->
  loop_measure s b < S fuel -> loop_measure (drop n s) b' < fuel.
Proof.
  unfold loop_measure, bufio.Available. intros Hz Hlt -> Hsz Hb.
  rewrite Hb, Hsz, length_drop. simpl.
  destruct (Nat.eqb_spec (bufio.size b - 0) 0); [lia|].
  destruct (Nat.eqb_spec (bufio.size b - length (bufio.buf b)) 0); lia.
Qed.

Lemma WriteString_loop_err fuel s nn b h :
  bufio.no_err b = false -> bufio.WriteString_loop fuel s nn b h = (s, nn, b, h).
Proof. intros H. destruct fuel; simpl; by rewrite ?H, ?andb_false_r. Qed.

Lemma Write_loop_err fuel p nn b h :
  bufio.no_err b = false -> bufio.Write_loop fuel p nn b h = (p, nn, b, h).
Proof. intros H. destruct fuel; simpl; by rewrite ?H, ?andb_false_r. Qed.

Lemma Write_loop_nil fuel nn b h :
  bufio.Write_loop fuel [] nn b h = ([], nn, b, h).
Proof. by destruct fuel. Qed.

Lemma WriteString_loop_exits fuel : forall s nn b h,
  0 < bufio.size b -> loop_measure s b < fuel ->
  loop_goes_on (bufio.WriteString_loop fuel s nn b h).1.1.1
               (bufio.WriteString_loop fuel s nn b h).1.2 = false.
Proof.
  induction fuel as [|fuel IH]; intros s nn b h Hz Hm; [lia|].
  simpl. fold (loop_goes_on s b).
  destruct (loop_goes_on s b) eqn:Hg; [|done].
  unfold loop_goes_on in Hg. apply andb_true_iff in Hg as [Hlt _].
  apply Nat.ltb_lt in Hlt.
  destruct (bufio.fill_flush s b h) as [[n b'] h'] eqn:EF.
  destruct (fill_flush_outcome _ _ _ _ _ _ EF) as (Hn & Hsz & Hb).
  destruct (bufio.no_err b') eqn:He.
  - apply IH; [lia|]. eapply next_round_measure; eauto.
    apply Hb. unfold bufio.no_err in He. by destruct (bufio.err b').
  - rewrite WriteString_loop_err by done. simpl. unfold loop_goes_on.
    by rewrite He, andb_false_r.
Qed.

Lemma Write_loop_exits fuel : forall p nn b h,
  0 < bufio.size b -> loop_measure p b < fuel ->
  loop_goes_on (bufio.Write_loop fuel p nn b h).1.1.1
               (bufio.Write_loop fuel p nn b h).1.2 = false.
Proof.
  induction fuel as [|fuel IH]; intros p nn b h Hz Hm; [lia|].
  simpl. fold (loop_goes_on p b).
  destruct (loop_goes_on p b) eqn:Hg; [|done].
  unfold loop_goes_on in Hg. apply andb_true_iff in Hg as [Hlt _].
  apply Nat.ltb_lt in Hlt.
  destruct (bufio.Buffered b =? 0).
  - destruct (io_Write (h (bufio.wr b)) p) as [d [n [x|]]] eqn:EW.
    + rewrite Write_loop_err by done. unfold loop_goes_on. simpl.
      by rewrite andb_false_r.
    + apply io_Write_contract in EW. subst n.
      by rewrite drop_all, Write_loop_nil.
  - destruct (bufio.fill_flush p b h) as [[n b'] h'] eqn:EF.
    destruct (fill_flush_outcome _ _ _ _ _ _ EF) as (Hn & Hsz & Hb).
    destruct (bufio.no_err b') eqn:He.
    + apply IH; [lia|]. eapply next_round_measure; eauto.
      apply Hb. unfold bufio.no_err in He. by destruct (bufio.err b').
    + rewrite Write_loop_err by done. simpl. unfold loop_goes_on.
      by rewrite He, andb_false_r.
Qed.

(** The fuel given by [WriteString] and [Write] is enough. *)
Lemma loop_measure_fuel s b : loop_measure s b < length s + 2.
Proof. unfold loop_measure. destruct (bufio.Available b =? 0); lia. Qed.

(** ** Facts on UTF-8 decoding: bytes below 0x80 are their own rune; every
    other rune, and every byte stepped over, is at least 0x80. *)
Section utf8_facts.
Local Open Scope Z_scope.

Lemma lor_lower_l k a b :
  0 <= k -> 0 <= a -> 0 <= b -> 2 ^ k <= a -> 2 ^ k <= Z.lor a b.
Proof.
  intros Hk Ha Hb Hka.
  assert (Hpos : 0 < 2 ^ k) by (apply Z.pow_pos_nonneg; lia).
  assert (Hl : k <= Z.log2 (Z.lor a b)).
  { rewrite Z.log2_lor by done. apply Z.log2_le_pow2 in Hka; lia. }
  assert (Hn : 0 <= Z.lor a b) by (apply Z.lor_nonneg; lia).
  destruct (Z.eq_dec (Z.lor a b) 0) as [E0|E0].
  { apply Z.lor_eq_0_iff in E0. lia. }
  apply Z.log2_le_pow2; lia.
Qed.

Lemma lor_lower_r k a b :
  0 <= k -> 0 <= a -> 0 <= b -> 2 ^ k <= b -> 2 ^ k <= Z.lor a b.
Proof. intros. rewrite Z.lor_comm. by apply lor_lower_l. Qed.

Lemma byteZ_range c : 0 <= byteZ c < 256.
Proof.
  unfold byteZ. pose proof (N_ascii_bounded c) as H.
  split; [apply N2Z.is_nonneg|]. change 256 with (Z.of_N 256). lia.
Qed.

Lemma land_mask n a : 0 <= n -> Z.land a (2 ^ n - 1) = a mod 2 ^ n.
Proof.
  intros Hn. rewrite <- Z.land_ones by done. f_equal.
  rewrite Z.ones_equiv. lia.
Qed.

Lemma utf8_first_spec s0 sz lo hi :
  utf8_first s0 = Some (sz, lo, hi) ->
  0x80 <= lo /\ hi <= 0xBF /\
  ((sz = 2%nat /\ 0xC2 <= s0 <= 0xDF) \/
   (sz = 3%nat /\ ((s0 = 0xE0 /\ lo = 0xA0) \/ 0xE1 <= s0 <= 0xEF)) \/
   (sz = 4%nat /\ ((s0 = 0xF0 /\ lo = 0x90) \/ 0xF1 <= s0 <= 0xF4))).
Proof.
  unfold utf8_first, in_range.
  repeat match goal with
  | |- context [if ?c then _ else _] => destruct c eqn:?
  end; intros [= <- <- <-]; split; try lia; split; try lia;
  repeat match goal with
  | H : (_ && _) = true |- _ => apply andb_true_iff in H; destruct H
  | H : (_ <=? _) = true |- _ => apply Z.leb_le in H
  | H : (_ =? _) = true |- _ => apply Z.eqb_eq in H
  end; lia.
Qed.

Lemma cont_bits_range s : 0 <= cont_bits s < 64.
Proof.
  unfold cont_bits. change 0x3F with (2 ^ 6 - 1). rewrite land_mask by lia.
  apply Z.mod_pos_bound. lia.
Qed.

Lemma lead_bits n k s :
  0 <= n -> 0 <= k -> 0 <= Z.shiftl (Z.land s (2 ^ n - 1)) k /\
  Z.shiftl (Z.land s (2 ^ n - 1)) k = (s mod 2 ^ n) * 2 ^ k.
Proof.
  intros Hn Hk. rewrite land_mask, Z.shiftl_mul_pow2 by lia. split; [|done].
  apply Z.mul_nonneg_nonneg; [|apply Z.pow_nonneg; lia].
  apply Z.mod_pos_bound, Z.pow_pos_nonneg; lia.
Qed.

Lemma cont_shift k s :
  0 <= k -> 0 <= Z.shiftl (cont_bits s) k /\
  Z.shiftl (cont_bits s) k = (s mod 64) * 2 ^ k.
Proof. intros. unfold cont_bits. by apply (lead_bits 6 k s). Qed.

Lemma DecodeRune_low c0 t :
  byteZ c0 < 0x80 -> DecodeRuneInString (c0 :: t) = (byteZ c0, 1%nat).
Proof.
  intros H. unfold DecodeRuneInString.
  by destruct (Z.ltb_spec (byteZ c0) 0x80); [|lia].
Qed.

Lemma stepped_over_error t : stepped_over t RuneError 1.
Proof. split; [unfold RuneError; lia|]. by exists [], t. Qed.

Lemma DecodeRune_high c0 t v w :
  0x80 <= byteZ c0 -> DecodeRuneInString (c0 :: t) = (v, w) ->
  stepped_over t v w.
Proof.
  intros H0. unfold DecodeRuneInString.
  destruct (Z.ltb_spec (byteZ c0) 0x80); [lia|].
  destruct (utf8_first (byteZ c0)) as [[[sz lo] hi]|] eqn:F;
    [|intros [= <- <-]; apply stepped_over_error].
  apply utf8_first_spec in F. destruct F as (Hlo & Hhi & F).
  destruct t as [|c1 t1]; [intros [= <- <-]; apply stepped_over_error|].
  destruct (in_range lo hi (byteZ c1)) eqn:R1; simpl;
    [|intros [= <- <-]; apply stepped_over_error].
  unfold in_range in R1. apply andb_true_iff in R1. destruct R1 as [R1 R1'].
  apply Z.leb_le in R1, R1'.
  pose proof (cont_bits_range (byteZ c1)) as C1.
  destruct (lead_bits 5 6 (byteZ c0)) as [N2 E2]; [lia..|].
  destruct (lead_bits 4 12 (byteZ c0)) as [N3 E3]; [lia..|].
  destruct (lead_bits 3 18 (byteZ c0)) as [N4 E4]; [lia..|].
  destruct (cont_shift 6 (byteZ c1)) as [M6 F6]; [lia|].
  destruct (cont_shift 12 (byteZ c1)) as [M12 F12]; [lia|].
  change (2 ^ 5 - 1) with 0x1F in *. change (2 ^ 4 - 1) with 0x0F in *.
  change (2 ^ 3 - 1) with 0x07 in *.
  destruct (Nat.eqb_spec sz 2) as [->|Hsz2].
  { intros [= <- <-]. split.
    - apply (lor_lower_l 7); [lia..|]. rewrite E2.
      destruct F as [[_ F]|[[? _]|[? _]]]; [|lia..].
      Z.div_mod_to_equations. lia.
    - exists [c1], t1. split; [done|split; [done|]].
      repeat constructor; lia. }
  destruct t1 as [|c2 t2]; [intros [= <- <-]; apply stepped_over_error|].
  destruct (in_range 0x80 0xBF (byteZ c2)) eqn:R2; simpl;
    [|intros [= <- <-]; apply stepped_over_error].
  unfold in_range in R2. apply andb_true_iff in R2. destruct R2 as [R2 R2'].
  apply Z.leb_le in R2, R2'.
  pose proof (cont_bits_range (byteZ c2)) as C2.
  destruct (cont_shift 6 (byteZ c2)) as [K6 G6]; [lia|].
  destruct (Nat.eqb_spec sz 3) as [->|Hsz3].
  { intros [= <- <-]. split.
    - apply (lor_lower_l 7); [lia| |lia|].
      { apply Z.lor_nonneg. lia. }
      destruct F as [[? _]|[[_ [[F ->]|F]]|[? _]]]; [lia| | |lia].
      + apply (lor_lower_r 7); [lia..|]. rewrite F6.
        Z.div_mod_to_equations. lia.
      + apply (lor_lower_l 7); [lia..|]. rewrite E3.
        Z.div_mod_to_equations. lia.
    - exists [c1; c2], t2. split; [done|split; [done|]].
      repeat constructor; lia. }
  destruct t2 as [|c3 t3]; [intros [= <- <-]; apply stepped_over_error|].
  destruct (in_range 0x80 0xBF (byteZ c3)) eqn:R3; simpl;
    [|intros [= <- <-]; apply stepped_over_error].
  unfold in_range in R3. apply andb_true_iff in R3. destruct R3 as [R3 R3'].
  apply Z.leb_le in R3, R3'.
  pose proof (cont_bits_range (byteZ c3)) as C3.
  intros [= <- <-]. split.
  - apply (lor_lower_l 7); [lia| |lia|].
    { repeat (apply Z.lor_nonneg; split); lia. }
    apply (lor_lower_l 7); [lia| |lia|].
    { apply Z.lor_nonneg. lia. }
    destruct F as [[? _]|[[? _]|[_ [[F ->]|F]]]]; [lia..| |].
    + apply (lor_lower_r 7); [lia..|]. rewrite F12.
      Z.div_mod_to_equations. lia.
    + apply (lor_lower_l 7); [lia..|]. rewrite E4.
      Z.div_mod_to_equations. lia.
  - exists [c1; c2; c3], t3. split; [done|split; [done|]].
      repeat constructor; lia.
Qed.

End utf8_facts.

(** ** Slices, verbs and escapes *)
Lemma byteZ_inj a b : byteZ a = byteZ b -> a = b.
Proof.
  unfold byteZ. intros H. apply N2Z.inj in H.
  rewrite <- (ascii_N_embedding a), <- (ascii_N_embedding b). by rewrite H.
Qed.

Lemma is_verb_high v : (0x80 <= v)%Z -> is_verb v = false.
Proof.
  intros H. destruct (is_verb v) eqn:E; [|done].
  apply existsb_exists in E. destruct E as (k & Hin & Hk).
  apply Z.eqb_eq in Hk. subst k. vm_compute in Hin.
  repeat (destruct Hin as [<-|Hin]; [lia|]). done.
Qed.

Lemma is_verb_not_escape c : is_verb (byteZ c) = true -> ESCAPE <> c.
Proof. intros H <-. by vm_compute in H. Qed.

Lemma slice_middle (pre mid rest : gostring) :
  slice (pre ++ mid ++ rest) (length pre) (length (pre ++ mid)) = mid.
Proof.
  unfold slice. rewrite drop_app_length, length_app.
  replace (length pre + length mid - length pre) with (length mid) by lia.
  by rewrite take_app_length.
Qed.

Lemma slice_from_app (pre rest : gostring) :
  slice_from (pre ++ rest) (length pre) = rest.
Proof. unfold slice_from. by rewrite drop_app_length. Qed.

Lemma drop_lookup_nil {A} (l : list A) n : drop n l = [] -> l !! n = None.
Proof.
  intros H. apply lookup_ge_None. apply (f_equal length) in H.
  rewrite length_drop in H. simpl in H. lia.
Qed.

Lemma drop_lookup_cons {A} (l t : list A) n a :
  drop n l = a :: t -> l !! n = Some a /\ drop (n + 1) l = t.
Proof.
  intros H. split.
  - pose proof (lookup_drop l n 0) as E. rewrite H, Nat.add_0_r in E. done.
  - pose proof (drop_drop l 1 n) as E. rewrite H in E. simpl in E.
    by rewrite ?drop_0 in E.
Qed.

Lemma esc_out_app e s t :
  esc_out e (s ++ t) = esc_out e s ++ esc_out (esc_flag e s) t.
Proof.
  revert e. induction s as [|c s IH]; intros e; [done|]. simpl.
  destruct (bool_decide (ESCAPE = c)); rewrite IH; [|done].
  by rewrite app_assoc.
Qed.

Lemma esc_flag_app e s t : esc_flag e (s ++ t) = esc_flag (esc_flag e s) t.
Proof. revert e. induction s as [|c s IH]; intros e; [done|]. apply IH. Qed.

Lemma esc_out_count e s :
  esc_out e s =
  replicate ((length (filter (eq ESCAPE) s) + (if e then 1 else 0)) / 2) ESCAPE.
Proof.
  revert e. induction s as [|c s IH]; intros e.
  - by destruct e.
  - rewrite filter_cons. cbn [esc_out].
    destruct (bool_decide_reflect (ESCAPE = c)) as [Hc|Hc].
    + rewrite decide_True by done.
      rewrite IH.
      destruct e; cbn -[Nat.div]; set (k := length (filter (eq ESCAPE) s)).
      * replace (S (k + 1)) with (k + 1 * 2) by lia.
        rewrite Nat.div_add, Nat.add_0_r, Nat.add_1_r by lia. done.
      * do 2 f_equal. lia.
    + rewrite decide_False by done. apply IH.
Qed.

Lemma escapes_esc_out text : escapes text = esc_out false text.
Proof. unfold escapes. by rewrite esc_out_count, Nat.add_0_r. Qed.





Lemma holes_Lit r toks : holes (Lit r :: toks) = holes toks.
Proof. done. Qed.

Lemma holes_Hole t toks : holes (Hole t :: toks) = S (holes toks).
Proof. done. Qed.

Lemma holes_Dangling t toks : holes (Dangling t :: toks) = holes toks.
Proof. done. Qed.

(** ** The methods of [BLog] *)
Section Facts.

Context {Level : Type} (DEBUG : Level) (Prefix : Level -> gostring).
Context (timeCache_format : gostring) (DefaultBufferSize : Z).
Context {Value : Type} (Sprintf : gostring -> Value -> gostring).

Local Abbreviation world := (@world Level).
Local Abbreviation M := (@M Level).
Local Abbreviation write := (write Prefix timeCache_format).
Local Abbreviation writef := (writef Prefix timeCache_format Sprintf).
Local Abbreviation writef_iter := (writef_iter (Level:=Level) Sprintf).
Local Abbreviation emitted := (emitted Sprintf).
Local Abbreviation render := (render Sprintf).
Local Abbreviation rendered := (rendered Sprintf).
Local Abbreviation rendered_escaped := (rendered_escaped Sprintf).
Local Abbreviation do_call := (do_call Prefix timeCache_format Sprintf).
Local Abbreviation do_calls := (do_calls Prefix timeCache_format Sprintf).
Local Abbreviation line := (line Prefix timeCache_format Sprintf).
Local Abbreviation lines := (lines Prefix timeCache_format Sprintf).
Local Abbreviation NewBLog := (NewBLog DEBUG DefaultBufferSize).
Local Abbreviation run_op := (run_op Prefix timeCache_format Sprintf).
Local Abbreviation run_ops := (run_ops Prefix timeCache_format Sprintf).

Implicit Types (w : world) (b : bufio.Writer) (x : Vars.t).

(** *** The monad *)
Lemma bind_Returns {A B} (m : M A) (k : A -> M B) w a w' :
  m w = Returns a w' -> (m ≫= k) w = k a w'.
Proof. intros H. unfold mbind, M_bind. by rewrite H. Qed.

Lemma bind_Panics {A B} (m : M A) (k : A -> M B) w p w' :
  m w = Panics p w' -> (m ≫= k) w = Panics p w'.
Proof. intros H. unfold mbind, M_bind. by rewrite H. Qed.

Lemma bind_Blocks {A B} (m : M A) (k : A -> M B) w w' :
  m w = Blocks w' -> (m ≫= k) w = Blocks w'.
Proof. intros H. unfold mbind, M_bind. by rewrite H. Qed.

(** A method body between [Lock] and the deferred [Unlock]. *)
Lemma locked_run {A} (rest : M A) w :
  lock (blog w) = false ->
  (Lock ≫= fun _ => defer Unlock rest) w =
  match rest (mkWorld (dests w) (set_lock true (blog w))) with
  | Returns a w' => Returns a (mkWorld (dests w') (set_lock false (blog w')))
  | Panics p w' => Panics p (mkWorld (dests w') (set_lock false (blog w')))
  | Blocks w' => Blocks w'
  end.
Proof.
  intros H. unfold mbind at 1. unfold M_bind at 1. unfold Lock at 1.
  rewrite H. unfold defer. by destruct (rest _).
Qed.

Lemma locked_held {A} (rest : M A) w :
  lock (blog w) = true -> (Lock ≫= fun _ => defer Unlock rest) w = Blocks w.
Proof. intros H. unfold mbind, M_bind, Lock. by rewrite H. Qed.

Lemma foldM_cons {A B} (f : A -> B -> M A) a (e : B) l w :
  foldM f a (e :: l) w = (f a e ≫= fun a' => foldM f a' l) w.
Proof. done. Qed.

Lemma foldM_app {A B} (f : A -> B -> M A) l1 : forall a l2 w,
  foldM f a (l1 ++ l2) w = (foldM f a l1 ≫= fun a' => foldM f a' l2) w.
Proof.
  induction l1 as [|e l1 IH]; intros a l2 w; [done|].
  simpl. unfold mbind, M_bind.
  destruct (f a e w) as [a' w'|p w'|w']; [|done..]. apply IH.
Qed.

(** *** The buffered stream *)
Lemma extends_refl w : ready w -> extends [] w w.
Proof.
  intros (b & Hb & Hs). exists b, b. repeat split; auto; try apply Hs.
  unfold stream_of. by rewrite app_nil_r.
Qed.

Lemma extends_trans o1 o2 w w1 w2 :
  extends o1 w w1 -> extends o2 w1 w2 -> extends (o1 ++ o2) w w2.
Proof.
  intros (b & b1 & Hb & Hb1 & Ha & Hl & Hi) (b1' & b2 & Hb1' & Hb2 & Ha' & Hl' & Hi').
  assert (b1' = b1) as -> by congruence.
  exists b, b2. split; [done|]. split; [done|].
  split; [by eapply appends_trans|]. split; congruence.
Qed.

Lemma extends_ready o w w' : extends o w w' -> ready w'.
Proof. intros (b & b' & _ & Hb' & Ha & _). exists b'. split; [done|apply Ha]. Qed.

Lemma extends_ready_l o w w' : extends o w w' -> ready w -> ready w'.
Proof. intros H _. by eapply extends_ready. Qed.

Lemma extends_stream o w w' : extends o w w' -> stream w' = stream w ++ o.
Proof.
  intros (b & b' & Hb & Hb' & Ha & _). unfold stream. rewrite Hb, Hb'.
  apply Ha.
Qed.

Lemma extends_bound o w w' : extends o w w' -> bound w' = bound w.
Proof.
  intros (b & b' & Hb & Hb' & Ha & _). unfold bound. rewrite Hb, Hb'.
  simpl. f_equal. apply Ha.
Qed.

Lemma extends_capacity o w w' : extends o w w' -> capacity w' = capacity w.
Proof.
  intros (b & b' & Hb & Hb' & Ha & _). unfold capacity. rewrite Hb, Hb'.
  simpl. f_equal. apply Ha.
Qed.

Lemma extends_frame o w w' l :
  extends o w w' -> bound w <> Some l -> dests w' l = dests w l.
Proof.
  intros (b & b' & Hb & Hb' & Ha & _) Hl. unfold bound in Hl.
  rewrite Hb in Hl. simpl in Hl. apply Ha. congruence.
Qed.

Lemma on_writer_sound {A} (m : bufio.Writer -> store -> A * bufio.Writer * store)
    (r : A) (out : gostring) w :
  ready w ->
  (forall b h, sound b h ->
     exists b' h', m b h = (r, b', h') /\ appends out b h b' h') ->
  exists w', on_writer m w = Returns r w' /\ extends out w w'.
Proof.
  intros (b & Hb & Hs) Hm. destruct (Hm b _ Hs) as (b' & h' & Em & Ha).
  unfold on_writer. rewrite Hb, Em. eexists. split; [reflexivity|].
  exists b, b'. simpl. auto.
Qed.

Lemma on_WriteString s w :
  ready w ->
  exists w', on_writer (bufio.WriteString s) w = Returns (length s, None) w' /\
             extends s w w'.
Proof. intros H. apply on_writer_sound; auto using WriteString_sound. Qed.

Lemma on_Write p w :
  ready w ->
  exists w', on_writer (bufio.Write p) w = Returns (length p, None) w' /\
             extends p w w'.
Proof. intros H. apply on_writer_sound; auto using Write_sound. Qed.

Lemma on_WriteByte c w :
  ready w ->
  exists w', on_writer (bufio.WriteByte c) w = Returns None w' /\
             extends [c] w w'.
Proof. intros H. apply on_writer_sound; auto using WriteByte_sound. Qed.

(** *** One iteration of the loop of [writef], case by case *)
Lemma iter_literal format args x i v c w :
  Vars.tag x = false -> format !! i = Some c ->
  PLACEHOLDER <> c \/ Vars.escape x = true ->
  writef_iter format args x (i, v) w = Returns x w.
Proof.
  destruct x as [tag tagPos escape n last s size]. simpl.
  intros -> Hc Hne. unfold writef_iter. rewrite Hc.
  destruct Hne as [Hne| ->]; [|by rewrite andb_false_r].
  by rewrite bool_decide_eq_false_2.
Qed.

Lemma iter_open format args x i v w :
  Vars.tag x = false -> Vars.escape x = false ->
  format !! i = Some PLACEHOLDER -> ready w ->
  exists w',
    writef_iter format args x (i, v) w =
      Returns (Vars.mk true i false (Vars.n x) (Vars.last x)
                 (len (slice format (Vars.last x) i))
                 (int_add (Vars.size x) (len (slice format (Vars.last x) i))))
              w' /\
    extends (slice format (Vars.last x) i) w w'.
Proof.
  destruct x as [tag tagPos escape n last s size]. simpl.
  intros -> -> Hc H. unfold writef_iter. rewrite Hc.
  rewrite bool_decide_eq_true_2 by done. simpl.
  destruct (on_WriteString (slice format last i) w H) as (w' & E & X).
  exists w'. by rewrite (bind_Returns _ _ _ _ _ E).
Qed.

Lemma iter_verb format args x i v a w :
  Vars.tag x = true -> is_verb v = true -> args !! Vars.n x = Some a ->
  ready w ->
  exists w',
    writef_iter format args x (i, v) w =
      Returns (Vars.mk false (Vars.tagPos x) false (Vars.n x + 1) (i + 1)
                 (len (Sprintf (slice format (Vars.tagPos x) (i + 1)) a))
                 (int_add (Vars.size x)
                    (len (Sprintf (slice format (Vars.tagPos x) (i + 1)) a))))
              w' /\
    extends (Sprintf (slice format (Vars.tagPos x) (i + 1)) a) w w'.
Proof.
  destruct x as [tag tagPos escape n last s size]. simpl.
  intros -> Hv Ha H. unfold writef_iter. rewrite Hv, Ha.
  destruct (on_WriteString (Sprintf (slice format tagPos (i + 1)) a) w H)
    as (w' & E & X).
  exists w'. rewrite (bind_Returns _ _ _ _ _ E). by destruct escape.
Qed.

Lemma iter_verb_fault format args x i v w :
  Vars.tag x = true -> is_verb v = true -> args !! Vars.n x = None ->
  writef_iter format args x (i, v) w = Panics IndexOutOfRange w.
Proof.
  destruct x as [tag tagPos escape n last s size]. simpl.
  intros -> Hv Ha. unfold writef_iter. by rewrite Hv, Ha.
Qed.

Lemma iter_escape format args x i w :
  Vars.tag x = true -> ready w ->
  exists w',
    writef_iter format args x (i, byteZ ESCAPE) w =
      Returns (Vars.mk true (Vars.tagPos x) (negb (Vars.escape x)) (Vars.n x)
                 (Vars.last x) (Vars.s x)
                 (if Vars.escape x then int_add (Vars.size x) 1
                  else Vars.size x))
              w' /\
    extends (if Vars.escape x then [ESCAPE] else []) w w'.
Proof.
  destruct x as [tag tagPos escape n last s size]. simpl.
  intros -> H. unfold writef_iter.
  change (is_verb (byteZ ESCAPE)) with false.
  destruct escape.
  - destruct (on_WriteByte ESCAPE w H) as (w' & E & X). exists w'.
    unfold mbind at 1. unfold M_bind at 1. unfold mbind at 1.
    unfold M_bind at 1. by rewrite E.
  - exists w. split; [done|]. by apply extends_refl.
Qed.

Lemma iter_other format args x i v w :
  Vars.tag x = true -> is_verb v = false -> v <> byteZ ESCAPE ->
  writef_iter format args x (i, v) w = Returns x w.
Proof.
  destruct x as [tag tagPos escape n last s size]. simpl.
  intros -> Hv He. unfold writef_iter. rewrite Hv.
  by destruct (Z.eqb_spec v (byteZ ESCAPE)).
Qed.

Lemma iter_inert format args x i v c w :
  format !! i = Some c -> (0x80 <= byteZ c)%Z -> (0x80 <= v)%Z ->
  writef_iter format args x (i, v) w = Returns x w.
Proof.
  intros Hc Hb Hv. destruct (Vars.tag x) eqn:Ht.
  - apply iter_other; auto using is_verb_high.
    change (byteZ ESCAPE) with 92%Z. lia.
  - eapply iter_literal; eauto. left. intros <-.
    change (byteZ PLACEHOLDER) with 37%Z in Hb. lia.
Qed.

(** *** [range] visits, to the effect of the loop, every byte *)
Lemma range_positions format args : forall rest skip pre x w,
  format = pre ++ rest ->
  (exists skipped rest', rest = skipped ++ rest' /\ length skipped = skip /\
     Forall (fun c => (0x80 <= byteZ c)%Z) skipped) ->
  foldM (writef_iter format args) x (range_from skip (length pre) rest) w =
  foldM (writef_iter format args) x (positions (length pre) rest) w.
Proof.
  induction rest as [|c t IH]; intros skip pre x w Hf (sk & r' & Hr & Hl & Hall).
  { by destruct skip. }
  assert (Hc : format !! length pre = Some c).
  { subst format. by apply list_lookup_middle. }
  assert (Hf' : format = (pre ++ [c]) ++ t).
  { subst format. by rewrite <- app_assoc. }
  assert (Hlen : S (length pre) = length (pre ++ [c])).
  { rewrite length_app. simpl. lia. }
  cbn [positions]. rewrite foldM_cons.
  destruct skip as [|k].
  - cbn [range_from].
    destruct (DecodeRuneInString (c :: t)) as [v wd] eqn:D.
    rewrite foldM_cons.
    destruct (Z.ltb_spec (byteZ c) 0x80) as [Hlow|Hhigh].
    + rewrite DecodeRune_low in D by done. injection D as <- <-.
      unfold mbind, M_bind.
      destruct (writef_iter format args x (length pre, byteZ c) w); [|done..].
      rewrite Hlen. apply IH; [done|]. by exists [], t.
    + apply DecodeRune_high in D; [|done].
      destruct D as (Hv & sk' & r'' & -> & <- & Hall').
      rewrite (bind_Returns _ _ _ _ _
                 (iter_inert format args x _ v c w Hc Hhigh Hv)).
      rewrite (bind_Returns _ _ _ _ _
                 (iter_inert format args x _ _ c w Hc Hhigh Hhigh)).
      rewrite Hlen. replace (S (length sk') - 1) with (length sk') by lia.
      apply IH; [done|]. by exists sk', r''.
  - destruct sk as [|c' sk']; [simpl in Hl; lia|].
    apply Forall_cons in Hall as [Hc' Hall']. injection Hr as <- ->.
    cbn [range_from].
    rewrite (bind_Returns _ _ _ _ _ (iter_inert format args x _ _ c w Hc Hc' Hc')).
    rewrite Hlen. apply IH; [done|]. exists sk', r'. simpl in Hl.
    split; [done|]. split; [lia|done].
Qed.

(** *** The loop of [writef] against the tokens of the format *)
Lemma prepend_nil r : prepend [] r = r.
Proof. by destruct r. Qed.

Lemma scanned_step format pfx pfx1 p out1 r k k1 x x1 w w1 o :
  extends out1 w w1 ->
  int_wrap (Vars.size x1) = int_wrap (Vars.size x + len out1) ->
  Vars.n x1 + k1 = Vars.n x + k ->
  pfx ++ out1 = p ++ pfx1 ->
  scanned format pfx1 r k1 x1 w1 o ->
  scanned format pfx (prepend p r) k x w o.
Proof.
  intros X Hs Hn Hp. destruct r as [body|part]; simpl.
  - intros (x' & w' & out & -> & X' & Hb & Hs' & Hn').
    exists x', w', (out1 ++ out). split; [done|].
    split; [by eapply extends_trans|]. split; [|split; [|lia]].
    + rewrite <- Hb, <- !app_assoc, (app_assoc pfx out1), Hp.
      by rewrite <- !app_assoc.
    + rewrite Hs', len_app, Z.add_assoc. by apply int_wrap_eq_add.
  - intros (w' & out & -> & X' & Hb).
    exists w', (out1 ++ out). split; [done|].
    split; [by eapply extends_trans|].
    by rewrite <- Hb, (app_assoc pfx out1), Hp, <- !app_assoc.
Qed.

Lemma scan format args : forall rest,
  (forall pre0 run x w,
     format = pre0 ++ run ++ rest ->
     Vars.tag x = false -> Vars.escape x = false ->
     Vars.last x = length pre0 -> ready w ->
     scanned format []
       (emitted [] (tokenize_run run rest) (drop (Vars.n x) args))
       (holes (tokenize_run run rest)) x w
       (foldM (writef_iter format args) x
          (positions (length (pre0 ++ run)) rest) w)) /\
  (forall pre0 prev text x w,
     format = pre0 ++ prev ++ text ++ rest ->
     Vars.tag x = true -> Vars.tagPos x = length (pre0 ++ prev) ->
     Vars.last x = length pre0 -> Vars.escape x = esc_flag false text ->
     ready w ->
     scanned format (esc_out false text)
       (emitted prev (tokenize_hole text rest) (drop (Vars.n x) args))
       (holes (tokenize_hole text rest)) x w
       (foldM (writef_iter format args) x
          (positions (length (pre0 ++ prev ++ text)) rest) w)).
Proof.
  induction rest as [|c rest [IHrun IHhole]]; split.
  - intros pre0 run x w Hf Ht He Hl H. simpl.
    exists x, w, []. split; [done|]. split; [by apply extends_refl|].
    split; [|split; [|unfold holes; simpl; lia]].
    + rewrite Hl, Hf. simpl. by rewrite slice_from_app.
    + by rewrite Z.add_0_r.
  - intros pre0 prev text x w Hf Ht Hp Hl He H. simpl.
    exists x, w, []. split; [done|]. split; [by apply extends_refl|].
    split; [|split; [|unfold holes; simpl; lia]].
    + rewrite Hl, Hf. simpl. rewrite slice_from_app, escapes_esc_out.
      by rewrite <- !app_assoc, !app_nil_r.
    + by rewrite Z.add_0_r.
  - intros pre0 run x w Hf Ht He Hl H.
    assert (Hc : format !! length (pre0 ++ run) = Some c).
    { rewrite Hf, app_assoc. by apply list_lookup_middle. }
    cbn [tokenize_run positions]. rewrite foldM_cons.
    destruct (bool_decide_reflect (PLACEHOLDER = c)) as [<-|Hne].
    + destruct (iter_open format args x _ (byteZ PLACEHOLDER) w Ht He Hc H)
        as (w1 & E & X).
      rewrite (bind_Returns _ _ _ _ _ E). clear E.
      assert (Hs : slice format (Vars.last x) (length (pre0 ++ run)) = run).
      { rewrite Hl, Hf. apply slice_middle. }
      rewrite Hs in *. cbn [emitted]. rewrite holes_Lit.
      match goal with |- context [foldM _ ?y _ _] => set (x1 := y) end.
      eapply (scanned_step _ _ [] run run _ _ _ _ x1); [exact X| | | |].
      4:{ replace (S (length (pre0 ++ run)))
            with (length (pre0 ++ run ++ [PLACEHOLDER]))
            by (rewrite !length_app; simpl; lia).
          apply (IHhole pre0 run [PLACEHOLDER] x1 w1); simpl; auto.
          by eapply extends_ready. }
      * simpl. unfold int_add. by rewrite int_wrap_idem.
      * simpl. reflexivity.
      * by rewrite app_nil_r.
    + rewrite (bind_Returns _ _ _ _ _
                 (iter_literal format args x _ (byteZ c) c w Ht Hc (or_introl Hne))).
      replace (S (length (pre0 ++ run))) with (length (pre0 ++ run ++ [c]))
        by (rewrite !length_app; simpl; lia).
      apply IHrun; auto. by rewrite <- !app_assoc.
  - intros pre0 prev text x w Hf Ht Hp Hl He H.
    assert (Hc : format !! length (pre0 ++ prev ++ text) = Some c).
    { rewrite Hf, !app_assoc. apply list_lookup_middle.
      by rewrite <- !app_assoc. }
    assert (Hi : S (length (pre0 ++ prev ++ text))
                 = length (pre0 ++ prev ++ text ++ [c])).
    { rewrite !length_app. simpl. lia. }
    cbn [tokenize_hole positions]. rewrite foldM_cons.
    destruct (is_verb (byteZ c)) eqn:Hv.
    + cbn [emitted]. rewrite holes_Hole.
      assert (Hesc : escapes (text ++ [c]) = esc_out false text).
      { rewrite escapes_esc_out, esc_out_app. simpl.
        rewrite bool_decide_eq_false_2 by by apply is_verb_not_escape.
        by rewrite app_nil_r. }
      destruct (drop (Vars.n x) args) as [|a args'] eqn:Hd.
      * rewrite (bind_Panics _ _ _ _ _
                   (iter_verb_fault format args x _ _ w Ht Hv
                      (drop_lookup_nil _ _ Hd))).
        exists w, []. split; [done|]. split; [by apply extends_refl|].
        by rewrite Hesc, app_nil_r.
      * destruct (drop_lookup_cons _ _ _ _ Hd) as [Ha Hd'].
        destruct (iter_verb format args x (length (pre0 ++ prev ++ text))
                    _ a w Ht Hv Ha H) as (w1 & E & X).
        rewrite (bind_Returns _ _ _ _ _ E). clear E.
        assert (Hs : slice format (Vars.tagPos x)
                       (length (pre0 ++ prev ++ text) + 1) = text ++ [c]).
        { rewrite Hp, Hf.
          replace (length (pre0 ++ prev ++ text) + 1)
            with (length ((pre0 ++ prev) ++ text ++ [c]))
            by (rewrite !length_app; simpl; lia).
          replace (pre0 ++ prev ++ text ++ c :: rest)
            with ((pre0 ++ prev) ++ (text ++ [c]) ++ rest)
            by (by rewrite <- !app_assoc).
          apply slice_middle. }
        rewrite Hs in *.
        match goal with |- context [foldM _ ?y _ _] => set (x1 := y) end.
        eapply (scanned_step _ _ [] _ (Sprintf (text ++ [c]) a) _ _ _ _ x1);
          [exact X| | | |].
        4:{ rewrite Hi.
            replace (length (pre0 ++ prev ++ text ++ [c]))
              with (length ((pre0 ++ prev ++ text ++ [c]) ++ []))
              by (by rewrite app_nil_r).
            rewrite <- Hd'.
            change (drop (Vars.n x + 1) args) with (drop (Vars.n x1) args).
            apply (IHrun _ [] x1 w1); simpl; auto.
            - by rewrite <- !app_assoc.
            - rewrite !length_app in *. simpl. lia.
            - by eapply extends_ready. }
        -- simpl. unfold int_add. by rewrite int_wrap_idem.
        -- simpl. lia.
        -- by rewrite Hesc, app_nil_r.
    + destruct (decide (ESCAPE = c)) as [<-|Hne].
      * destruct (iter_escape format args x (length (pre0 ++ prev ++ text))
                    w Ht H) as (w1 & E & X).
        rewrite (bind_Returns _ _ _ _ _ E). clear E.
        rewrite <- (prepend_nil (emitted _ _ _)).
        match goal with |- context [foldM _ ?y _ _] => set (x1 := y) end.
        eapply (scanned_step _ _ (esc_out false (text ++ [ESCAPE])) []
                  _ _ _ _ _ x1); [exact X| | | |].
        4:{ rewrite Hi.
            apply (IHhole pre0 prev (text ++ [ESCAPE]) x1 w1); simpl; auto.
            - by rewrite <- !app_assoc.
            - by rewrite esc_flag_app, He.
            - by eapply extends_ready. }
        -- simpl. destruct (Vars.escape x); simpl.
           ++ unfold int_add. by rewrite int_wrap_idem.
           ++ by rewrite Z.add_0_r.
        -- simpl. reflexivity.
        -- rewrite esc_out_app, He. simpl. by rewrite app_nil_r.
      * assert (Hb : byteZ c <> byteZ ESCAPE).
        { intros Hb. apply byteZ_inj in Hb. by subst. }
        rewrite (bind_Returns _ _ _ _ _
                   (iter_other format args x _ (byteZ c) w Ht Hv Hb)).
        rewrite Hi.
        assert (Hesc : esc_out false text = esc_out false (text ++ [c])).
        { rewrite esc_out_app. simpl.
          rewrite bool_decide_eq_false_2 by done. by rewrite app_nil_r. }
        rewrite Hesc.
        apply (IHhole pre0 prev (text ++ [c])); auto.
        -- by rewrite <- !app_assoc.
        -- rewrite esc_flag_app. simpl.
           by rewrite bool_decide_eq_false_2.
Qed.


Lemma emitted_terminated toks : forall prev args,
  no_dangling toks = true -> holes toks <= length args ->
  emitted prev toks args = Done (render escapes toks args).
Proof.
  induction toks as [|[r|t|t] toks IH]; intros prev args Hnd Hk;
    [done| | |done].
  - simpl. by rewrite (IH r args Hnd Hk).
  - rewrite holes_Hole in Hk. destruct args as [|a args]; [simpl in Hk; lia|].
    simpl in *. rewrite (IH [] args Hnd) by lia. simpl.
    by rewrite <- app_assoc.
Qed.


Lemma emitted_short toks : forall prev args,
  length args < holes toks -> exists part, emitted prev toks args = Fault part.
Proof.
  induction toks as [|[r|t|t] toks IH]; intros prev args Hk.
  - unfold holes in Hk. simpl in Hk. lia.
  - destruct (IH r args Hk) as [part E]. simpl. rewrite E. simpl. eauto.
  - rewrite holes_Hole in Hk. destruct args as [|a args]; simpl; [eauto|].
    destruct (IH [] args) as [part E]; [simpl in Hk; lia|].
    rewrite E. simpl. eauto.
  - destruct (IH [] args Hk) as [part E]. simpl. rewrite E. simpl. eauto.
Qed.

Lemma emitted_enough toks : forall prev args,
  holes toks <= length args -> exists body, emitted prev toks args = Done body.
Proof.
  induction toks as [|[r|t|t] toks IH]; intros prev args Hk.
  - simpl. eauto.
  - destruct (IH r args Hk) as [body E]. simpl. rewrite E. simpl. eauto.
  - rewrite holes_Hole in Hk. destruct args as [|a args]; [simpl in Hk; lia|].
    destruct (IH [] args) as [body E]; [simpl in Hk; lia|].
    simpl. rewrite E. simpl. eauto.
  - destruct (IH [] args Hk) as [body E]. simpl. rewrite E. simpl. eauto.
Qed.

Lemma emitted_take toks : forall prev args,
  holes toks <= length args ->
  emitted prev toks args = emitted prev toks (take (holes toks) args).
Proof.
  induction toks as [|[r|t|t] toks IH]; intros prev args Hk.
  - done.
  - simpl. by rewrite (IH r args Hk).
  - rewrite holes_Hole in *. destruct args as [|a args]; [simpl in Hk; lia|].
    simpl. rewrite (IH [] args); [done|simpl in Hk; lia].
  - simpl. by rewrite (IH [] args Hk).
Qed.

(** *** The mutex around a method *)
Lemma ready_set_lock held w :
  ready w -> ready (mkWorld (dests w) (set_lock held (blog w))).
Proof. intros (b & Hb & Hs). by exists b. Qed.

Lemma extends_unlock o w w1 :
  extends o (mkWorld (dests w) (set_lock true (blog w))) w1 ->
  extends o w (mkWorld (dests w1) (set_lock false (blog w1))) /\
  healthy (mkWorld (dests w1) (set_lock false (blog w1))).
Proof.
  intros (b & b' & Hb & Hb' & Ha & Hl & Hi). split.
  - by exists b, b'.
  - split; [done|]. exists b'. split; [done|apply Ha].
Qed.

(** *** [writef] *)
Lemma writef_spec lvl format args w :
  healthy w ->
  match emitted [] (tokenize format) args with
  | Done body =>
    exists w',
      writef lvl format args w =
        Returns (int_wrap (len (timeCache_format ++ Prefix lvl ++ body ++ [EOL])))
                w' /\
      extends (timeCache_format ++ Prefix lvl ++ body ++ [EOL]) w w' /\
      healthy w'
  | Fault part =>
    exists w',
      writef lvl format args w = Panics IndexOutOfRange w' /\
      extends (timeCache_format ++ Prefix lvl ++ part) w w' /\
      healthy w'
  end.
Proof.
  intros [Hl H]. unfold writef. rewrite locked_run by done.
  set (wl := mkWorld (dests w) (set_lock true (blog w))).
  assert (Hwl : ready wl) by by apply ready_set_lock.
  destruct (on_Write timeCache_format wl Hwl) as (w1 & E1 & X1).
  destruct (on_WriteString (Prefix lvl) w1 (extends_ready _ _ _ X1))
    as (w2 & E2 & X2).
  rewrite (bind_Returns _ _ _ _ _ E1), (bind_Returns _ _ _ _ _ E2).
  set (x0 := Vars.mk false 0 false 0 0 0 _).
  assert (HR : foldM (writef_iter format args) x0 (range format) w2 =
               foldM (writef_iter format args) x0 (positions 0 format) w2).
  { apply (range_positions format args format 0 [] x0 w2); [done|].
    by exists [], format. }
  pose proof (proj1 (scan format args format) [] [] x0 w2 eq_refl eq_refl
                eq_refl eq_refl (extends_ready _ _ _ X2)) as HS.
  simpl in HS. rewrite drop_0, <- HR in HS. clear HR.
  unfold tokenize. destruct (emitted [] (tokenize_run [] format) args)
    as [body|part]; unfold scanned in HS; simpl in HS.
  - destruct HS as (x' & w3 & out & E3 & X3 & Hb & Hs & _).
    rewrite (bind_Returns _ _ _ _ _ E3).
    destruct (on_WriteString (slice_from format (Vars.last x')) w3
                (extends_ready _ _ _ X3)) as (w4 & E4 & X4).
    destruct (on_WriteByte EOL w4 (extends_ready _ _ _ X4)) as (w5 & E5 & X5).
    rewrite (bind_Returns _ _ _ _ _ E4), (bind_Returns _ _ _ _ _ E5).
    unfold mret, M_ret. eexists. subst body. split.
    + f_equal. unfold int_add at 1.
      rewrite (int_wrap_eq_add _ _ _ Hs). subst x0. simpl Vars.size.
      int_solve.
    + apply extends_unlock.
      replace (timeCache_format ++ Prefix lvl ++
               (out ++ slice_from format (Vars.last x')) ++ [EOL])
        with (((((timeCache_format ++ Prefix lvl) ++ out) ++
               slice_from format (Vars.last x')) ++ [EOL]))
        by (by rewrite <- !app_assoc).
      eauto using extends_trans.
  - destruct HS as (w3 & out & E3 & X3 & Hb).
    rewrite (bind_Panics _ _ _ _ _ E3). eexists. split; [done|].
    apply extends_unlock.
    subst part. rewrite !app_assoc. eauto using extends_trans.
Qed.

(** *** [write] *)
Lemma write_spec lvl m w :
  healthy w ->
  exists w',
    write lvl m w =
      Returns (int_wrap (len (timeCache_format ++ Prefix lvl ++ m ++ [EOL]))) w' /\
    extends (timeCache_format ++ Prefix lvl ++ m ++ [EOL]) w w' /\
    healthy w'.
Proof.
  intros [Hl H]. unfold write. rewrite locked_run by done.
  set (wl := mkWorld (dests w) (set_lock true (blog w))).
  assert (Hwl : ready wl) by by apply ready_set_lock.
  destruct (on_Write timeCache_format wl Hwl) as (w1 & E1 & X1).
  destruct (on_WriteString (Prefix lvl) w1 (extends_ready _ _ _ X1))
    as (w2 & E2 & X2).
  destruct (on_WriteString m w2 (extends_ready _ _ _ X2)) as (w3 & E3 & X3).
  destruct (on_WriteByte EOL w3 (extends_ready _ _ _ X3)) as (w4 & E4 & X4).
  rewrite (bind_Returns _ _ _ _ _ E1), (bind_Returns _ _ _ _ _ E2),
    (bind_Returns _ _ _ _ _ E3), (bind_Returns _ _ _ _ _ E4).
  unfold mret, M_ret. eexists. split.
  - f_equal. int_solve.
  - apply extends_unlock. eauto using extends_trans.
Qed.

(** In any state with the mutex free and the writer open, [write] returns
    the sum of the four lengths, whatever the destination does. *)
Lemma on_writer_returns {A}
    (m : bufio.Writer -> store -> A * bufio.Writer * store) w :
  writer (blog w) <> None ->
  exists a w', on_writer m w = Returns a w' /\ writer (blog w') <> None /\
               lock (blog w') = lock (blog w).
Proof.
  intros H. unfold on_writer. destruct (writer (blog w)) as [b|]; [|done].
  destruct (m b (dests w)) as [[a b'] h']. eexists _, _. by split.
Qed.

Lemma write_returns lvl m w :
  lock (blog w) = false -> writer (blog w) <> None ->
  exists w',
    write lvl m w =
      Returns (int_wrap (len timeCache_format + len (Prefix lvl) + len m + 1))
              w' /\
    lock (blog w') = false.
Proof.
  intros Hl H. unfold write. rewrite locked_run by done.
  set (wl := mkWorld (dests w) (set_lock true (blog w))).
  destruct (on_writer_returns (bufio.Write timeCache_format) wl H)
    as (a1 & w1 & E1 & H1 & _).
  destruct (on_writer_returns (bufio.WriteString (Prefix lvl)) w1 H1)
    as (a2 & w2 & E2 & H2 & _).
  destruct (on_writer_returns (bufio.WriteString m) w2 H2)
    as (a3 & w3 & E3 & H3 & _).
  destruct (on_writer_returns (bufio.WriteByte EOL) w3 H3)
    as (a4 & w4 & E4 & H4 & _).
  rewrite (bind_Returns _ _ _ _ _ E1), (bind_Returns _ _ _ _ _ E2),
    (bind_Returns _ _ _ _ _ E3), (bind_Returns _ _ _ _ _ E4).
  unfold mret, M_ret. eexists. split; [f_equal; int_solve|done].
Qed.

Lemma NewBLog_healthy h in0 :
  script (h in0) = [] -> healthy (mkWorld h (NewBLog in0)).
Proof.
  intros Hs. split; [done|]. eexists. split; [reflexivity|]. unfold sound.
  simpl. split; [done|]. split; [lia|]. split; [|done].
  unfold bufio.defaultBufSize. destruct (Z.leb_spec DefaultBufferSize 0); lia.
Qed.

Lemma healthy_ready w : healthy w -> ready w.
Proof. by intros [_ H]. Qed.

(** *** The claims on [write] and [writef] *)


(** C1, as amended. On a healthy writer, for every format string that does
    not end inside an unterminated placeholder and has [k] complete
    placeholders, and every argument sequence of length [k], [writef]
    appends timestamp ++ prefix ++ body ++ EOL, where the body passes every
    literal run through unchanged and renders each placeholder, in order,
    as one escape byte for every pair of escape characters in its text
    followed by [Sprintf] of its text and the corresponding argument. *)
Theorem writef_renders lvl format args w :
  healthy w -> terminated format -> length args = placeholders format ->
  exists r w',
    writef lvl format args w = Returns r w' /\
    stream w' = stream w ++ timeCache_format ++ Prefix lvl ++
                rendered_escaped format args ++ [EOL] /\
    healthy w'.
Proof.
  intros H Ht Hk. pose proof (writef_spec lvl format args w H) as HS.
  unfold terminated, placeholders in *.
  rewrite (emitted_terminated _ [] args Ht) in HS by lia.
  destruct HS as (w' & E & X & H'). eexists _, w'. split; [exact E|].
  split; [by apply extends_stream|done].
Qed.

(** C2, as amended. [writef] has no error result and reports no
    FormatError. With fewer arguments than complete placeholders it stops
    with an index-out-of-range panic at the first placeholder lacking an
    argument, after the timestamp, the prefix and everything rendered before
    that placeholder have been appended (the deferred [Unlock] has released
    the mutex). With more arguments the surplus is ignored: the line is
    the one rendered from the first [k] arguments. *)
Theorem writef_argument_mismatch lvl format args w :
  healthy w ->
  (length args < placeholders format ->
   exists part w',
     emitted [] (tokenize format) args = Fault part /\
     writef lvl format args w = Panics IndexOutOfRange w' /\
     stream w' = stream w ++ timeCache_format ++ Prefix lvl ++ part /\
     healthy w') /\
  (placeholders format < length args ->
   exists body r w',
     emitted [] (tokenize format) (take (placeholders format) args) = Done body /\
     writef lvl format args w = Returns r w' /\
     stream w' = stream w ++ timeCache_format ++ Prefix lvl ++ body ++ [EOL] /\
     healthy w').
Proof.
  intros H. pose proof (writef_spec lvl format args w H) as HS.
  unfold placeholders. split; intros Hk.
  - destruct (emitted_short (tokenize format) [] args Hk) as [part E].
    rewrite E in HS. destruct HS as (w' & Ew & X & H').
    exists part, w'. split; [done|]. split; [done|].
    split; [by apply extends_stream|done].
  - assert (Hle : holes (tokenize format) <= length args) by lia.
    rewrite <- (emitted_take _ [] args Hle).
    destruct (emitted_enough (tokenize format) [] args Hle) as [body E].
    rewrite E in HS. destruct HS as (w' & Ew & X & H').
    exists body. eexists _, w'. split; [done|]. split; [exact Ew|].
    split; [by apply extends_stream|done].
Qed.

(** C8, as amended. On a healthy writer (open, without sticky error, over
    a destination that accepts its writes), whenever [writef] returns, the
    integer it returns is the number of bytes this call appended to the
    buffered stream: the timestamp, the prefix, the rendered body and one
    terminator byte (as an [int]; exactly that number when it is below
    2^63). *)
Theorem writef_returns_appended lvl format args w r w' :
  healthy w -> writef lvl format args w = Returns r w' ->
  exists line body,
    line = timeCache_format ++ Prefix lvl ++ body ++ [EOL] /\
    stream w' = stream w ++ line /\
    r = int_wrap (len line) /\
    ((len line < 2 ^ 63)%Z ->
     r = (len timeCache_format + len (Prefix lvl) + len body + 1)%Z).
Proof.
  intros H E. pose proof (writef_spec lvl format args w H) as HS.
  destruct (emitted [] (tokenize format) args) as [body|part].
  - destruct HS as (w1 & E1 & X & _). rewrite E in E1. injection E1 as -> ->.
    eexists _, body. split; [done|]. split; [by apply extends_stream|].
    split; [done|]. intros Hb. rewrite int_wrap_small.
    + rewrite !len_app. unfold len. simpl. lia.
    + pose proof (len_nonneg
        (timeCache_format ++ Prefix lvl ++ body ++ [EOL])). lia.
  - destruct HS as (w1 & E1 & _). congruence.
Qed.


(** *** The escape flag *)
Lemma foldM_invariant {A B} (f : A -> B -> M A) (P : A -> Prop) :
  (forall a e w a' w', P a -> f a e w = Returns a' w' -> P a') ->
  forall l a w a' w', P a -> foldM f a l w = Returns a' w' -> P a'.
Proof.
  intros Hf. induction l as [|e l IH]; intros a w a' w' Ha E.
  - injection E as <- <-. done.
  - rewrite foldM_cons in E. unfold mbind, M_bind in E.
    destruct (f a e w) as [a1 w1| |] eqn:E1; [|done..].
    eapply IH; [|exact E]. by eapply Hf.
Qed.

Lemma iter_escape_invariant format args x iv w x' w' :
  (Vars.tag x = false -> Vars.escape x = false) ->
  writef_iter format args x iv w = Returns x' w' ->
  Vars.tag x' = false -> Vars.escape x' = false.
Proof.
  destruct iv as [i v]. destruct x as [tag tagPos escape n last s size].
  simpl. intros Hx. unfold writef_iter, mbind, M_bind, mret, M_ret, throw.
  repeat case_match; intros; simplify_eq; simpl in *; auto.
Qed.

(** C9. At every position of the loop of [writef], the escape flag is set
    only inside a placeholder: outside a placeholder it is false, so that a
    [%] met there opens a placeholder at that offset whatever precedes it,
    a backslash included. *)
Theorem escape_only_inside_placeholder format args size0 k w0 x w :
  foldM (writef_iter format args) (Vars.mk false 0 false 0 0 0 size0)
        (take k (range format)) w0 = Returns x w ->
  (Vars.tag x = false -> Vars.escape x = false) /\
  (forall i v,
     Vars.tag x = false -> format !! i = Some PLACEHOLDER ->
     writer (blog w) <> None ->
     exists x' w',
       writef_iter format args x (i, v) w = Returns x' w' /\
       Vars.tag x' = true /\ Vars.tagPos x' = i).
Proof.
  intros E.
  assert (Hinv : Vars.tag x = false -> Vars.escape x = false).
  { refine (foldM_invariant (writef_iter format args)
              (fun x => Vars.tag x = false -> Vars.escape x = false)
              _ _ _ _ _ _ _ E); [|done].
    intros a e w1 a' w1' Ha Ea. by eapply iter_escape_invariant. }
  split; [done|]. intros i v Ht Hc H. pose proof (Hinv Ht) as He.
  destruct x as [tag tagPos escape n last s size]. simpl in Ht, He. subst.
  unfold writef_iter. rewrite Hc, bool_decide_true by done. simpl.
  destruct (on_writer_returns (bufio.WriteString (slice format last i)) w H)
    as (r & w' & Er & _).
  rewrite (bind_Returns _ _ _ _ _ Er). by eexists _, _.
Qed.

(** *** The life cycle: [flush], [Close], [resetFile] *)
Lemma on_writer_closed {A} (m : bufio.Writer -> store -> A * bufio.Writer * store) w :
  writer (blog w) = None -> on_writer m w = Panics NilDereference w.
Proof. intros H. unfold on_writer. by rewrite H. Qed.

Lemma on_writer_open {A} (m : bufio.Writer -> store -> A * bufio.Writer * store)
    w b a b' h' :
  writer (blog w) = Some b -> m b (dests w) = (a, b', h') ->
  on_writer m w = Returns a (mkWorld h' (set_writer (Some b') (blog w))).
Proof. intros H E. unfold on_writer. by rewrite H, E. Qed.

Lemma flush_open w b e b' h' :
  lock (blog w) = false ->
  writer (blog w) = Some b -> bufio.Flush b (dests w) = (e, b', h') ->
  flush w =
    Returns tt (mkWorld h' (mkBLog (level (blog w)) (in_ (blog w)) (Some b')
                              false)).
Proof.
  intros Hl H E. unfold flush. rewrite locked_run by done.
  by rewrite (bind_Returns _ _ _ _ _
    (on_writer_open bufio.Flush (mkWorld (dests w) (set_lock true (blog w)))
       b e b' h' H E)).
Qed.

Lemma Close_open w b e b' h' :
  lock (blog w) = false ->
  writer (blog w) = Some b -> bufio.Flush b (dests w) = (e, b', h') ->
  Close w =
    Returns tt (mkWorld h' (mkBLog (level (blog w)) (in_ (blog w)) None false)).
Proof.
  intros Hl H E. unfold Close. rewrite locked_run by done.
  by rewrite (bind_Returns _ _ _ _ _
    (on_writer_open bufio.Flush (mkWorld (dests w) (set_lock true (blog w)))
       b e b' h' H E)).
Qed.

Lemma resetFile_open new w b e b' h' :
  lock (blog w) = false ->
  writer (blog w) = Some b -> bufio.Flush b (dests w) = (e, b', h') ->
  resetFile new w =
    Returns None (mkWorld h' (mkBLog (level (blog w)) new
                                (Some (bufio.Reset new b')) false)).
Proof.
  intros Hl H E. unfold resetFile. rewrite locked_run by done.
  by rewrite (bind_Returns _ _ _ _ _
    (on_writer_open bufio.Flush (mkWorld (dests w) (set_lock true (blog w)))
       b e b' h' H E)).
Qed.

(** On a closed writer every method takes the mutex, stops at the nil
    pointer and, through the deferred [Unlock], leaves everything as it
    was. *)
Lemma closed_faults w :
  lock (blog w) = false -> writer (blog w) = None ->
  forall lvl m format args new,
    write lvl m w = Panics NilDereference w /\
    writef lvl format args w = Panics NilDereference w /\
    flush w = Panics NilDereference w /\
    resetFile new w = Panics NilDereference w /\
    Close w = Panics NilDereference w.
Proof.
  intros Hl H lvl m format args new.
  unfold write, writef, flush, resetFile, Close.
  rewrite !locked_run by done.
  rewrite !(bind_Panics _ _ _ _ _
    (on_writer_closed _ (mkWorld (dests w) (set_lock true (blog w))) H)).
  destruct w as [h [lv i wr lk]]. simpl in *. by subst.
Qed.

Lemma flush_closed w :
  lock (blog w) = false -> writer (blog w) = None ->
  flush w = Panics NilDereference w.
Proof.
  intros Hl H. unfold flush. rewrite locked_run by done.
  rewrite (bind_Panics _ _ _ _ _
    (on_writer_closed _ (mkWorld (dests w) (set_lock true (blog w))) H)).
  destruct w as [h [lv i wr lk]]. simpl in *. by subst.
Qed.

(** While the mutex is held every method waits. *)
Lemma flush_held w : lock (blog w) = true -> flush w = Blocks w.
Proof. intros H. unfold flush. by rewrite locked_held. Qed.

Lemma Flush_fixpoint b h e b' h' :
  bufio.Flush b h = (e, b', h') -> exists e', bufio.Flush b' h' = (e', b', h').
Proof.
  unfold bufio.Flush at 1. destruct (bufio.err b) as [x|] eqn:He.
  { intros [= <- <- <-]. unfold bufio.Flush. rewrite He. eauto. }
  destruct (bufio.Buffered b =? 0) eqn:Hb.
  { intros [= <- <- <-]. unfold bufio.Flush. rewrite He, Hb. eauto. }
  destruct (io_Write (h (bufio.wr b)) (bufio.buf b)) as [d [n [x|]]].
  - intros [= <- <- <-]. unfold bufio.Flush. simpl. eauto.
  - destruct (n <? bufio.Buffered b); intros [= <- <- <-];
      unfold bufio.Flush; simpl; eauto.
Qed.

Lemma Flush_sticky b h e b' h' :
  bufio.Flush b h = (Some e, b', h') -> bufio.err b' = Some e.
Proof.
  unfold bufio.Flush. destruct (bufio.err b) as [x|] eqn:He.
  { by intros [= <- <- <-]. }
  destruct (bufio.Buffered b =? 0); [done|].
  destruct (io_Write (h (bufio.wr b)) (bufio.buf b)) as [d [n [x|]]].
  - by intros [= <- <- <-].
  - by destruct (n <? bufio.Buffered b); intros [= <- <- <-].
Qed.

Lemma io_Write_calls d p : calls (io_Write d p).1 = S (calls d).
Proof. unfold io_Write. by destruct (script d) as [|[[k e]|] rest]. Qed.

(** [Flush] invokes the destination at most once, and no other destination. *)
Lemma Flush_calls b h e b' h' l :
  bufio.Flush b h = (e, b', h') -> calls (h' l) <= S (calls (h l)).
Proof.
  unfold bufio.Flush. destruct (bufio.err b) as [x|].
  { intros [= <- <- <-]. lia. }
  destruct (bufio.Buffered b =? 0).
  { intros [= <- <- <-]. lia. }
  pose proof (io_Write_calls (h (bufio.wr b)) (bufio.buf b)) as Hc.
  destruct (io_Write (h (bufio.wr b)) (bufio.buf b)) as [d [n e0]].
  simpl in Hc.
  assert (Hl : calls ((<[bufio.wr b := d]> h) l) <= S (calls (h l))).
  { destruct (decide (l = bufio.wr b)) as [->|Hne].
    - rewrite fn_lookup_insert. lia.
    - rewrite fn_lookup_insert_ne by done. lia. }
  destruct e0 as [x|]; [by intros [= <- <- <-]|].
  by destruct (n <? bufio.Buffered b); intros [= <- <- <-].
Qed.

(** C6. [flush] is idempotent: in every state of the writer (open or
    closed, with or without a pending error, the mutex free or held) and
    whatever the destination does, calling it twice in succession comes to
    the same as calling it once, for the outcome as for the contents of
    every destination. *)
Theorem flush_idempotent w :
  (flush ≫= fun _ => flush) w = flush w /\
  forall l, received (dests (final ((flush ≫= fun _ => flush) w)) l)
            = received (dests (final (flush w)) l).
Proof.
  assert (E : (flush ≫= fun _ => flush) w = flush w); [|by rewrite E].
  destruct (lock (blog w)) eqn:Hl.
  { by rewrite (bind_Blocks _ _ _ _ (flush_held w Hl)), flush_held. }
  destruct (writer (blog w)) as [b|] eqn:Hb.
  - destruct (bufio.Flush b (dests w)) as [[e b'] h'] eqn:EF.
    rewrite (bind_Returns _ _ _ _ _ (flush_open w b e b' h' Hl Hb EF)).
    rewrite (flush_open w b e b' h' Hl Hb EF).
    destruct (Flush_fixpoint _ _ _ _ _ EF) as [e' EF'].
    by rewrite (flush_open (mkWorld h' (mkBLog (level (blog w)) (in_ (blog w))
                                         (Some b') false))
                  b' e' b' h' eq_refl eq_refl EF').
  - by rewrite (bind_Panics _ _ _ _ _ (flush_closed w Hl Hb)), flush_closed.
Qed.

(** C7, as amended. [flush] and [Close] have no result, so an error that
    the destination returns while they flush is not reported to their
    caller: [flush] keeps it as the sticky error of the buffered stream,
    [Close] drops it together with the stream. Neither they nor
    [resetFile] retry: the destination's [Write] is invoked at most once. *)
Theorem sink_error_not_reported new w b e b' h' :
  lock (blog w) = false ->
  writer (blog w) = Some b -> bufio.Flush b (dests w) = (Some e, b', h') ->
  flush w = Returns tt (mkWorld h' (mkBLog (level (blog w)) (in_ (blog w))
                                      (Some b') false)) /\
  bufio.err b' = Some e /\
  Close w = Returns tt (mkWorld h' (mkBLog (level (blog w)) (in_ (blog w))
                                      None false)) /\
  forall l,
    calls (dests (final (flush w)) l) <= S (calls (dests w l)) /\
    calls (dests (final (Close w)) l) <= S (calls (dests w l)) /\
    calls (dests (final (resetFile new w)) l) <= S (calls (dests w l)).
Proof.
  intros Hl Hb EF.
  split; [by eapply flush_open|]. split; [by eapply Flush_sticky|].
  split; [by eapply Close_open|]. intros l.
  rewrite (flush_open _ _ _ _ _ Hl Hb EF), (Close_open _ _ _ _ _ Hl Hb EF),
    (resetFile_open new _ _ _ _ _ Hl Hb EF). simpl.
  pose proof (Flush_calls _ _ _ _ _ l EF). auto.
Qed.

Lemma flush_healthy w :
  healthy w ->
  exists w', flush w = Returns tt w' /\ extends [] w w' /\ healthy w' /\
    forall l, bound w = Some l -> received (dests w' l) = stream w.
Proof.
  intros (Hl & b & Hb & Hs).
  destruct (Flush_sound b (dests w) Hs) as (b' & h' & EF & Ha & Hnil).
  eexists. split; [by eapply flush_open|]. split; [|split].
  - exists b, b'. simpl. auto.
  - split; [done|]. exists b'. split; [done|apply Ha].
  - intros l Hbl. unfold bound, stream in *. rewrite Hb in *.
    injection Hbl as <-. simpl.
    destruct Ha as (_ & Hst & _ & Hwr & _). unfold stream_of in Hst.
    by rewrite Hnil, Hwr, !app_nil_r in Hst.
Qed.

Lemma Close_healthy w :
  healthy w ->
  exists w', Close w = Returns tt w' /\ writer (blog w') = None /\
    lock (blog w') = false /\
    forall l, (bound w = Some l -> received (dests w' l) = stream w) /\
              (bound w <> Some l -> dests w' l = dests w l).
Proof.
  intros (Hl & b & Hb & Hs).
  destruct (Flush_sound b (dests w) Hs) as (b' & h' & EF & Ha & Hnil).
  eexists. split; [by eapply Close_open|]. split; [done|]. split; [done|].
  destruct Ha as (_ & Hst & _ & Hwr & Hfr). unfold stream_of in Hst.
  rewrite Hnil, Hwr, !app_nil_r in Hst.
  intros l. unfold bound, stream. rewrite Hb. simpl. split.
  - by intros [= <-].
  - intros Hne. apply Hfr. congruence.
Qed.

Lemma resetFile_healthy new w :
  healthy w -> script (dests w new) = [] ->
  exists w',
    resetFile new w = Returns None w' /\ healthy w' /\
    bound w' = Some new /\ in_ (blog w') = new /\
    capacity w' = capacity w /\ level (blog w') = level (blog w) /\
    stream w' = received (dests w' new) /\
    forall l, (bound w = Some l -> received (dests w' l) = stream w) /\
              (bound w <> Some l -> dests w' l = dests w l).
Proof.
  intros (Hl & b & Hb & Hs) Hnew.
  destruct (Flush_sound b (dests w) Hs) as (b' & h' & EF & Ha & Hnil).
  eexists. split; [by eapply resetFile_open|].
  destruct Ha as ((He & Hle & Hz & Hsc) & Hst & Hsz & Hwr & Hfr).
  unfold stream_of in Hst. rewrite Hnil, Hwr, !app_nil_r in Hst.
  unfold healthy, ready, bound, capacity, stream, stream_of. rewrite Hb. simpl.
  split; [|split; [done|split; [done|split; [by rewrite Hsz|split; [done|]]]]].
  - split; [done|]. eexists. split; [done|]. unfold sound. simpl.
    split; [done|]. split; [lia|]. split; [done|].
    destruct (decide (new = bufio.wr b)) as [->|Hne].
    + by rewrite <- Hwr.
    + by rewrite Hfr.
  - split; [by rewrite app_nil_r|]. intros l. split.
    + by intros [= <-].
    + intros Hne. apply Hfr. congruence.
Qed.

Lemma do_call_spec c ln w :
  healthy w -> line c = Some ln ->
  exists r w', do_call c w = Returns r w' /\ extends ln w w' /\ healthy w'.
Proof.
  intros H Hln. destruct c as [lvl m|lvl format args]; simpl in *.
  - injection Hln as <-. destruct (write_spec lvl m w H) as (w' & E & X). eauto.
  - pose proof (writef_spec lvl format args w H) as HS.
    destruct (emitted [] (tokenize format) args) as [body|part]; [|done].
    injection Hln as <-. destruct HS as (w' & E & X). eauto.
Qed.

Lemma do_calls_spec cs : forall w,
  healthy w -> Forall (fun c => is_Some (line c)) cs ->
  exists w', do_calls cs w = Returns tt w' /\ extends (lines cs) w w' /\
             healthy w'.
Proof.
  induction cs as [|c cs IH]; intros w H Hall.
  - exists w. split; [done|]. split; [|done].
    by apply extends_refl, healthy_ready.
  - apply Forall_cons in Hall as [[ln Hln] Hall].
    destruct (do_call_spec c ln w H Hln) as (r & w1 & E1 & X1 & H1).
    destruct (IH w1 H1 Hall) as (w2 & E2 & X2 & H2).
    exists w2. split; [|split; [|done]].
    + simpl. by rewrite (bind_Returns _ _ _ _ _ E1).
    + unfold lines. simpl. rewrite Hln. simpl.
      by eapply extends_trans.
Qed.

(** C5, as amended. [Close] flushes the buffer before it sets the buffered
    stream to nil, so that, over a destination that accepts it, a message
    written immediately before [Close] reaches the destination exactly once,
    after what was written before it. After [Close], every call of [write],
    [writef], [flush], [resetFile] or [Close] stops with a nil-dereference
    panic and changes nothing; none of them returns an error value. *)
Theorem use_after_close lvl m w :
  healthy w ->
  exists r w1 w2,
    write lvl m w = Returns r w1 /\ Close w1 = Returns tt w2 /\
    writer (blog w2) = None /\
    (forall l, bound w = Some l ->
       received (dests w2 l) =
       stream w ++ timeCache_format ++ Prefix lvl ++ m ++ [EOL]) /\
    (forall lvl' m' format args new,
       write lvl' m' w2 = Panics NilDereference w2 /\
       writef lvl' format args w2 = Panics NilDereference w2 /\
       flush w2 = Panics NilDereference w2 /\
       resetFile new w2 = Panics NilDereference w2 /\
       Close w2 = Panics NilDereference w2).
Proof.
  intros H. destruct (write_spec lvl m w H) as (w1 & E1 & X1 & H1).
  destruct (Close_healthy w1 H1) as (w2 & E2 & Hn & Hl2 & Hd).
  eexists _, w1, w2. split; [exact E1|]. split; [done|]. split; [done|].
  split; [|by apply closed_faults].
  intros l Hbl. rewrite <- (extends_stream _ _ _ X1). apply Hd.
  by rewrite (extends_bound _ _ _ X1).
Qed.

(** C4, as amended. On a healthy writer (open, without sticky error,
    over a destination that accepts its writes) and for a new destination
    that accepts its writes as well, [resetFile] first flushes the whole
    buffer to the old destination and then binds the buffered stream, with
    its capacity unchanged, to the new one: for every sequence of writes
    (with enough arguments) before and after the swap, all that was written
    before it is in the old destination at the swap, the stream over the new
    destination starts empty, and all that is written afterwards goes to the
    new destination; when the two destinations differ, neither receives
    anything of the other's share. *)
Theorem resetFile_swaps old new cs1 cs2 w :
  healthy w -> bound w = Some old -> script (dests w new) = [] ->
  Forall (fun c => is_Some (line c)) cs1 ->
  Forall (fun c => is_Some (line c)) cs2 ->
  exists w1 w2 w3 w4,
    do_calls cs1 w = Returns tt w1 /\ resetFile new w1 = Returns None w2 /\
    do_calls cs2 w2 = Returns tt w3 /\ flush w3 = Returns tt w4 /\
    received (dests w2 old) = stream w ++ lines cs1 /\
    bound w2 = Some new /\ capacity w2 = capacity w /\
    stream w2 = received (dests w2 new) /\
    received (dests w4 new) = received (dests w2 new) ++ lines cs2 /\
    (old <> new ->
     received (dests w2 new) = received (dests w new) /\
     received (dests w4 old) = stream w ++ lines cs1).
Proof.
  intros H Hold Hnew Hall1 Hall2.
  destruct (do_calls_spec cs1 w H Hall1) as (w1 & E1 & X1 & H1).
  assert (Hold1 : bound w1 = Some old) by by rewrite (extends_bound _ _ _ X1).
  assert (Hnew1 : script (dests w1 new) = []).
  { destruct (decide (old = new)) as [<-|Hne].
    - destruct (extends_ready _ _ _ X1) as (b1 & Hb1 & Hs1).
      unfold bound in Hold1. rewrite Hb1 in Hold1. injection Hold1 as <-.
      apply Hs1.
    - rewrite (extends_frame _ _ _ new X1); [done|]. congruence. }
  destruct (resetFile_healthy new w1 H1 Hnew1)
    as (w2 & E2 & H2 & Hb2 & _ & Hc2 & _ & Hst2 & Hd2).
  destruct (do_calls_spec cs2 w2 H2 Hall2) as (w3 & E3 & X3 & H3).
  destruct (flush_healthy w3 H3) as (w4 & E4 & X4 & _ & Hd4).
  exists w1, w2, w3, w4. do 4 (split; [done|]).
  assert (Hr2 : received (dests w2 old) = stream w ++ lines cs1).
  { rewrite <- (extends_stream _ _ _ X1). by apply Hd2. }
  split; [done|]. split; [done|].
  split; [by rewrite Hc2, (extends_capacity _ _ _ X1)|]. split; [done|].
  split.
  - rewrite (Hd4 new), (extends_stream _ _ _ X3), Hst2; [done|].
    by rewrite (extends_bound _ _ _ X3).
  - intros Hne. split.
    + rewrite (proj2 (Hd2 new)) by congruence.
      rewrite (extends_frame _ _ _ new X1); [done|]. congruence.
    + rewrite (extends_frame _ _ _ old X4), (extends_frame _ _ _ old X3);
        [done| |]; rewrite ?(extends_bound _ _ _ X3); congruence.
Qed.

(** ** Beyond the normal operation: any state of the writer, any destination *)

(** *** Steps of the buffered writer *)
Lemma steady_refl b h : steady b h b h.
Proof. split; [done|]. split; [done|]. by split. Qed.

Lemma steady_trans b h b1 h1 b2 h2 :
  steady b h b1 h1 -> steady b1 h1 b2 h2 -> steady b h b2 h2.
Proof.
  intros (Hw & Hz & Hb & Hf) (Hw' & Hz' & Hb' & Hf').
  split; [congruence|]. split; [congruence|]. split; [auto|].
  intros l Hne. rewrite Hf' by congruence. by apply Hf.
Qed.

Lemma insert_frame (h : nat -> Sink) k d l : l <> k -> (<[k := d]> h) l = h l.
Proof. intros Hne. by rewrite fn_lookup_insert_ne. Qed.

Lemma Flush_steady b h e b' h' :
  bufio.Flush b h = (e, b', h') -> steady b h b' h'.
Proof.
  unfold bufio.Flush. destruct (bufio.err b) as [x|].
  { intros [= <- <- <-]. apply steady_refl. }
  destruct (bufio.Buffered b =? 0).
  { intros [= <- <- <-]. apply steady_refl. }
  destruct (io_Write (h (bufio.wr b)) (bufio.buf b)) as [d [n e0]].
  assert (Hd : forall k, length (drop k (bufio.buf b)) <= length (bufio.buf b)).
  { intros k. rewrite length_drop. lia. }
  destruct e0 as [x|]; [|destruct (n <? bufio.Buffered b)];
    intros [= <- <- <-]; (split; [done|]; split; [done|]; split;
      [|by intros l Hne; apply insert_frame]);
    intros [Hle Hpos]; split; simpl; try done; try lia;
    specialize (Hd n); lia.
Qed.

Lemma copy_in_steady p b h n b' :
  bufio.copy_in p b = (n, b') -> steady b h b' h.
Proof.
  unfold bufio.copy_in. intros [= <- <-].
  split; [done|]. split; [done|]. split; [|done].
  intros [Hle Hpos]. split; [|done]. simpl.
  rewrite length_app, length_take. unfold bufio.Available. lia.
Qed.

Lemma fill_flush_steady p b h n b' h' :
  bufio.fill_flush p b h = (n, b', h') -> steady b h b' h'.
Proof.
  unfold bufio.fill_flush.
  destruct (bufio.copy_in p b) as [k b1] eqn:Ec.
  destruct (bufio.Flush b1 h) as [[e b2] h2] eqn:Ef.
  intros [= <- <- <-].
  eapply steady_trans; [by eapply copy_in_steady|by eapply Flush_steady].
Qed.

Lemma finish_steady p nn b h r b' h' :
  bufio.finish p nn b h = (r, b', h') -> steady b h b' h'.
Proof.
  unfold bufio.finish. destruct (bufio.err b) as [x|].
  { intros [= <- <- <-]. apply steady_refl. }
  destruct (bufio.copy_in p b) as [k b1] eqn:Ec.
  intros [= <- <- <-]. by eapply copy_in_steady.
Qed.

Lemma WriteString_loop_steady fuel : forall s nn b h s' nn' b' h',
  bufio.WriteString_loop fuel s nn b h = (s', nn', b', h') ->
  steady b h b' h'.
Proof.
  induction fuel as [|fuel IH]; intros s nn b h s' nn' b' h'; simpl.
  { intros [= <- <- <- <-]. apply steady_refl. }
  destruct ((bufio.Available b <? length s) && bufio.no_err b).
  - destruct (bufio.fill_flush s b h) as [[n b2] h2] eqn:Ef.
    intros E. eapply steady_trans; [by eapply fill_flush_steady|by eapply IH].
  - intros [= <- <- <- <-]. apply steady_refl.
Qed.

Lemma WriteString_steady s b h r b' h' :
  bufio.WriteString s b h = (r, b', h') -> steady b h b' h'.
Proof.
  unfold bufio.WriteString.
  destruct (bufio.WriteString_loop (length s + 2) s 0 b h)
    as [[[s1 nn1] b1] h1] eqn:El.
  intros E.
  eapply steady_trans; [by eapply WriteString_loop_steady|by eapply finish_steady].
Qed.

Lemma Write_loop_steady fuel : forall p nn b h p' nn' b' h',
  bufio.Write_loop fuel p nn b h = (p', nn', b', h') ->
  steady b h b' h'.
Proof.
  induction fuel as [|fuel IH]; intros p nn b h p' nn' b' h'; simpl.
  { intros [= <- <- <- <-]. apply steady_refl. }
  destruct ((bufio.Available b <? length p) && bufio.no_err b).
  - destruct (bufio.Buffered b =? 0).
    + destruct (io_Write (h (bufio.wr b)) p) as [d [n e]].
      intros E. eapply steady_trans; [|by eapply IH].
      split; [done|]. split; [done|]. split; [done|].
      intros l Hne. by apply insert_frame.
    + destruct (bufio.fill_flush p b h) as [[n b2] h2] eqn:Ef.
      intros E. eapply steady_trans; [by eapply fill_flush_steady|by eapply IH].
  - intros [= <- <- <- <-]. apply steady_refl.
Qed.

Lemma Write_steady p b h r b' h' :
  bufio.Write p b h = (r, b', h') -> steady b h b' h'.
Proof.
  unfold bufio.Write.
  destruct (bufio.Write_loop (length p + 2) p 0 b h)
    as [[[p1 nn1] b1] h1] eqn:El.
  intros E.
  eapply steady_trans; [by eapply Write_loop_steady|by eapply finish_steady].
Qed.

Lemma WriteByte_steady c b h e b' h' :
  bufio.WriteByte c b h = (e, b', h') -> steady b h b' h'.
Proof.
  unfold bufio.WriteByte. destruct (bufio.err b) as [x|].
  { intros [= <- <- <-]. apply steady_refl. }
  destruct (Nat.leb_spec (bufio.Available b) 0) as [Hfull|Hroom].
  - destruct (bufio.Flush b h) as [[e1 b1] h1] eqn:Ef.
    pose proof (Flush_steady _ _ _ _ _ Ef) as Hs.
    destruct e1 as [x|]; intros [= <- <- <-]; [done|].
    destruct Hs as (Hw & Hz & Hb & Hf).
    split; [done|]. split; [done|]. split; [|done].
    intros Hbd. destruct (Hb Hbd) as [Hle Hpos]. split; [|done]. simpl.
    rewrite length_app. simpl.
    revert Ef. unfold bufio.Flush. destruct (bufio.err b) as [x|]; [done|].
    destruct (Nat.eqb_spec (bufio.Buffered b) 0) as [Hz0|Hnz].
    + intros [= <-]. unfold bufio.Available, bufio.Buffered in *.
      destruct Hbd. lia.
    + destruct (io_Write (h (bufio.wr b)) (bufio.buf b)) as [d [n [x|]]];
        [done|].
      destruct (n <? bufio.Buffered b); [done|]. intros [= <- <-]. simpl. lia.
  - intros [= <- <- <-]. split; [done|]. split; [done|]. split; [|done].
    intros [Hle Hpos]. split; [|done]. simpl. rewrite length_app. simpl.
    unfold bufio.Available in Hroom. lia.
Qed.

(** *** Steps of the receiver *)
Lemma evolves_refl w : writer (blog w) <> None -> evolves w w.
Proof.
  intros H. destruct (writer (blog w)) as [b|] eqn:Hb; [|done].
  split; [done|]. split; [done|]. exists b, b. auto using steady_refl.
Qed.

Lemma evolves_trans w w1 w2 : evolves w w1 -> evolves w1 w2 -> evolves w w2.
Proof.
  intros (Hl & Hi & b & b1 & Hb & Hb1 & Hs) (Hl' & Hi' & b1' & b2 & Hb1' & Hb2 & Hs').
  assert (b1' = b1) as -> by congruence.
  split; [congruence|]. split; [congruence|]. exists b, b2.
  eauto using steady_trans.
Qed.

Lemma evolves_open w w' : evolves w w' -> writer (blog w') <> None.
Proof. intros (_ & _ & b & b' & _ & Hb' & _). congruence. Qed.

(** The mutex is no part of [evolves]. *)
Lemma evolves_lock w w' held held' :
  evolves (mkWorld (dests w) (set_lock held (blog w))) w' ->
  evolves w (mkWorld (dests w') (set_lock held' (blog w'))).
Proof.
  intros (Hl & Hi & b & b' & Hb & Hb' & Hs).
  split; [done|]. split; [done|]. by exists b, b'.
Qed.

Lemma on_writer_evolves {A}
    (m : bufio.Writer -> store -> A * bufio.Writer * store) w :
  writer (blog w) <> None ->
  (forall b h a b' h', m b h = (a, b', h') -> steady b h b' h') ->
  exists a w', on_writer m w = Returns a w' /\ evolves w w'.
Proof.
  intros H Hm. destruct (writer (blog w)) as [b|] eqn:Hb; [|done].
  destruct (m b (dests w)) as [[a b'] h'] eqn:Em.
  exists a. eexists. unfold on_writer. rewrite Hb, Em. split; [reflexivity|].
  split; [done|]. split; [done|]. exists b, b'. simpl. eauto.
Qed.

Lemma on_Write_evolves p w :
  writer (blog w) <> None ->
  exists a w', on_writer (bufio.Write p) w = Returns a w' /\ evolves w w'.
Proof. intros H. apply on_writer_evolves; eauto using Write_steady. Qed.

Lemma on_WriteString_evolves s w :
  writer (blog w) <> None ->
  exists a w', on_writer (bufio.WriteString s) w = Returns a w' /\ evolves w w'.
Proof. intros H. apply on_writer_evolves; eauto using WriteString_steady. Qed.

Lemma on_WriteByte_evolves c w :
  writer (blog w) <> None ->
  exists a w', on_writer (bufio.WriteByte c) w = Returns a w' /\ evolves w w'.
Proof. intros H. apply on_writer_evolves; eauto using WriteByte_steady. Qed.

Lemma on_Flush_evolves w :
  writer (blog w) <> None ->
  exists a w', on_writer bufio.Flush w = Returns a w' /\ evolves w w'.
Proof. intros H. apply on_writer_evolves; eauto using Flush_steady. Qed.

(** One iteration of the loop of [writef] on an open writer: it goes on,
    or [args[n]] is out of range. *)
Lemma iter_evolves format args x iv w :
  writer (blog w) <> None ->
  (exists x' w', writef_iter format args x iv w = Returns x' w' /\
                 evolves w w') \/
  writef_iter format args x iv w = Panics IndexOutOfRange w.
Proof.
  intros H. destruct iv as [i v].
  destruct x as [tag tagPos escape n last s size].
  pose proof (evolves_refl w H) as Hr.
  unfold writef_iter. destruct tag.
  - destruct (is_verb v).
    + destruct (args !! n) as [a|]; [|by right]. left.
      destruct (on_WriteString_evolves
                  (Sprintf (slice format tagPos (i + 1)) a) w H)
        as (r & w' & E & X).
      rewrite (bind_Returns _ _ _ _ _ E). by eexists _, w'.
    + destruct (v =? byteZ ESCAPE)%Z; [|left; by eexists _, w].
      left. destruct escape.
      * destruct (on_WriteByte_evolves ESCAPE w H) as (r & w' & E & X).
        unfold mbind at 1. unfold M_bind at 1. unfold mbind at 1.
        unfold M_bind at 1. rewrite E. by eexists _, w'.
      * by eexists _, w.
  - destruct (format !! i) as [c|]; [|by right]. left.
    destruct (bool_decide (PLACEHOLDER = c) && negb escape).
    + destruct (on_WriteString_evolves (slice format last i) w H)
        as (r & w' & E & X).
      rewrite (bind_Returns _ _ _ _ _ E). by eexists _, w'.
    + by eexists _, w.
Qed.

Lemma foldM_evolves format args l : forall x w,
  writer (blog w) <> None ->
  exists w', evolves w w' /\
    ((exists x', foldM (writef_iter format args) x l w = Returns x' w') \/
     foldM (writef_iter format args) x l w = Panics IndexOutOfRange w').
Proof.
  induction l as [|iv l IH]; intros x w H.
  { exists w. split; [by apply evolves_refl|]. left. by exists x. }
  rewrite foldM_cons.
  destruct (iter_evolves format args x iv w H) as [(x1 & w1 & E1 & X1)|E1].
  - rewrite (bind_Returns _ _ _ _ _ E1).
    destruct (IH x1 w1 (evolves_open _ _ X1)) as (w' & X & Hw').
    exists w'. split; [by eapply evolves_trans|done].
  - rewrite (bind_Panics _ _ _ _ _ E1). exists w.
    split; [by apply evolves_refl|by right].
Qed.

(** *** What every method does to an open writer with the mutex free *)
Lemma write_effect lvl m w :
  lock (blog w) = false -> writer (blog w) <> None ->
  exists w',
    write lvl m w =
      Returns (int_wrap (len timeCache_format + len (Prefix lvl) + len m + 1))
              w' /\
    evolves w w' /\ lock (blog w') = false.
Proof.
  intros Hl H. unfold write. rewrite locked_run by done.
  set (wl := mkWorld (dests w) (set_lock true (blog w))).
  destruct (on_Write_evolves timeCache_format wl H) as (a1 & w1 & E1 & X1).
  destruct (on_WriteString_evolves (Prefix lvl) w1 (evolves_open _ _ X1))
    as (a2 & w2 & E2 & X2).
  destruct (on_WriteString_evolves m w2 (evolves_open _ _ X2))
    as (a3 & w3 & E3 & X3).
  destruct (on_WriteByte_evolves EOL w3 (evolves_open _ _ X3))
    as (a4 & w4 & E4 & X4).
  rewrite (bind_Returns _ _ _ _ _ E1), (bind_Returns _ _ _ _ _ E2),
    (bind_Returns _ _ _ _ _ E3), (bind_Returns _ _ _ _ _ E4).
  unfold mret, M_ret. eexists. split; [f_equal; int_solve|]. split; [|done].
  apply (evolves_lock w w4 true false). eauto using evolves_trans.
Qed.

Lemma writef_effect lvl format args w :
  lock (blog w) = false -> writer (blog w) <> None ->
  exists w', evolves w w' /\ lock (blog w') = false /\
    ((exists r, writef lvl format args w = Returns r w') \/
     writef lvl format args w = Panics IndexOutOfRange w').
Proof.
  intros Hl H. unfold writef. rewrite locked_run by done.
  set (wl := mkWorld (dests w) (set_lock true (blog w))).
  destruct (on_Write_evolves timeCache_format wl H) as (a1 & w1 & E1 & X1).
  destruct (on_WriteString_evolves (Prefix lvl) w1 (evolves_open _ _ X1))
    as (a2 & w2 & E2 & X2).
  rewrite (bind_Returns _ _ _ _ _ E1), (bind_Returns _ _ _ _ _ E2).
  set (x0 := Vars.mk false 0 false 0 0 0 _).
  destruct (foldM_evolves format args (range format) x0 w2
              (evolves_open _ _ X2)) as (w3 & X3 & [[x' E3]|E3]).
  - rewrite (bind_Returns _ _ _ _ _ E3).
    destruct (on_WriteString_evolves (slice_from format (Vars.last x')) w3
                (evolves_open _ _ X3)) as (a4 & w4 & E4 & X4).
    destruct (on_WriteByte_evolves EOL w4 (evolves_open _ _ X4))
      as (a5 & w5 & E5 & X5).
    rewrite (bind_Returns _ _ _ _ _ E4), (bind_Returns _ _ _ _ _ E5).
    unfold mret, M_ret. eexists. split; [|split; [|left; by eexists]].
    + apply (evolves_lock w w5 true false). eauto using evolves_trans.
    + done.
  - rewrite (bind_Panics _ _ _ _ _ E3).
    eexists. split; [|split; [|by right]].
    + apply (evolves_lock w w3 true false). eauto using evolves_trans.
    + done.
Qed.

Lemma flush_effect w :
  lock (blog w) = false -> writer (blog w) <> None ->
  exists w', flush w = Returns tt w' /\ evolves w w' /\ lock (blog w') = false.
Proof.
  intros Hl H. destruct (writer (blog w)) as [b|] eqn:Hb; [|done].
  destruct (bufio.Flush b (dests w)) as [[e b'] h'] eqn:EF.
  eexists. split; [by eapply flush_open|]. split; [|done].
  split; [done|]. split; [done|]. exists b, b'. simpl.
  eauto using Flush_steady.
Qed.

Lemma Close_effect w b :
  lock (blog w) = false -> writer (blog w) = Some b ->
  exists w',
    Close w = Returns tt w' /\ writer (blog w') = None /\
    lock (blog w') = false /\ level (blog w') = level (blog w) /\
    in_ (blog w') = in_ (blog w) /\
    forall l, l <> bufio.wr b -> dests w' l = dests w l.
Proof.
  intros Hl Hb.
  destruct (bufio.Flush b (dests w)) as [[e b'] h'] eqn:EF.
  eexists. split; [by eapply Close_open|]. do 4 (split; [done|]).
  apply (Flush_steady _ _ _ _ _ EF).
Qed.

Lemma resetFile_effect new w b :
  lock (blog w) = false -> writer (blog w) = Some b ->
  exists w',
    resetFile new w = Returns None w' /\
    writer (blog w') = Some (bufio.mkWriter None [] (bufio.size b) new) /\
    lock (blog w') = false /\ level (blog w') = level (blog w) /\
    in_ (blog w') = new /\
    forall l, l <> bufio.wr b -> dests w' l = dests w l.
Proof.
  intros Hl Hb.
  destruct (bufio.Flush b (dests w)) as [[e b'] h'] eqn:EF.
  destruct (Flush_steady _ _ _ _ _ EF) as (Hw & Hz & _ & Hf).
  eexists. split; [by eapply resetFile_open|]. simpl.
  split; [by rewrite <- Hz|]. by do 3 (split; [done|]).
Qed.

(** *** Every operation, in any state *)
Lemma evolves_facts w w' b :
  evolves w w' -> writer (blog w) = Some b ->
  (forall l, l <> bufio.wr b -> dests w' l = dests w l) /\
  forall b', writer (blog w') = Some b' ->
    bufio.size b' = bufio.size b /\ (bounded b -> bounded b') /\
    (bufio.wr b = in_ (blog w) -> bufio.wr b' = in_ (blog w')).
Proof.
  intros (Hlv & Hin & b0 & b1 & Hb0 & Hb1 & Hw & Hz & Hbd & Hf) Hb.
  assert (b0 = b) as -> by congruence. split; [done|].
  intros b' Hb'. assert (b1 = b') as -> by congruence.
  split; [done|]. split; [done|]. congruence.
Qed.

Lemma run_op_effect o w :
  lock (blog w) = false ->
  verdict_of (run_op o w) <> Blocked /\
  lock (blog (final (run_op o w))) = false /\
  match writer (blog w) with
  | None =>
    dests (final (run_op o w)) = dests w /\
    writer (blog (final (run_op o w))) = None
  | Some b =>
    (forall l, l <> bufio.wr b -> dests (final (run_op o w)) l = dests w l) /\
    forall b', writer (blog (final (run_op o w))) = Some b' ->
      bufio.size b' = bufio.size b /\ (bounded b -> bounded b') /\
      (bufio.wr b = in_ (blog w) -> bufio.wr b' = in_ (blog (final (run_op o w))))
  end.
Proof.
  intros Hl. destruct (writer (blog w)) as [b|] eqn:Hb.
  - assert (Ho : writer (blog w) <> None) by congruence.
    destruct o as [lvl m|lvl format args| | |in1|lvl| |]; simpl.
    + destruct (write_effect lvl m w Hl Ho) as (w' & E & X & Hl').
      rewrite (bind_Returns _ _ _ _ _ E). simpl.
      split; [done|]. split; [done|]. by apply evolves_facts.
    + destruct (writef_effect lvl format args w Hl Ho)
        as (w' & X & Hl' & [[r E]|E]).
      * rewrite (bind_Returns _ _ _ _ _ E). simpl.
        split; [done|]. split; [done|]. by apply evolves_facts.
      * rewrite (bind_Panics _ _ _ _ _ E). simpl.
        split; [done|]. split; [done|]. by apply evolves_facts.
    + destruct (flush_effect w Hl Ho) as (w' & E & X & Hl').
      rewrite E. simpl. split; [done|]. split; [done|]. by apply evolves_facts.
    + destruct (Close_effect w b Hl Hb) as (w' & E & Hn & Hl' & _ & _ & Hf).
      rewrite E. simpl. split; [done|]. split; [done|]. split; [done|].
      intros b' Hb'. congruence.
    + destruct (resetFile_effect in1 w b Hl Hb)
        as (w' & E & Hw' & Hl' & _ & Hi' & Hf).
      rewrite (bind_Returns _ _ _ _ _ E). simpl.
      split; [done|]. split; [done|]. split; [done|].
      intros b' Hb'. rewrite Hw' in Hb'. injection Hb' as <-. simpl.
      split; [done|]. split; [|done]. intros [_ Hpos]. split; [simpl; lia|done].
    + split; [done|]. split; [done|]. split; [done|].
      intros b' Hb'. rewrite Hb in Hb'. by injection Hb' as <-.
    + split; [done|]. split; [done|]. split; [done|].
      intros b' Hb'. rewrite Hb in Hb'. by injection Hb' as <-.
    + split; [done|]. split; [done|]. split; [done|].
      intros b' Hb'. rewrite Hb in Hb'. by injection Hb' as <-.
  - destruct (closed_faults w Hl Hb) with (lvl := level (blog w))
      (m := @nil ascii) (format := @nil ascii) (args := @nil Value) (new := 0)
      as (_ & _ & Ef & _ & Ec).
    destruct o as [lvl m|lvl format args| | |in1|lvl| |]; simpl.
    + destruct (closed_faults w Hl Hb lvl m [] [] 0) as (E & _).
      by rewrite (bind_Panics _ _ _ _ _ E).
    + destruct (closed_faults w Hl Hb lvl [] format args 0) as (_ & E & _).
      by rewrite (bind_Panics _ _ _ _ _ E).
    + by rewrite Ef.
    + by rewrite Ec.
    + destruct (closed_faults w Hl Hb (level (blog w)) [] [] [] in1)
        as (_ & _ & _ & E & _).
      by rewrite (bind_Panics _ _ _ _ _ E).
    + done.
    + done.
    + done.
Qed.

(** X4. Whatever the state of the writer and whatever its destination does,
    a method called with the mutex free does not wait, and when it is over
    (it has returned or panicked) the mutex is free again. *)
Theorem mutex_released o w :
  lock (blog w) = false ->
  verdict_of (run_op o w) <> Blocked /\
  lock (blog (final (run_op o w))) = false.
Proof.
  intros Hl. destruct (run_op_effect o w Hl) as (Hv & Hl' & _). by split.
Qed.

Lemma run_op_well_formed o w :
  well_formed w ->
  well_formed (final (run_op o w)) /\
  (capacity (final (run_op o w)) = capacity w \/
   capacity (final (run_op o w)) = None).
Proof.
  intros [Hl Hwf]. destruct (run_op_effect o w Hl) as (_ & Hl' & He).
  unfold capacity.
  destruct (writer (blog w)) as [b|] eqn:Hb.
  - destruct He as [_ He]. destruct (Hwf b eq_refl) as [Hin Hbd].
    destruct (writer (blog (final (run_op o w)))) as [b'|] eqn:Hb'.
    + destruct (He b' eq_refl) as (Hz & Hbd' & Hin').
      split; [|left; simpl; by rewrite Hz].
      split; [done|]. intros b1 Hb1. rewrite Hb' in Hb1.
      injection Hb1 as <-. auto.
    + split; [|by right]. split; [done|]. intros b1 Hb1. congruence.
  - destruct He as [_ Hn]. rewrite Hn. split; [|by left].
    split; [done|]. intros b1 Hb1. congruence.
Qed.

(** X11. The invariant of the writer: started from a state where the
    mutex is free and an open buffered writer is bound to [blog.in] with
    its buffer within a positive capacity, every sequence of calls of the
    methods ends in such a state, whatever the destinations do and whether
    or not a call panics; and as long as the writer is open its capacity
    is the initial one. *)
Theorem well_formed_kept os : forall w,
  well_formed w ->
  well_formed (final (run_ops os w)) /\
  (capacity (final (run_ops os w)) = capacity w \/
   capacity (final (run_ops os w)) = None).
Proof.
  induction os as [|o os IH]; intros w Hwf; [by split; [|left]|].
  destruct (run_op_well_formed o w Hwf) as [Hwf1 Hc1].
  simpl. unfold mbind, M_bind.
  destruct (run_op o w) as [[] w1|p w1|w1]; simpl in *; [|done..].
  destruct (IH w1 Hwf1) as [Hwf2 Hc2]. split; [done|].
  destruct Hc2 as [Hc2|Hc2]; [|by right]. rewrite Hc2. done.
Qed.

(** X12. A method writes to no destination but the current one: whatever
    the state of a well-formed writer, a call leaves every destination
    other than [blog.in] as it was. *)
Theorem only_in_is_written o w l :
  well_formed w -> l <> in_ (blog w) ->
  dests (final (run_op o w)) l = dests w l.
Proof.
  intros [Hl Hwf] Hne. destruct (run_op_effect o w Hl) as (_ & _ & He).
  destruct (writer (blog w)) as [b|] eqn:Hb.
  - destruct (Hwf b eq_refl) as [Hin _]. apply He. congruence.
  - destruct He as [-> _]. done.
Qed.

(** *** A writer that carries a sticky error *)
Lemma Flush_failed b h e :
  bufio.err b = Some e -> bufio.Flush b h = (Some e, b, h).
Proof. intros He. unfold bufio.Flush. by rewrite He. Qed.

Lemma WriteString_failed s b h e :
  bufio.err b = Some e -> bufio.WriteString s b h = ((0, Some e), b, h).
Proof.
  intros He. unfold bufio.WriteString.
  replace (length s + 2) with (S (length s + 1)) by lia. simpl.
  unfold bufio.no_err, bufio.finish. by rewrite He, andb_false_r, He.
Qed.

Lemma Write_failed p b h e :
  bufio.err b = Some e -> bufio.Write p b h = ((0, Some e), b, h).
Proof.
  intros He. unfold bufio.Write.
  replace (length p + 2) with (S (length p + 1)) by lia. simpl.
  unfold bufio.no_err, bufio.finish. by rewrite He, andb_false_r, He.
Qed.

Lemma WriteByte_failed c b h e :
  bufio.err b = Some e -> bufio.WriteByte c b h = (Some e, b, h).
Proof. intros He. unfold bufio.WriteByte. by rewrite He. Qed.

Lemma on_writer_noop {A}
    (m : bufio.Writer -> store -> A * bufio.Writer * store) w b a :
  writer (blog w) = Some b -> m b (dests w) = (a, b, dests w) ->
  on_writer m w = Returns a w.
Proof.
  destruct w as [h [lv i wr lk]]. simpl. intros -> E.
  unfold on_writer. simpl. by rewrite E.
Qed.

Lemma relock w :
  lock (blog w) = false ->
  mkWorld (dests w)
    (mkBLog (level (blog w)) (in_ (blog w)) (writer (blog w)) false) = w.
Proof. destruct w as [h [lv i wr lk]]. simpl. by intros ->. Qed.

Lemma iter_failed format args x iv w b e :
  writer (blog w) = Some b -> bufio.err b = Some e ->
  (exists x', writef_iter format args x iv w = Returns x' w) \/
  writef_iter format args x iv w = Panics IndexOutOfRange w.
Proof.
  intros Hb He. destruct iv as [i v].
  destruct x as [tag tagPos escape n last s size].
  unfold writef_iter. destruct tag.
  - destruct (is_verb v).
    + destruct (args !! n) as [a|]; [|by right]. left.
      rewrite (bind_Returns _ _ _ _ _
        (on_writer_noop _ w b _ Hb (WriteString_failed _ b (dests w) e He))).
      by eexists.
    + destruct (v =? byteZ ESCAPE)%Z; [|left; by eexists].
      left. destruct escape; [|by eexists].
      unfold mbind at 1. unfold M_bind at 1. unfold mbind at 1.
      unfold M_bind at 1.
      rewrite (on_writer_noop _ w b _ Hb (WriteByte_failed _ b (dests w) e He)).
      by eexists.
  - destruct (format !! i) as [c|]; [|by right]. left.
    destruct (bool_decide (PLACEHOLDER = c) && negb escape); [|by eexists].
    rewrite (bind_Returns _ _ _ _ _
      (on_writer_noop _ w b _ Hb (WriteString_failed _ b (dests w) e He))).
    by eexists.
Qed.

Lemma foldM_failed format args l w b e :
  writer (blog w) = Some b -> bufio.err b = Some e ->
  forall x,
    (exists x', foldM (writef_iter format args) x l w = Returns x' w) \/
    foldM (writef_iter format args) x l w = Panics IndexOutOfRange w.
Proof.
  intros Hb He. induction l as [|iv l IH]; intros x; [left; by exists x|].
  rewrite foldM_cons.
  destruct (iter_failed format args x iv w b e Hb He) as [[x1 E1]|E1].
  - rewrite (bind_Returns _ _ _ _ _ E1). apply IH.
  - rewrite (bind_Panics _ _ _ _ _ E1). by right.
Qed.

(** X13. Once the buffered writer carries a sticky error (a flush has
    failed), [write], [writef] and [flush] change nothing any more: no
    byte is buffered, the destination is not called, the error stays.
    [write] and [flush] return as usual, [writef] returns or stops at a
    missing argument. *)
Theorem sticky_error_drops lvl m format args w b e :
  lock (blog w) = false -> writer (blog w) = Some b ->
  bufio.err b = Some e ->
  (exists r, write lvl m w = Returns r w) /\
  ((exists r, writef lvl format args w = Returns r w) \/
   writef lvl format args w = Panics IndexOutOfRange w) /\
  flush w = Returns tt w.
Proof.
  intros Hl Hb He.
  set (wl := mkWorld (dests w) (set_lock true (blog w))).
  assert (HW : forall p, on_writer (bufio.Write p) wl = Returns (0, Some e) wl).
  { intros p. apply (on_writer_noop _ wl b); [done|].
    by apply Write_failed. }
  assert (HS : forall s,
             on_writer (bufio.WriteString s) wl = Returns (0, Some e) wl).
  { intros s. apply (on_writer_noop _ wl b); [done|].
    by apply WriteString_failed. }
  assert (HB : forall c, on_writer (bufio.WriteByte c) wl = Returns (Some e) wl).
  { intros c. apply (on_writer_noop _ wl b); [done|].
    by apply WriteByte_failed. }
  assert (HF : on_writer bufio.Flush wl = Returns (Some e) wl).
  { apply (on_writer_noop _ wl b); [done|]. by apply Flush_failed. }
  split; [|split].
  - unfold write. rewrite locked_run by done. fold wl.
    rewrite (bind_Returns _ _ _ _ _ (HW _)), (bind_Returns _ _ _ _ _ (HS _)),
      (bind_Returns _ _ _ _ _ (HS _)), (bind_Returns _ _ _ _ _ (HB _)).
    unfold mret, M_ret. simpl. rewrite relock by done. by eexists.
  - unfold writef. rewrite locked_run by done. fold wl.
    rewrite (bind_Returns _ _ _ _ _ (HW _)), (bind_Returns _ _ _ _ _ (HS _)).
    set (x0 := Vars.mk false 0 false 0 0 0 _).
    destruct (foldM_failed format args (range format) wl b e Hb He x0)
      as [[x' E]|E].
    + left. rewrite (bind_Returns _ _ _ _ _ E),
        (bind_Returns _ _ _ _ _ (HS _)), (bind_Returns _ _ _ _ _ (HB _)).
      unfold mret, M_ret. simpl. rewrite relock by done. by eexists.
    + right. rewrite (bind_Panics _ _ _ _ _ E). simpl.
      by rewrite relock.
  - unfold flush. rewrite locked_run by done. fold wl.
    rewrite (bind_Returns _ _ _ _ _ HF). unfold mret, M_ret. simpl.
    by rewrite relock.
Qed.

(** X5. On an open writer with the mutex free, [write] returns the sum of
    the lengths of the timestamp, the prefix and the message, plus one,
    whatever the destination does with the bytes: no failure of the
    destination shows in the result. *)
Theorem write_counts_lengths lvl m w :
  lock (blog w) = false -> writer (blog w) <> None ->
  exists w',
    write lvl m w =
      Returns (int_wrap (len timeCache_format + len (Prefix lvl) + len m + 1))
              w'.
Proof.
  intros Hl H. destruct (write_effect lvl m w Hl H) as (w' & E & _).
  by exists w'.
Qed.

(** *** Writes that fit in the buffer *)
Lemma WriteString_fits s b h :
  bufio.err b = None -> length s <= bufio.Available b ->
  bufio.WriteString s b h =
    ((length s, None),
     bufio.mkWriter None (bufio.buf b ++ s) (bufio.size b) (bufio.wr b), h).
Proof.
  intros He Hfit. unfold bufio.WriteString.
  replace (length s + 2) with (S (length s + 1)) by lia. simpl.
  destruct (Nat.ltb_spec (bufio.Available b) (length s)) as [Hlt|_]; [lia|].
  simpl. unfold bufio.finish, bufio.copy_in. rewrite He.
  rewrite Nat.min_r by done. by rewrite firstn_all.
Qed.

Lemma Write_fits p b h :
  bufio.err b = None -> length p <= bufio.Available b ->
  bufio.Write p b h =
    ((length p, None),
     bufio.mkWriter None (bufio.buf b ++ p) (bufio.size b) (bufio.wr b), h).
Proof.
  intros He Hfit. unfold bufio.Write.
  replace (length p + 2) with (S (length p + 1)) by lia. simpl.
  destruct (Nat.ltb_spec (bufio.Available b) (length p)) as [Hlt|_]; [lia|].
  simpl. unfold bufio.finish, bufio.copy_in. rewrite He.
  rewrite Nat.min_r by done. by rewrite firstn_all.
Qed.

Lemma WriteByte_fits c b h :
  bufio.err b = None -> 0 < bufio.Available b ->
  bufio.WriteByte c b h =
    (None,
     bufio.mkWriter None (bufio.buf b ++ [c]) (bufio.size b) (bufio.wr b), h).
Proof.
  intros He Hfit. unfold bufio.WriteByte. rewrite He.
  destruct (Nat.leb_spec (bufio.Available b) 0) as [Hle|_]; [lia|done].
Qed.

(** X8. A line that fits in what is left of the buffer is only copied
    there: [write] calls no destination, and the buffer holds the line
    after what it held. *)
Theorem write_stays_in_buffer lvl m w b :
  lock (blog w) = false -> writer (blog w) = Some b ->
  bufio.err b = None ->
  length (bufio.buf b) +
    length (timeCache_format ++ Prefix lvl ++ m ++ [EOL]) <= bufio.size b ->
  exists r,
    write lvl m w =
      Returns r
        (mkWorld (dests w)
           (mkBLog (level (blog w)) (in_ (blog w))
              (Some (bufio.mkWriter None
                       (bufio.buf b ++
                        timeCache_format ++ Prefix lvl ++ m ++ [EOL])
                       (bufio.size b) (bufio.wr b)))
              false)).
Proof.
  intros Hl Hb He Hfit. rewrite !length_app in Hfit. simpl in Hfit.
  unfold write. rewrite locked_run by done.
  set (wl := mkWorld (dests w) (set_lock true (blog w))).
  erewrite (bind_Returns _ _ wl); cycle 1.
  { eapply (on_writer_open _ wl b); [done|].
    apply Write_fits; [done|]. unfold bufio.Available. lia. }
  erewrite bind_Returns; cycle 1.
  { eapply on_writer_open; [reflexivity|].
    apply WriteString_fits; [done|]. unfold bufio.Available. simpl.
    rewrite length_app. lia. }
  erewrite bind_Returns; cycle 1.
  { eapply on_writer_open; [reflexivity|].
    apply WriteString_fits; [done|]. unfold bufio.Available. simpl.
    rewrite !length_app. lia. }
  erewrite bind_Returns; cycle 1.
  { eapply on_writer_open; [reflexivity|].
    apply WriteByte_fits; [done|]. unfold bufio.Available. simpl.
    rewrite !length_app. lia. }
  unfold mret, M_ret. simpl. eexists. by rewrite <- !app_assoc.
Qed.

(** X9. On a healthy writer [flush] hands the whole buffer to the
    destination in at most one call of its [Write]: afterwards the
    destination holds the buffered stream, the buffer is empty, the writer
    is healthy, and no other destination has changed. *)
Theorem flush_delivers w l :
  healthy w -> bound w = Some l ->
  exists w' b',
    flush w = Returns tt w' /\ healthy w' /\
    writer (blog w') = Some b' /\ bufio.buf b' = [] /\
    received (dests w' l) = stream w /\
    calls (dests w' l) <= S (calls (dests w l)) /\
    forall l', l' <> l -> dests w' l' = dests w l'.
Proof.
  intros (Hl & b & Hb & Hs) Hbd. unfold bound in Hbd. rewrite Hb in Hbd.
  injection Hbd as <-.
  destruct (Flush_sound b (dests w) Hs) as (b' & h' & EF & Ha & Hnil).
  eexists _, b'. split; [by eapply flush_open|].
  destruct Ha as (Hs' & Hst & Hsz & Hwr & Hfr). split; [|split; [done|]].
  { split; [done|]. by exists b'. }
  split; [done|]. simpl. split; [|split].
  - unfold stream. rewrite Hb. unfold stream_of in Hst.
    by rewrite Hnil, Hwr, app_nil_r, app_nil_r in Hst.
  - by eapply Flush_calls.
  - done.
Qed.

(** X10. [resetFile] revives the writer whatever its state: on an open
    writer with the mutex free, also one that carries a sticky error or
    whose flush fails now, it returns nil and leaves the buffer empty, the
    error cleared, the capacity as it was and the writer and [blog.in]
    bound to the new destination; if that destination accepts its writes
    the writer is healthy, with nothing buffered. *)
Theorem resetFile_recovers new w b :
  lock (blog w) = false -> writer (blog w) = Some b -> 0 < bufio.size b ->
  exists w',
    resetFile new w = Returns None w' /\
    writer (blog w') = Some (bufio.mkWriter None [] (bufio.size b) new) /\
    in_ (blog w') = new /\
    (script (dests w' new) = [] ->
     healthy w' /\ stream w' = received (dests w' new)).
Proof.
  intros Hl Hb Hpos.
  destruct (resetFile_effect new w b Hl Hb) as (w' & E & Hw' & Hl' & _ & Hi & _).
  exists w'. split; [done|]. split; [done|]. split; [done|]. intros Hsc.
  split.
  - split; [done|]. eexists. split; [exact Hw'|]. unfold sound. simpl.
    split; [done|]. split; [lia|]. by split.
  - unfold stream, stream_of. rewrite Hw'. simpl. by rewrite app_nil_r.
Qed.

(** X1. The life of a writer: made by [NewBLog] over a destination that
    accepts its writes, after any sequence of [write] and [writef] calls
    with enough arguments and then [Close], the destination holds what it
    held before followed by the lines of the calls, in their order, and no
    other destination has changed; [In] still returns the destination and
    [Level] the initial threshold [DEBUG]. *)
Theorem lifecycle_delivers h in0 cs :
  script (h in0) = [] -> Forall (fun c => is_Some (line c)) cs ->
  exists w1 w2,
    do_calls cs (mkWorld h (NewBLog in0)) = Returns tt w1 /\
    Close w1 = Returns tt w2 /\
    received (dests w2 in0) = received (h in0) ++ lines cs /\
    (forall l, l <> in0 -> dests w2 l = h l) /\
    get_In w2 = Returns in0 w2 /\ get_Level w2 = Returns DEBUG w2.
Proof.
  intros Hsc Hall. set (w0 := mkWorld h (NewBLog in0)).
  pose proof (NewBLog_healthy h in0 Hsc) as H0. fold w0 in H0.
  destruct (do_calls_spec cs w0 H0 Hall) as (w1 & E1 & X1 & H1).
  destruct H1 as (Hl1 & b1 & Hb1 & Hs1).
  destruct (Close_effect w1 b1 Hl1 Hb1) as (w2 & E2 & Hn2 & Hl2 & Hlv2 & Hi2 & Hf2).
  destruct (Close_healthy w1 (conj Hl1 (ex_intro _ b1 (conj Hb1 Hs1))))
    as (w2' & E2' & _ & _ & Hd2).
  assert (w2' = w2) as -> by congruence.
  assert (Hbd : bound w1 = Some in0) by by rewrite (extends_bound _ _ _ X1).
  assert (Hwr : bufio.wr b1 = in0).
  { unfold bound in Hbd. rewrite Hb1 in Hbd. by injection Hbd. }
  exists w1, w2. split; [done|]. split; [done|]. split; [|split; [|split]].
  - rewrite (proj1 (Hd2 in0) Hbd), (extends_stream _ _ _ X1).
    unfold stream, stream_of. simpl. by rewrite app_nil_r.
  - intros l Hne. rewrite Hf2 by congruence.
    apply (extends_frame _ _ _ l X1). unfold bound, w0. simpl. congruence.
  - unfold get_In. f_equal. rewrite Hi2.
    destruct X1 as (? & ? & _ & _ & _ & _ & ->). done.
  - unfold get_Level. f_equal. rewrite Hlv2.
    destruct X1 as (? & ? & _ & _ & _ & -> & _). done.
Qed.

(** *** The threshold *)

Lemma blind_ret {A} (a : A) : level_blind (mret a : M A).
Proof. by intros l w. Qed.

Lemma blind_throw {A} p : level_blind (throw p : M A).
Proof. by intros l w. Qed.

Lemma blind_bind {A B} (m : M A) (k : A -> M B) :
  level_blind m -> (forall a, level_blind (k a)) -> level_blind (m ≫= k).
Proof.
  intros Hm Hk l w. unfold mbind, M_bind. rewrite Hm.
  destruct (m w) as [a w'|p w'|w']; simpl; [apply Hk|done..].
Qed.

Lemma blind_on_writer {A}
    (m : bufio.Writer -> store -> A * bufio.Writer * store) :
  level_blind (on_writer m : M A).
Proof.
  intros l w. unfold on_writer. simpl.
  destruct (writer (blog w)) as [b|]; [|done].
  by destruct (m b (dests w)) as [[a b'] h'].
Qed.

Lemma blind_assign (f : @BLog Level -> @BLog Level) :
  (forall l r, f (set_level l r) = set_level l (f r)) ->
  level_blind (assign f).
Proof. intros Hf l w. unfold assign, with_level. simpl. by rewrite Hf. Qed.

Lemma blind_Lock : level_blind (Lock (Level:=Level)).
Proof. intros l w. unfold Lock. simpl. by destruct (lock (blog w)). Qed.

Lemma blind_defer {A} (d : M unit) (rest : M A) :
  level_blind d -> level_blind rest -> level_blind (defer d rest).
Proof.
  intros Hd Hr l w. unfold defer. rewrite Hr.
  destruct (rest w) as [a w'|p w'|w']; simpl; [| |done].
  - apply (blind_bind d (fun _ => mret a)); auto using blind_ret.
  - apply (blind_bind d (fun _ => throw p)); auto using blind_throw.
Qed.

Lemma blind_foldM {A B} (f : A -> B -> M A) :
  (forall a e, level_blind (f a e)) -> forall l a, level_blind (foldM f a l).
Proof.
  intros Hf. induction l as [|e l IH]; intros a; [apply blind_ret|].
  simpl. apply blind_bind; auto.
Qed.

Lemma blind_iter format args x iv : level_blind (writef_iter format args x iv).
Proof.
  destruct iv as [i v]. destruct x as [tag tagPos escape n last s size].
  unfold writef_iter.
  repeat case_match;
    repeat first [apply blind_bind; [|intros ?] | apply blind_on_writer
                 | apply blind_ret | apply blind_throw].
Qed.

Lemma blind_locked {A} (rest : M A) :
  level_blind rest -> level_blind (Lock ≫= fun _ => defer Unlock rest).
Proof.
  intros H. apply blind_bind; [apply blind_Lock|]. intros _.
  apply blind_defer; [|done]. by apply blind_assign.
Qed.

(** X3. No method consults the threshold: [write], [writef], [flush],
    [Close] and [resetFile] do the same, in every state, whatever threshold
    [SetLevel] has set; a message is written whatever its level. *)
Theorem level_not_consulted l w lvl m format args new :
  write lvl m (with_level l w) = outcome_map (with_level l) (write lvl m w) /\
  writef lvl format args (with_level l w)
    = outcome_map (with_level l) (writef lvl format args w) /\
  flush (with_level l w) = outcome_map (with_level l) (flush w) /\
  Close (with_level l w) = outcome_map (with_level l) (Close w) /\
  resetFile new (with_level l w)
    = outcome_map (with_level l) (resetFile new w).
Proof.
  repeat split.
  - apply (blind_locked _); repeat first
      [apply blind_bind; [|intros ?] | apply blind_on_writer | apply blind_ret].
  - apply (blind_locked _); repeat first
      [apply blind_bind; [|intros ?] | apply blind_on_writer | apply blind_ret
      | apply blind_foldM; intros ? ?; apply blind_iter].
  - apply (blind_locked _); repeat first
      [apply blind_bind; [|intros ?] | apply blind_on_writer | apply blind_ret].
  - apply (blind_locked _); repeat first
      [apply blind_bind; [|intros ?] | apply blind_on_writer | apply blind_ret
      | by apply blind_assign].
  - apply (blind_locked _); repeat first
      [apply blind_bind; [|intros ?] | apply blind_on_writer | apply blind_ret
      | by apply blind_assign].
Qed.

Lemma run_op_tracks o w w' :
  run_op o w = Returns tt w' ->
  level (blog w') = threshold_after [o] (level (blog w)) /\
  in_ (blog w') = in_after [o] (in_ (blog w)).
Proof.
  assert (Hev : forall w1, evolves w w1 ->
            level (blog w1) = level (blog w) /\ in_ (blog w1) = in_ (blog w)).
  { by intros w1 (? & ? & _). }
  destruct o as [lvl m|lvl format args| | |in1|lvl| |]; simpl;
    try (by intros [= <-]).
  all: destruct (lock (blog w)) eqn:Hl;
    [unfold write, writef, flush, Close, resetFile;
     rewrite ?(bind_Blocks _ _ _ _ (locked_held _ w Hl)), ?locked_held by done;
     done|].
  all: destruct (writer (blog w)) as [b|] eqn:Hb.
  all: try (destruct (closed_faults w Hl Hb) with (lvl := level (blog w))
              (m := @nil ascii) (format := @nil ascii) (args := @nil Value)
              (new := 0) as (_ & _ & Ef & _ & Ec)).
  - destruct (write_effect lvl m w Hl) as (w1 & E & X & _); [congruence|].
    rewrite (bind_Returns _ _ _ _ _ E). intros [= <-]. by apply Hev.
  - destruct (closed_faults w Hl Hb lvl m [] [] 0) as (E & _).
    by rewrite (bind_Panics _ _ _ _ _ E).
  - destruct (writef_effect lvl format args w Hl)
      as (w1 & X & _ & [[r E]|E]); [congruence| |].
    + rewrite (bind_Returns _ _ _ _ _ E). intros [= <-]. by apply Hev.
    + by rewrite (bind_Panics _ _ _ _ _ E).
  - destruct (closed_faults w Hl Hb lvl [] format args 0) as (_ & E & _).
    by rewrite (bind_Panics _ _ _ _ _ E).
  - destruct (flush_effect w Hl) as (w1 & E & X & _); [congruence|].
    rewrite E. intros [= <-]. by apply Hev.
  - by rewrite Ef.
  - destruct (Close_effect w b Hl Hb) as (w1 & E & _ & _ & Hlv & Hi & _).
    rewrite E. by intros [= <-].
  - by rewrite Ec.
  - destruct (resetFile_effect in1 w b Hl Hb) as (w1 & E & _ & _ & Hlv & Hi & _).
    rewrite (bind_Returns _ _ _ _ _ E). by intros [= <-].
  - destruct (closed_faults w Hl Hb (level (blog w)) [] [] [] in1)
      as (_ & _ & _ & E & _).
    by rewrite (bind_Panics _ _ _ _ _ E).
Qed.

(** X2. [Level] and [In] report the last [SetLevel] and the last
    [resetFile]: when a sequence of calls of the methods has returned, the
    threshold is the one set last (the initial one if none was set) and
    [blog.in] the destination of the last [resetFile] (the initial one if
    there was none); no other method changes either. *)
Theorem Level_and_In_track os : forall w w',
  run_ops os w = Returns tt w' ->
  get_Level w' = Returns (threshold_after os (level (blog w))) w' /\
  get_In w' = Returns (in_after os (in_ (blog w))) w'.
Proof.
  unfold get_Level, get_In.
  induction os as [|o os IH]; intros w w'; simpl.
  { by intros [= <-]. }
  unfold mbind, M_bind. destruct (run_op o w) as [[] w1|p w1|w1] eqn:E1;
    [|done..].
  intros E. destruct (run_op_tracks o w w1 E1) as [Hlv Hi].
  destruct (IH w1 w' E) as [Hlv' Hi']. unfold threshold_after, in_after in *.
  simpl in Hlv, Hi. rewrite <- Hlv, <- Hi. done.
Qed.

(** *** [writef] in any state of an open writer *)
Lemma iter_same_control format args x y iv w v :
  same_control x y -> writer (blog w) <> None -> writer (blog v) <> None ->
  (exists x' y' w' v',
     writef_iter format args x iv w = Returns x' w' /\
     writef_iter format args y iv v = Returns y' v' /\
     same_control x' y' /\
     writer (blog w') <> None /\ writer (blog v') <> None) \/
  (writef_iter format args x iv w = Panics IndexOutOfRange w /\
   writef_iter format args y iv v = Panics IndexOutOfRange v).
Proof.
  destruct x as [tag tagPos escape n last s size].
  destruct y as [tag' tagPos' escape' n' last' s' size'].
  intros (Ht & Hp & He & Hn & Hla) Hw Hv. simpl in *. subst.
  destruct iv as [i c]. unfold writef_iter. destruct tag'.
  - destruct (is_verb c).
    + destruct (args !! n') as [a|]; [|by right]. left.
      destruct (on_writer_returns
                  (bufio.WriteString (Sprintf (slice format tagPos' (i + 1)) a))
                  w Hw) as (r1 & w1 & E1 & H1 & _).
      destruct (on_writer_returns
                  (bufio.WriteString (Sprintf (slice format tagPos' (i + 1)) a))
                  v Hv) as (r2 & v1 & E2 & H2 & _).
      rewrite (bind_Returns _ _ _ _ _ E1), (bind_Returns _ _ _ _ _ E2).
      eexists _, _, w1, v1. by repeat split.
    + destruct (c =? byteZ ESCAPE)%Z.
      * left. destruct escape'.
        -- destruct (on_writer_returns (bufio.WriteByte ESCAPE) w Hw)
             as (r1 & w1 & E1 & H1 & _).
           destruct (on_writer_returns (bufio.WriteByte ESCAPE) v Hv)
             as (r2 & v1 & E2 & H2 & _).
           unfold mbind, M_bind. rewrite E1, E2.
           eexists _, _, w1, v1. by repeat split.
        -- eexists _, _, w, v. by repeat split.
      * left. eexists _, _, w, v. by repeat split.
  - destruct (format !! i) as [ch|]; [|by right]. left.
    destruct (bool_decide (PLACEHOLDER = ch) && negb escape').
    + destruct (on_writer_returns (bufio.WriteString (slice format last' i))
                  w Hw) as (r1 & w1 & E1 & H1 & _).
      destruct (on_writer_returns (bufio.WriteString (slice format last' i))
                  v Hv) as (r2 & v1 & E2 & H2 & _).
      rewrite (bind_Returns _ _ _ _ _ E1), (bind_Returns _ _ _ _ _ E2).
      eexists _, _, w1, v1. by repeat split.
    + eexists _, _, w, v. by repeat split.
Qed.

Lemma foldM_same_control format args l : forall x y w v,
  same_control x y -> writer (blog w) <> None -> writer (blog v) <> None ->
  (exists x' y' w' v',
     foldM (writef_iter format args) x l w = Returns x' w' /\
     foldM (writef_iter format args) y l v = Returns y' v' /\
     same_control x' y' /\
     writer (blog w') <> None /\ writer (blog v') <> None) \/
  (exists w' v',
     foldM (writef_iter format args) x l w = Panics IndexOutOfRange w' /\
     foldM (writef_iter format args) y l v = Panics IndexOutOfRange v').
Proof.
  induction l as [|iv l IH]; intros x y w v Hc Hw Hv.
  { left. by exists x, y, w, v. }
  rewrite !foldM_cons.
  destruct (iter_same_control format args x y iv w v Hc Hw Hv)
    as [(x1 & y1 & w1 & v1 & E1 & E2 & Hc1 & Hw1 & Hv1)|[E1 E2]].
  - rewrite (bind_Returns _ _ _ _ _ E1), (bind_Returns _ _ _ _ _ E2).
    by apply IH.
  - rewrite (bind_Panics _ _ _ _ _ E1), (bind_Panics _ _ _ _ _ E2).
    right. by exists w, v.
Qed.

Lemma locked_verdict {A} (rest : M A) w :
  lock (blog w) = false ->
  verdict_of ((Lock ≫= fun _ => defer Unlock rest) w) =
  verdict_of (rest (mkWorld (dests w) (set_lock true (blog w)))).
Proof. intros H. rewrite locked_run by done. by destruct (rest _). Qed.

Lemma writef_same_verdict lvl format args w v :
  lock (blog w) = false -> lock (blog v) = false ->
  writer (blog w) <> None -> writer (blog v) <> None ->
  verdict_of (writef lvl format args w) = verdict_of (writef lvl format args v).
Proof.
  intros Hlw Hlv Hw Hv. unfold writef. rewrite !locked_verdict by done.
  set (wl := mkWorld (dests w) (set_lock true (blog w))).
  set (vl := mkWorld (dests v) (set_lock true (blog v))).
  destruct (on_writer_returns (bufio.Write timeCache_format) wl Hw)
    as (a1 & w1 & Ew1 & Hw1 & _).
  destruct (on_writer_returns (bufio.Write timeCache_format) vl Hv)
    as (c1 & v1 & Ev1 & Hv1 & _).
  destruct (on_writer_returns (bufio.WriteString (Prefix lvl)) w1 Hw1)
    as (a2 & w2 & Ew2 & Hw2 & _).
  destruct (on_writer_returns (bufio.WriteString (Prefix lvl)) v1 Hv1)
    as (c2 & v2 & Ev2 & Hv2 & _).
  rewrite (bind_Returns _ _ _ _ _ Ew1), (bind_Returns _ _ _ _ _ Ev1),
    (bind_Returns _ _ _ _ _ Ew2), (bind_Returns _ _ _ _ _ Ev2).
  set (x0 := Vars.mk false 0 false 0 0 0 _).
  destruct (foldM_same_control format args (range format) x0 x0 w2 v2)
    as [(x' & y' & w3 & v3 & Ew3 & Ev3 & Hc & Hw3 & Hv3)|(w3 & v3 & Ew3 & Ev3)];
    [done..| |].
  - rewrite (bind_Returns _ _ _ _ _ Ew3), (bind_Returns _ _ _ _ _ Ev3).
    destruct (on_writer_returns
                (bufio.WriteString (slice_from format (Vars.last x'))) w3 Hw3)
      as (a4 & w4 & Ew4 & Hw4 & _).
    destruct (on_writer_returns
                (bufio.WriteString (slice_from format (Vars.last y'))) v3 Hv3)
      as (c4 & v4 & Ev4 & Hv4 & _).
    destruct (on_writer_returns (bufio.WriteByte EOL) w4 Hw4)
      as (a5 & w5 & Ew5 & _).
    destruct (on_writer_returns (bufio.WriteByte EOL) v4 Hv4)
      as (c5 & v5 & Ev5 & _).
    by rewrite (bind_Returns _ _ _ _ _ Ew4), (bind_Returns _ _ _ _ _ Ev4),
      (bind_Returns _ _ _ _ _ Ew5), (bind_Returns _ _ _ _ _ Ev5).
  - by rewrite (bind_Panics _ _ _ _ _ Ew3), (bind_Panics _ _ _ _ _ Ev3).
Qed.

(** X6. On an open writer with the mutex free, whether [writef] returns
    depends on the format and the number of arguments alone, not on the
    state of the buffer or on what the destination does: it stops with an
    index-out-of-range panic when there are fewer arguments than complete
    placeholders, and returns otherwise. *)
Theorem writef_stops_iff_underflow lvl format args w :
  lock (blog w) = false -> writer (blog w) <> None ->
  (length args < placeholders format ->
   verdict_of (writef lvl format args w) = Panicked IndexOutOfRange) /\
  (placeholders format <= length args ->
   verdict_of (writef lvl format args w) = Returned).
Proof.
  intros Hl Hw.
  set (v := mkWorld (fun _ => mkSink [] 0 [])
              (mkBLog (level (blog w)) 0
                 (Some (bufio.mkWriter None [] 1 0)) false)).
  assert (Hv : healthy v).
  { split; [done|]. eexists. split; [reflexivity|]. unfold sound. simpl.
    split; [done|]. split; [lia|]. split; [lia|done]. }
  rewrite (writef_same_verdict lvl format args w v Hl eq_refl Hw); [|done].
  pose proof (writef_spec lvl format args v Hv) as HS.
  unfold placeholders. split; intros Hk.
  - destruct (emitted_short (tokenize format) [] args Hk) as [part E].
    rewrite E in HS. destruct HS as (v' & -> & _). done.
  - destruct (emitted_enough (tokenize format) [] args Hk) as [body E].
    rewrite E in HS. destruct HS as (v' & -> & _). done.
Qed.

(** *** A format without placeholder *)
Lemma foldM_plain format args : forall rest pre x w,
  format = pre ++ rest -> PLACEHOLDER ∉ rest -> Vars.tag x = false ->
  foldM (writef_iter format args) x (positions (length pre) rest) w
    = Returns x w.
Proof.
  induction rest as [|c t IH]; intros pre x w Hf Hno Ht; [done|].
  cbn [positions]. rewrite foldM_cons.
  assert (Hc : format !! length pre = Some c).
  { subst format. by apply list_lookup_middle. }
  rewrite (bind_Returns _ _ _ _ _
    (iter_literal format args x (length pre) (byteZ c) c w Ht Hc
       (or_introl (fun E => Hno (eq_ind_r (fun a => a ∈ c :: t)
                                          (list_elem_of_here c t) E))))).
  replace (S (length pre)) with (length (pre ++ [c]))
    by (rewrite length_app; simpl; lia).
  apply IH; [by rewrite <- app_assoc| |done].
  intros Hin. apply Hno. by right.
Qed.

(** X7. For a format without [%], [writef] is [write]: in every state of
    the writer and whatever the arguments, which are ignored, it has the
    same outcome, the same result and the same effect. *)
Theorem writef_plain_is_write lvl format args w :
  PLACEHOLDER ∉ format ->
  writef lvl format args w = write lvl format w.
Proof.
  intros Hno. destruct (lock (blog w)) eqn:Hl.
  { unfold writef, write. by rewrite !locked_held. }
  unfold writef, write. rewrite !locked_run by done.
  set (wl := mkWorld (dests w) (set_lock true (blog w))).
  destruct (on_writer (bufio.Write timeCache_format) wl)
    as [a1 w1|p1 w1|w1] eqn:E1;
    [|by rewrite !(bind_Panics _ _ _ _ _ E1)
     |by rewrite !(bind_Blocks _ _ _ _ E1)].
  rewrite !(bind_Returns _ _ _ _ _ E1).
  destruct (on_writer (bufio.WriteString (Prefix lvl)) w1)
    as [a2 w2|p2 w2|w2] eqn:E2;
    [|by rewrite !(bind_Panics _ _ _ _ _ E2)
     |by rewrite !(bind_Blocks _ _ _ _ E2)].
  rewrite !(bind_Returns _ _ _ _ _ E2).
  set (x0 := Vars.mk false 0 false 0 0 0 _).
  assert (E3 : foldM (writef_iter format args) x0 (range format) w2
               = Returns x0 w2).
  { transitivity (foldM (writef_iter format args) x0 (positions 0 format) w2).
    - apply (range_positions format args format 0 [] x0 w2); [done|].
      by exists [], format.
    - by apply (foldM_plain format args format []). }
  rewrite (bind_Returns _ _ _ _ _ E3). subst x0. simpl Vars.last.
  simpl Vars.size. unfold slice_from. rewrite drop_0.
  destruct (on_writer (bufio.WriteString format) w2)
    as [a4 w4|p4 w4|w4] eqn:E4;
    [|by rewrite !(bind_Panics _ _ _ _ _ E4)
     |by rewrite !(bind_Blocks _ _ _ _ E4)].
  rewrite !(bind_Returns _ _ _ _ _ E4).
  destruct (on_writer (bufio.WriteByte EOL) w4)
    as [a5 w5|p5 w5|w5] eqn:E5;
    [|by rewrite !(bind_Panics _ _ _ _ _ E5)
     |by rewrite !(bind_Blocks _ _ _ _ E5)].
  rewrite !(bind_Returns _ _ _ _ _ E5).
  unfold mret, M_ret. f_equal. int_solve.
Qed.

(** *** The loops of the buffered writer *)
Lemma WriteString_loop_fuel fuel : forall fuel' s nn b h,
  0 < bufio.size b -> loop_measure s b < fuel -> loop_measure s b < fuel' ->
  bufio.WriteString_loop fuel s nn b h = bufio.WriteString_loop fuel' s nn b h.
Proof.
  induction fuel as [|fuel IH]; intros fuel' s nn b h Hz Hm Hm'; [lia|].
  destruct fuel' as [|fuel']; [lia|]. simpl. fold (loop_goes_on s b).
  destruct (loop_goes_on s b) eqn:Hg; [|done].
  unfold loop_goes_on in Hg. apply andb_true_iff in Hg as [Hlt _].
  apply Nat.ltb_lt in Hlt.
  destruct (bufio.fill_flush s b h) as [[n b'] h'] eqn:EF.
  destruct (fill_flush_outcome _ _ _ _ _ _ EF) as (Hn & Hsz & Hb).
  destruct (bufio.no_err b') eqn:He.
  - assert (Hnil : bufio.buf b' = []).
    { apply Hb. unfold bufio.no_err in He. by destruct (bufio.err b'). }
    apply IH; [lia| |]; eapply next_round_measure; eauto.
  - by rewrite !WriteString_loop_err.
Qed.

Lemma Write_loop_fuel fuel : forall fuel' p nn b h,
  0 < bufio.size b -> loop_measure p b < fuel -> loop_measure p b < fuel' ->
  bufio.Write_loop fuel p nn b h = bufio.Write_loop fuel' p nn b h.
Proof.
  induction fuel as [|fuel IH]; intros fuel' p nn b h Hz Hm Hm'; [lia|].
  destruct fuel' as [|fuel']; [lia|]. simpl. fold (loop_goes_on p b).
  destruct (loop_goes_on p b) eqn:Hg; [|done].
  unfold loop_goes_on in Hg. apply andb_true_iff in Hg as [Hlt _].
  apply Nat.ltb_lt in Hlt.
  destruct (bufio.Buffered b =? 0).
  - destruct (io_Write (h (bufio.wr b)) p) as [d [n [x|]]] eqn:EW.
    + by rewrite !Write_loop_err.
    + apply io_Write_contract in EW. subst n.
      by rewrite drop_all, !Write_loop_nil.
  - destruct (bufio.fill_flush p b h) as [[n b'] h'] eqn:EF.
    destruct (fill_flush_outcome _ _ _ _ _ _ EF) as (Hn & Hsz & Hb).
    destruct (bufio.no_err b') eqn:He.
    + assert (Hnil : bufio.buf b' = []).
      { apply Hb. unfold bufio.no_err in He. by destruct (bufio.err b'). }
      apply IH; [lia| |]; eapply next_round_measure; eauto.
    + by rewrite !Write_loop_err.
Qed.

(** The number of rounds given to the loops of [WriteString] and [Write]
    is enough for a destination that honours the contract of [io.Writer],
    as the sink does: within [len + 2] rounds the rest fits in the buffer
    or an error is recorded, and further rounds change nothing. *)
Lemma bufio_loops_exit s nn b h fuel :
  0 < bufio.size b -> length s + 2 <= fuel ->
  (loop_goes_on (bufio.WriteString_loop (length s + 2) s nn b h).1.1.1
                (bufio.WriteString_loop (length s + 2) s nn b h).1.2 = false /\
   bufio.WriteString_loop fuel s nn b h =
   bufio.WriteString_loop (length s + 2) s nn b h) /\
  (loop_goes_on (bufio.Write_loop (length s + 2) s nn b h).1.1.1
                (bufio.Write_loop (length s + 2) s nn b h).1.2 = false /\
   bufio.Write_loop fuel s nn b h =
   bufio.Write_loop (length s + 2) s nn b h).
Proof.
  intros Hz Hf. pose proof (loop_measure_fuel s b) as Hm.
  split; split.
  - by apply WriteString_loop_exits.
  - apply WriteString_loop_fuel; [done|lia|done].
  - by apply Write_loop_exits.
  - apply Write_loop_fuel; [done|lia|done].
Qed.

Lemma NewBLog_well_formed h in0 : well_formed (mkWorld h (NewBLog in0)).
Proof.
  split; [done|]. intros b [= <-]. split; [done|]. split; simpl; [lia|].
  unfold bufio.defaultBufSize. destruct (Z.leb_spec DefaultBufferSize 0); lia.
Qed.

End Facts.

(** ** The theorems at concrete inputs *)
Lemma start_healthy : healthy Sample.start.
Proof. by apply NewBLog_healthy. Qed.


(** The example of the specification:
    [writef(INFO, "hello %s, you are %d", "world", 3)]. *)
Lemma writef_renders_witness :
  healthy Sample.start /\ terminated Sample.greeting /\
  length Sample.greeting_args = placeholders Sample.greeting /\
  exists r w',
    Sample.writef Sample.INFO Sample.greeting Sample.greeting_args Sample.start
      = Returns r w' /\
    stream w' = stream Sample.start ++ Sample.timeCache_format ++
                Sample.Prefix Sample.INFO ++
                str "hello world, you are 3" ++ [EOL] /\
    healthy w'.
Proof.
  split; [exact start_healthy|]. split; [reflexivity|]. split; [reflexivity|].
  exact (writef_renders Sample.Prefix Sample.timeCache_format Sample.Sprintf
           Sample.INFO Sample.greeting Sample.greeting_args Sample.start
           start_healthy eq_refl eq_refl).
Defined.

(** C1, as stated, fails on a placeholder holding a pair of escape
    characters: at [writef(INFO, "%\\d", 3)] (a percent sign, two
    backslashes, the verb) the body is a backslash followed by the rendering
    of the placeholder, not that rendering alone. *)
Lemma writef_renders_counterexample :
  healthy Sample.start /\
  length [Sample.VInt 3] = placeholders (str "%\\d") /\
  Sample.Sprintf (str "%\\d") (Sample.VInt 3) = str "%!\(int=3)\d" /\
  rendered Sample.Sprintf (str "%\\d") [Sample.VInt 3] = str "%!\(int=3)\d" /\
  stream (final (Sample.writef Sample.INFO (str "%\\d") [Sample.VInt 3]
                   Sample.start))
  = stream Sample.start ++ Sample.timeCache_format ++
    Sample.Prefix Sample.INFO ++ str "\%!\(int=3)\d" ++ [EOL] /\
  stream (final (Sample.writef Sample.INFO (str "%\\d") [Sample.VInt 3]
                   Sample.start))
  <> stream Sample.start ++ Sample.timeCache_format ++
     Sample.Prefix Sample.INFO ++
     rendered Sample.Sprintf (str "%\\d") [Sample.VInt 3] ++ [EOL].
Proof.
  split; [exact start_healthy|]. do 4 (split; [reflexivity|]).
  intros H. apply (f_equal length) in H. vm_compute in H. discriminate H.
Qed.

Lemma writef_argument_mismatch_witness :
  healthy Sample.start /\
  (length ([] : list Sample.Value) < placeholders (str "%d") /\
   exists part w',
     emitted Sample.Sprintf [] (tokenize (str "%d")) [] = Fault part /\
     Sample.writef Sample.INFO (str "%d") [] Sample.start
       = Panics IndexOutOfRange w' /\
     stream w' = stream Sample.start ++ Sample.timeCache_format ++
                 Sample.Prefix Sample.INFO ++ part /\
     healthy w') /\
  (placeholders (str "%d") < length [Sample.VInt 1; Sample.VInt 2] /\
   exists body r w',
     emitted Sample.Sprintf [] (tokenize (str "%d"))
       (take (placeholders (str "%d")) [Sample.VInt 1; Sample.VInt 2])
       = Done body /\
     Sample.writef Sample.INFO (str "%d") [Sample.VInt 1; Sample.VInt 2]
       Sample.start = Returns r w' /\
     stream w' = stream Sample.start ++ Sample.timeCache_format ++
                 Sample.Prefix Sample.INFO ++ body ++ [EOL] /\
     healthy w').
Proof.
  split; [exact start_healthy|]. split.
  - assert (Hlt : length ([] : list Sample.Value) < placeholders (str "%d")).
    { vm_compute. lia. }
    split; [exact Hlt|].
    exact (proj1 (writef_argument_mismatch Sample.Prefix
                    Sample.timeCache_format Sample.Sprintf Sample.INFO
                    (str "%d") [] Sample.start start_healthy) Hlt).
  - assert (Hlt : placeholders (str "%d")
                  < length [Sample.VInt 1; Sample.VInt 2]).
    { vm_compute. lia. }
    split; [exact Hlt|].
    exact (proj2 (writef_argument_mismatch Sample.Prefix
                    Sample.timeCache_format Sample.Sprintf Sample.INFO
                    (str "%d") [Sample.VInt 1; Sample.VInt 2] Sample.start
                    start_healthy) Hlt).
Defined.

(** C2, as stated, fails: at [writef(INFO, "%d")] without an argument the
    call stops with an index-out-of-range panic, having appended the
    timestamp and the prefix; with two arguments it returns and appends a
    whole line. *)
Lemma writef_argument_mismatch_counterexample :
  healthy Sample.start /\
  length ([] : list Sample.Value) <> placeholders (str "%d") /\
  (exists w',
     Sample.writef Sample.INFO (str "%d") [] Sample.start
       = Panics IndexOutOfRange w' /\
     stream w' = stream Sample.start ++ Sample.timeCache_format ++
                 Sample.Prefix Sample.INFO /\
     stream w' <> stream Sample.start) /\
  length [Sample.VInt 1; Sample.VInt 2] <> placeholders (str "%d") /\
  (exists r w',
     Sample.writef Sample.INFO (str "%d") [Sample.VInt 1; Sample.VInt 2]
       Sample.start = Returns r w' /\
     stream w' = stream Sample.start ++ Sample.timeCache_format ++
                 Sample.Prefix Sample.INFO ++ str "1" ++ [EOL]).
Proof.
  split; [exact start_healthy|]. split; [by vm_compute|]. split.
  - eexists. split; [lazy; reflexivity|]. split; [reflexivity|]. by vm_compute.
  - split; [by vm_compute|]. eexists _, _. split; [lazy; reflexivity|].
    reflexivity.
Qed.

Lemma writef_returns_appended_witness :
  healthy Sample.start /\
  Sample.writef Sample.INFO Sample.greeting Sample.greeting_args Sample.start
    = Returns 50%Z Sample.greeted /\
  exists line body,
    line = Sample.timeCache_format ++ Sample.Prefix Sample.INFO ++ body ++ [EOL] /\
    stream Sample.greeted = stream Sample.start ++ line /\
    50%Z = int_wrap (len line) /\
    ((len line < 2 ^ 63)%Z ->
     50%Z = (len Sample.timeCache_format + len (Sample.Prefix Sample.INFO)
             + len body + 1)%Z).
Proof.
  split; [exact start_healthy|]. split; [reflexivity|].
  exact (writef_returns_appended Sample.Prefix Sample.timeCache_format
           Sample.Sprintf Sample.INFO Sample.greeting Sample.greeting_args
           Sample.start 50%Z Sample.greeted start_healthy eq_refl).
Defined.


(** In ["a\%d"] the backslash at offset 1 is outside a placeholder and
    leaves the escape flag unset; the [%] at offset 2 opens a placeholder. *)
Lemma escape_only_inside_placeholder_witness :
  foldM (Sample.writef_iter (str "a\%d") [Sample.VInt 1])
        (Vars.mk false 0 false 0 0 0 27)
        (take 2 (range (str "a\%d"))) Sample.start
    = Returns (Vars.mk false 0 false 0 0 0 27) Sample.start /\
  (Vars.tag (Vars.mk false 0 false 0 0 0 27) = false ->
   Vars.escape (Vars.mk false 0 false 0 0 0 27) = false) /\
  (forall i v,
     Vars.tag (Vars.mk false 0 false 0 0 0 27) = false ->
     str "a\%d" !! i = Some PLACEHOLDER ->
     writer (blog Sample.start) <> None ->
     exists x' w',
       Sample.writef_iter (str "a\%d") [Sample.VInt 1]
         (Vars.mk false 0 false 0 0 0 27) (i, v) Sample.start
         = Returns x' w' /\
       Vars.tag x' = true /\ Vars.tagPos x' = i).
Proof.
  split; [reflexivity|].
  exact (escape_only_inside_placeholder Sample.Sprintf (str "a\%d")
           [Sample.VInt 1] 27 2 Sample.start
           (Vars.mk false 0 false 0 0 0 27) Sample.start eq_refl).
Defined.

Lemma resetFile_swaps_witness :
  healthy Sample.start /\ bound Sample.start = Some 0 /\
  script (dests Sample.start 1) = [] /\
  Forall (fun c => is_Some (Sample.line c))
         [Cwrite Sample.INFO (str "before")] /\
  Forall (fun c => is_Some (Sample.line c))
         [Cwritef Sample.INFO (str "after %d") [Sample.VInt 7]] /\
  exists w1 w2 w3 w4,
    Sample.do_calls [Cwrite Sample.INFO (str "before")] Sample.start
      = Returns tt w1 /\
    resetFile 1 w1 = Returns None w2 /\
    Sample.do_calls [Cwritef Sample.INFO (str "after %d") [Sample.VInt 7]] w2
      = Returns tt w3 /\
    flush w3 = Returns tt w4 /\
    received (dests w2 0) =
      stream Sample.start ++ Sample.lines [Cwrite Sample.INFO (str "before")] /\
    bound w2 = Some 1 /\ capacity w2 = capacity Sample.start /\
    stream w2 = received (dests w2 1) /\
    received (dests w4 1) =
      received (dests w2 1) ++
      Sample.lines [Cwritef Sample.INFO (str "after %d") [Sample.VInt 7]] /\
    (0 <> 1 ->
     received (dests w2 1) = received (dests Sample.start 1) /\
     received (dests w4 0) =
       stream Sample.start ++ Sample.lines [Cwrite Sample.INFO (str "before")]).
Proof.
  assert (H1 : Forall (fun c => is_Some (Sample.line c))
                      [Cwrite Sample.INFO (str "before")]).
  { constructor; [eexists; lazy; reflexivity|constructor]. }
  assert (H2 : Forall (fun c => is_Some (Sample.line c))
                 [Cwritef Sample.INFO (str "after %d") [Sample.VInt 7]]).
  { constructor; [eexists; lazy; reflexivity|constructor]. }
  split; [exact start_healthy|]. split; [reflexivity|]. split; [reflexivity|].
  split; [exact H1|]. split; [exact H2|].
  exact (resetFile_swaps Sample.Prefix Sample.timeCache_format Sample.Sprintf
           0 1 _ _ Sample.start start_healthy eq_refl eq_refl H1 H2).
Defined.

Lemma use_after_close_witness :
  healthy Sample.start /\
  exists r w1 w2,
    Sample.write Sample.DEBUG (str "boot complete") Sample.start
      = Returns r w1 /\
    Close w1 = Returns tt w2 /\ writer (blog w2) = None /\
    (forall l, bound Sample.start = Some l ->
       received (dests w2 l) =
       stream Sample.start ++ Sample.timeCache_format ++
       Sample.Prefix Sample.DEBUG ++ str "boot complete" ++ [EOL]) /\
    (forall lvl' m' format args new,
       Sample.write lvl' m' w2 = Panics NilDereference w2 /\
       Sample.writef lvl' format args w2 = Panics NilDereference w2 /\
       flush w2 = Panics NilDereference w2 /\
       resetFile new w2 = Panics NilDereference w2 /\
       Close w2 = Panics NilDereference w2).
Proof.
  split; [exact start_healthy|].
  exact (use_after_close Sample.Prefix Sample.timeCache_format Sample.Sprintf
           Sample.DEBUG (str "boot complete") Sample.start start_healthy).
Defined.

(** C5, as stated, fails: after [Close], [write], [writef], [flush] and
    [resetFile] do not return an error, they stop with a nil-dereference
    panic. *)
Lemma use_after_close_counterexample :
  Close Sample.start = Returns tt Sample.closed /\
  Sample.write Sample.INFO (str "late") Sample.closed
    = Panics NilDereference Sample.closed /\
  Sample.writef Sample.INFO (str "late %d") [Sample.VInt 1] Sample.closed
    = Panics NilDereference Sample.closed /\
  flush Sample.closed = Panics NilDereference Sample.closed /\
  resetFile 1 Sample.closed = Panics NilDereference Sample.closed.
Proof. repeat split. Qed.

Lemma sink_error_not_reported_witness :
  lock (blog Sample.pending) = false /\
  writer (blog Sample.pending) = Some Sample.pending_writer /\
  bufio.Flush Sample.pending_writer (dests Sample.pending)
    = (Some (ErrIO 5), Sample.failed_writer, Sample.dests_failed) /\
  flush Sample.pending
    = Returns tt (mkWorld Sample.dests_failed
                    (mkBLog Sample.DEBUG 0 (Some Sample.failed_writer) false)) /\
  bufio.err Sample.failed_writer = Some (ErrIO 5) /\
  Close Sample.pending
    = Returns tt (mkWorld Sample.dests_failed (mkBLog Sample.DEBUG 0 None false)) /\
  forall l,
    calls (dests (final (flush Sample.pending)) l)
      <= S (calls (dests Sample.pending l)) /\
    calls (dests (final (Close Sample.pending)) l)
      <= S (calls (dests Sample.pending l)) /\
    calls (dests (final (resetFile 1 Sample.pending)) l)
      <= S (calls (dests Sample.pending l)).
Proof.
  split; [reflexivity|]. split; [reflexivity|]. split; [reflexivity|].
  exact (sink_error_not_reported 1 Sample.pending Sample.pending_writer
           (ErrIO 5) Sample.failed_writer Sample.dests_failed
           eq_refl eq_refl eq_refl).
Defined.

(** C7, as stated, fails: the destination of [pending] (reached by
    [write(INFO, "boot")] on a fresh writer) fails at the next [Write];
    [flush] and [Close] return nothing and [resetFile] returns nil, as they
    do when the destination succeeds, and after [resetFile] the buffered
    line is gone. *)
Lemma sink_error_not_reported_counterexample :
  Sample.write Sample.INFO (str "boot") Sample.start_failing
    = Returns 32%Z Sample.pending /\
  on_writer bufio.Flush Sample.pending
    = Returns (Some (ErrIO 5))
        (mkWorld Sample.dests_failed
           (mkBLog Sample.DEBUG 0 (Some Sample.failed_writer) false)) /\
  flush Sample.pending
    = Returns tt (mkWorld Sample.dests_failed
                    (mkBLog Sample.DEBUG 0 (Some Sample.failed_writer) false)) /\
  Close Sample.pending
    = Returns tt (mkWorld Sample.dests_failed (mkBLog Sample.DEBUG 0 None false)) /\
  resetFile 1 Sample.pending
    = Returns None
        (mkWorld Sample.dests_failed
           (mkBLog Sample.DEBUG 1 (Some (bufio.mkWriter None [] 4096 1)) false)) /\
  received (Sample.dests_failed 0) = [] /\
  received (Sample.dests_failed 1) = [].
Proof. repeat split. Qed.

(** Outside the precondition of the theorems on [write] and [writef]: a
    writer that carries a sticky error drops what it is given. [write]
    returns the sum of the four lengths all the same, and [writef] the
    lengths of the timestamp, the prefix, the trailing run and the
    terminator. *)
Lemma write_after_failed_flush :
  flush Sample.pending = Returns tt Sample.failed /\
  Sample.write Sample.INFO (str "late") Sample.failed
    = Returns 32%Z Sample.failed /\
  Sample.writef Sample.INFO (str "late %d") [Sample.VInt 1] Sample.failed
    = Returns 28%Z Sample.failed.
Proof. split; [reflexivity|]. split; vm_compute; reflexivity. Qed.

(** ** The further theorems at concrete inputs *)
Lemma greeted_healthy : healthy Sample.greeted.
Proof.
  split; [reflexivity|]. eexists. split; [reflexivity|].
  unfold sound. simpl. split; [done|]. split; [lia|]. split; [lia|done].
Qed.

Lemma lifecycle_delivers_witness :
  script (Sample.dests 0) = [] /\
  Forall (fun c => is_Some (Sample.line c)) Sample.session /\
  exists w1 w2,
    Sample.do_calls Sample.session Sample.start = Returns tt w1 /\
    Close w1 = Returns tt w2 /\
    received (dests w2 0) =
      received (Sample.dests 0) ++ Sample.lines Sample.session /\
    (forall l, l <> 0 -> dests w2 l = Sample.dests l) /\
    get_In w2 = Returns 0 w2 /\ get_Level w2 = Returns Sample.DEBUG w2.
Proof.
  assert (H : Forall (fun c => is_Some (Sample.line c)) Sample.session).
  { repeat constructor; eexists; lazy; reflexivity. }
  split; [reflexivity|]. split; [exact H|].
  exact (lifecycle_delivers Sample.DEBUG Sample.Prefix Sample.timeCache_format
           Sample.DefaultBufferSize Sample.Sprintf Sample.dests 0
           Sample.session eq_refl H).
Defined.

(** The routine stops at its [writef], which lacks an argument; up to
    there the threshold was set to [WARN] and the destination to 1. *)
Lemma Level_and_In_track_witness :
  Sample.run_ops (take 3 Sample.routine) Sample.start
    = Returns tt (final (Sample.run_ops (take 3 Sample.routine) Sample.start)) /\
  get_Level (final (Sample.run_ops (take 3 Sample.routine) Sample.start))
    = Returns Sample.WARN
        (final (Sample.run_ops (take 3 Sample.routine) Sample.start)) /\
  get_In (final (Sample.run_ops (take 3 Sample.routine) Sample.start))
    = Returns 1 (final (Sample.run_ops (take 3 Sample.routine) Sample.start)).
Proof.
  assert (E : Sample.run_ops (take 3 Sample.routine) Sample.start
              = Returns tt
                  (final (Sample.run_ops (take 3 Sample.routine) Sample.start))).
  { vm_compute. reflexivity. }
  split; [exact E|].
  exact (Level_and_In_track Sample.Prefix Sample.timeCache_format Sample.Sprintf
           (take 3 Sample.routine) Sample.start _ E).
Defined.

Lemma mutex_released_witness :
  lock (blog Sample.closed) = false /\
  verdict_of (Sample.run_op (Owrite Sample.INFO (str "late")) Sample.closed)
    <> Blocked /\
  lock (blog (final (Sample.run_op (Owrite Sample.INFO (str "late"))
                       Sample.closed))) = false.
Proof.
  split; [reflexivity|].
  exact (mutex_released Sample.Prefix Sample.timeCache_format Sample.Sprintf
           (Owrite Sample.INFO (str "late")) Sample.closed eq_refl).
Defined.

Lemma failed_open : writer (blog Sample.failed) <> None.
Proof. discriminate. Qed.

Lemma write_counts_lengths_witness :
  lock (blog Sample.failed) = false /\ writer (blog Sample.failed) <> None /\
  exists w',
    Sample.write Sample.INFO (str "late") Sample.failed =
      Returns (int_wrap (len Sample.timeCache_format +
                         len (Sample.Prefix Sample.INFO) +
                         len (str "late") + 1)) w'.
Proof.
  split; [reflexivity|]. split; [exact failed_open|].
  exact (write_counts_lengths Sample.Prefix Sample.timeCache_format
           Sample.INFO (str "late") Sample.failed eq_refl failed_open).
Defined.

Lemma writef_stops_iff_underflow_witness :
  lock (blog Sample.failed) = false /\ writer (blog Sample.failed) <> None /\
  length ([] : list Sample.Value) < placeholders (str "late %d") /\
  verdict_of (Sample.writef Sample.INFO (str "late %d") [] Sample.failed)
    = Panicked IndexOutOfRange /\
  placeholders (str "late %d") <= length [Sample.VInt 1] /\
  verdict_of (Sample.writef Sample.INFO (str "late %d") [Sample.VInt 1]
                Sample.failed) = Returned.
Proof.
  assert (H1 : length ([] : list Sample.Value) < placeholders (str "late %d")).
  { vm_compute. lia. }
  assert (H2 : placeholders (str "late %d") <= length [Sample.VInt 1]).
  { vm_compute. lia. }
  split; [reflexivity|]. split; [exact failed_open|]. split; [exact H1|].
  split; [|split; [exact H2|]].
  - exact (proj1 (writef_stops_iff_underflow Sample.Prefix
                    Sample.timeCache_format Sample.Sprintf Sample.INFO
                    (str "late %d") [] Sample.failed eq_refl failed_open) H1).
  - exact (proj2 (writef_stops_iff_underflow Sample.Prefix
                    Sample.timeCache_format Sample.Sprintf Sample.INFO
                    (str "late %d") [Sample.VInt 1] Sample.failed eq_refl
                    failed_open) H2).
Defined.

Lemma boot_plain : PLACEHOLDER ∉ str "boot".
Proof. compute_done. Qed.

Lemma writef_plain_is_write_witness :
(PLACEHOLDER ∉ str "boot") /\
  Sample.writef Sample.INFO (str "boot") [Sample.VInt 1] Sample.start_failing
  = Sample.write Sample.INFO (str "boot") Sample.start_failing.
Proof.
  split; [exact boot_plain|].
  exact (writef_plain_is_write Sample.Prefix Sample.timeCache_format
           Sample.Sprintf Sample.INFO (str "boot") [Sample.VInt 1]
           Sample.start_failing boot_plain).
Defined.

Lemma write_stays_in_buffer_witness :
  lock (blog Sample.start_failing) = false /\
  writer (blog Sample.start_failing) = Some (bufio.mkWriter None [] 4096 0) /\
  bufio.err (bufio.mkWriter None [] 4096 0) = None /\
  length (bufio.buf (bufio.mkWriter None [] 4096 0)) +
    length (Sample.timeCache_format ++ Sample.Prefix Sample.INFO ++
            str "boot" ++ [EOL]) <= 4096 /\
  exists r,
    Sample.write Sample.INFO (str "boot") Sample.start_failing =
      Returns r Sample.pending.
Proof.
  assert (H : length (bufio.buf (bufio.mkWriter None [] 4096 0)) +
              length (Sample.timeCache_format ++ Sample.Prefix Sample.INFO ++
                      str "boot" ++ [EOL]) <= 4096).
  { vm_compute. lia. }
  split; [reflexivity|]. split; [reflexivity|]. split; [reflexivity|].
  split; [exact H|].
  exact (write_stays_in_buffer Sample.Prefix Sample.timeCache_format
           Sample.INFO (str "boot") Sample.start_failing
           (bufio.mkWriter None [] 4096 0) eq_refl eq_refl eq_refl H).
Defined.

Lemma flush_delivers_witness :
  healthy Sample.greeted /\ bound Sample.greeted = Some 0 /\
  exists w' b',
    flush Sample.greeted = Returns tt w' /\ healthy w' /\
    writer (blog w') = Some b' /\ bufio.buf b' = [] /\
    received (dests w' 0) = stream Sample.greeted /\
    calls (dests w' 0) <= S (calls (dests Sample.greeted 0)) /\
    forall l', l' <> 0 -> dests w' l' = dests Sample.greeted l'.
Proof.
  split; [exact greeted_healthy|]. split; [reflexivity|].
  exact (flush_delivers Sample.greeted 0 greeted_healthy eq_refl).
Defined.

(** The flush of [pending] fails and the line is dropped; the writer is
    healthy again, over destination 1. *)
Lemma resetFile_recovers_witness :
  lock (blog Sample.pending) = false /\
  writer (blog Sample.pending) = Some Sample.pending_writer /\
  0 < bufio.size Sample.pending_writer /\
  exists w',
    resetFile 1 Sample.pending = Returns None w' /\
    writer (blog w') = Some (bufio.mkWriter None [] 4096 1) /\
    in_ (blog w') = 1 /\
    (script (dests w' 1) = [] ->
     healthy w' /\ stream w' = received (dests w' 1)).
Proof.
  assert (H : 0 < bufio.size Sample.pending_writer) by (vm_compute; lia).
  split; [reflexivity|]. split; [reflexivity|]. split; [exact H|].
  exact (resetFile_recovers 1 Sample.pending Sample.pending_writer
           eq_refl eq_refl H).
Defined.

Lemma start_failing_well_formed : well_formed Sample.start_failing.
Proof. apply NewBLog_well_formed. Qed.

Lemma well_formed_kept_witness :
  well_formed Sample.start_failing /\
  well_formed (final (Sample.run_ops Sample.routine Sample.start_failing)) /\
  (capacity (final (Sample.run_ops Sample.routine Sample.start_failing))
     = capacity Sample.start_failing \/
   capacity (final (Sample.run_ops Sample.routine Sample.start_failing))
     = None).
Proof.
  split; [exact start_failing_well_formed|].
  exact (well_formed_kept Sample.Prefix Sample.timeCache_format Sample.Sprintf
           Sample.routine Sample.start_failing start_failing_well_formed).
Defined.

Lemma pending_well_formed : well_formed Sample.pending.
Proof.
  split; [reflexivity|]. intros b [= <-]. split; [reflexivity|].
  split; vm_compute; lia.
Qed.

Lemma only_in_is_written_witness :
  well_formed Sample.pending /\ 1 <> in_ (blog Sample.pending) /\
  dests (final (Sample.run_op Oflush Sample.pending)) 1
    = dests Sample.pending 1.
Proof.
  assert (H : 1 <> in_ (blog Sample.pending)) by discriminate.
  split; [exact pending_well_formed|]. split; [exact H|].
  exact (only_in_is_written Sample.Prefix Sample.timeCache_format
           Sample.Sprintf Oflush Sample.pending 1 pending_well_formed H).
Defined.

Lemma sticky_error_drops_witness :
  lock (blog Sample.failed) = false /\
  writer (blog Sample.failed) = Some Sample.failed_writer /\
  bufio.err Sample.failed_writer = Some (ErrIO 5) /\
  (exists r, Sample.write Sample.INFO (str "late") Sample.failed
             = Returns r Sample.failed) /\
  ((exists r, Sample.writef Sample.INFO (str "late %d") [] Sample.failed
              = Returns r Sample.failed) \/
   Sample.writef Sample.INFO (str "late %d") [] Sample.failed
     = Panics IndexOutOfRange Sample.failed) /\
  flush Sample.failed = Returns tt Sample.failed.
Proof.
  split; [reflexivity|]. split; [reflexivity|]. split; [reflexivity|].
  exact (sticky_error_drops Sample.Prefix Sample.timeCache_format
           Sample.Sprintf Sample.INFO (str "late") (str "late %d") []
           Sample.failed Sample.failed_writer (ErrIO 5)
           eq_refl eq_refl eq_refl).
Defined.

(** C4, as stated, fails when the old destination refuses the flush:
    [resetFile] returns nil all the same, and the line buffered before the
    swap reaches neither destination; what is written afterwards reaches
    the new one. The same holds for a line that [write] had dropped
    earlier, on a writer whose flush had failed. *)
Lemma resetFile_swaps_counterexample :
  Sample.write Sample.INFO (str "boot") Sample.start_failing
    = Returns 32%Z Sample.pending /\
  stream Sample.pending = Sample.boot_line /\
  resetFile 1 Sample.pending = Returns None Sample.swapped /\
  received (dests Sample.swapped 0) = [] /\
  received (dests Sample.swapped 1) = [] /\
  stream Sample.swapped = [] /\
  received (dests (final (Sample.run_ops
                            [Owrite Sample.INFO (str "again"); Oflush]
                            Sample.swapped)) 1)
    = Sample.timeCache_format ++ Sample.Prefix Sample.INFO ++
      str "again" ++ [EOL] /\
  received (dests (final (Sample.run_ops
                            [Owrite Sample.INFO (str "again"); Oflush]
                            Sample.swapped)) 0) = [] /\
  Sample.write Sample.INFO (str "late") Sample.failed
    = Returns 32%Z Sample.failed /\
  resetFile 1 Sample.failed = Returns None Sample.swapped.
Proof. repeat (split; [vm_compute; reflexivity|]). vm_compute; reflexivity. Qed.

(** C8, as stated, fails on a writer that carries a sticky error:
    [writef(INFO, "late %d", 1)] returns 28, the lengths of the timestamp,
    the prefix and the terminator, and appends nothing (the line would be
    34 bytes long). *)
Lemma writef_returns_appended_counterexample :
  Sample.writef Sample.INFO (str "late %d") [Sample.VInt 1] Sample.failed
    = Returns 28%Z Sample.failed /\
  len (Sample.timeCache_format ++ Sample.Prefix Sample.INFO ++
       rendered Sample.Sprintf (str "late %d") [Sample.VInt 1] ++ [EOL])
    = 34%Z /\
  ~ exists out,
      stream Sample.failed = stream Sample.failed ++ out /\ 28%Z = len out.
Proof.
  split; [vm_compute; reflexivity|]. split; [vm_compute; reflexivity|].
  intros (out & E & Hl). apply (f_equal length) in E.
  rewrite length_app in E. unfold len in Hl. lia.
Qed.
